(** * SortedMap: the ordered map of [src/itmod/collections/SortedMap.ts]

    A shallow embedding of the [Node] and [SortedMap] classes and the
    properties of the map that follow from (or fail on) that code.

    Conventions of the embedding.
    - [Node<K,V> | undefined] is the inductive [Node], with the constructor
      [undefined] for the absent node.  A node object carries its identity
      ([nid], the object reference), its two array slots ([key], [value]),
      the back link [sortedMap] and the three cached numbers.
    - The tree is owned exclusively through the [left]/[right] links, so the
      nodes reachable from the root are represented by the term itself; a
      write through a reference held elsewhere (an entry handle) is a write
      to the node of that identity ([modify]).
    - A method of the map is a computation of the monad [M] over the state
      [World]: the fields of [this], the allocator of object identities and
      the state of the caller's callbacks.  A raised [TypeError] is [Throw].
    - A callback of the caller ([compute], [condition]) is a function that
      threads the caller's state; it cannot raise and cannot reach the map. *)

From Stdlib Require Import ZArith List Bool Lia Sorted.
Import ListNotations.
Open Scope Z_scope.

Set Implicit Arguments.
Set Maximal Implicit Insertion.

(** ** Results and the state-and-error monad *)

Inductive Res (A : Type) : Type :=
| Ok (a : A)
| Throw.
Arguments Ok {A} a.
Arguments Throw {A}.

Definition M (St A : Type) : Type := St -> Res (A * St).

Definition ret {St A} (a : A) : M St A := fun w => Ok (a, w).

Definition bind {St A B} (m : M St A) (k : A -> M St B) : M St B :=
  fun w => match m w with
           | Ok (a, w') => k a w'
           | Throw => Throw
           end.

Definition throw {St A} : M St A := fun _ => Throw.
Definition gets {St A} (f : St -> A) : M St A := fun w => Ok (f w, w).
Definition modify_state {St} (f : St -> St) : M St unit := fun w => Ok (tt, f w).

Declare Scope monad_scope.
Delimit Scope monad_scope with monad.
Notation "x <- m ;; k" := (bind m (fun x => k))
  (at level 61, m at next level, right associativity) : monad_scope.
Notation "' p <- m ;; k" := (bind m (fun x => let p := x in k))
  (at level 61, p pattern, m at next level, right associativity) : monad_scope.
Notation "m ;;; k" := (bind m (fun _ => k))
  (at level 61, right associativity) : monad_scope.
Open Scope monad_scope.

(** ** Comparators *)

(** Modelled from the spec: the module [../sorting] ([Comparator], [cmpLT],
    [cmpGT], [cmpLE], [cmpGE], [cmpNQ], [reverseComparator]) is not among the
    sources.  The spec gives a comparator as [cmp(a,b) -> {less, equal,
    greater}]; the three results are [Lt], [Eq] and [Gt], and the [cmpXX]
    tests classify a result. *)
Definition Comparator (K : Type) : Type := K -> K -> comparison.

Definition cmpLT (c : comparison) : bool := match c with Lt => true | _ => false end.
Definition cmpGT (c : comparison) : bool := match c with Gt => true | _ => false end.
Definition cmpLE (c : comparison) : bool := negb (cmpGT c).
Definition cmpGE (c : comparison) : bool := negb (cmpLT c).
Definition cmpNQ (c : comparison) : bool := match c with Eq => false | _ => true end.

(** Modelled from the spec: [reverseComparator] of [../sorting], "composing
    the comparator with order-reversal". *)
Definition reverseComparator {K} (cmp : Comparator K) : Comparator K :=
  fun a b => CompOpp (cmp a b).

(** What the theorems ask of a comparator: the spec's "total-order function
    over keys". *)
Record Lawful {K} (cmp : Comparator K) : Prop := {
  cmp_antisym : forall a b, cmp a b = CompOpp (cmp b a);
  cmp_trans : forall a b c, cmp a b = Lt -> cmp b c = Lt -> cmp a c = Lt;
  cmp_eq_l : forall a b c, cmp a b = Eq -> cmp a c = cmp b c
}.

Section SortedMap.

Variables K V : Type.

(** The value that [?.value] yields when there is no entry: JavaScript's
    [undefined], an inhabitant of the type of everything [get] can return. *)
Variable undefinedValue : V.

(** ** class Node *)

Record Fields : Type := mkFields {
  nid : nat;                  (* identity of the object *)
  key : K;                    (* this[0] *)
  value : V;                  (* this[1] *)
  sortedMap : option nat;     (* identity of the owning map, if any *)
  depth : Z;
  nodeCount : Z;
  balanceFactor : Z
}.

Inductive Node : Type :=
| undefined
| node (f : Fields) (left right : Node).

Definition left (n : Node) : Node :=
  match n with undefined => undefined | node _ l _ => l end.
Definition right (n : Node) : Node :=
  match n with undefined => undefined | node _ _ r => r end.

(** [n?.depth ?? 0] and [n?.nodeCount ?? 0] *)
Definition depthOr0 (n : Node) : Z :=
  match n with undefined => 0 | node f _ _ => depth f end.
Definition nodeCountOr0 (n : Node) : Z :=
  match n with undefined => 0 | node f _ _ => nodeCount f end.

Definition calcDepth (l r : Node) : Z := Z.max (depthOr0 l) (depthOr0 r) + 1.
Definition calcNodeCount (l r : Node) : Z := nodeCountOr0 l + nodeCountOr0 r + 1.
Definition calcBalanceFactor (l r : Node) : Z := depthOr0 r - depthOr0 l.

Definition set_key (f : Fields) (k : K) : Fields :=
  mkFields (nid f) k (value f) (sortedMap f) (depth f) (nodeCount f) (balanceFactor f).
Definition set_value (f : Fields) (v : V) : Fields :=
  mkFields (nid f) (key f) v (sortedMap f) (depth f) (nodeCount f) (balanceFactor f).
Definition set_sortedMap (f : Fields) (o : option nat) : Fields :=
  mkFields (nid f) (key f) (value f) o (depth f) (nodeCount f) (balanceFactor f).
Definition set_balanceFactor (f : Fields) (b : Z) : Fields :=
  mkFields (nid f) (key f) (value f) (sortedMap f) (depth f) (nodeCount f) b.

(** The three assignments of [update()], from the present children. *)
Definition updateFields (f : Fields) (l r : Node) : Fields :=
  mkFields (nid f) (key f) (value f) (sortedMap f)
           (calcDepth l r) (calcNodeCount l r) (calcBalanceFactor l r).

(** [new Node(key, value, sortedMap)] with no children, as object [ref]. *)
Definition newNode (ref : nat) (k : K) (v : V) (owner : nat) : Node :=
  node (updateFields (mkFields ref k v (Some owner) 0 0 0) undefined undefined)
       undefined undefined.

Definition update (n : Node) : Node :=
  match n with
  | undefined => undefined
  | node f l r => node (updateFields f l r) l r
  end.

Definition updateBalanceFactor (n : Node) : Node :=
  match n with
  | undefined => undefined
  | node f l r => node (set_balanceFactor f (calcBalanceFactor l r)) l r
  end.

(** [rotateLeft]: [right.update()] runs before [this.update()], so the new
    subtree root reads the depth and count that [this] cached before it lost
    its right child. *)
Definition rotateLeft (this : Node) : Res Node :=
  match this with
  | node f l (node fr rl rr) =>
      let this1 := node f l rl in                   (* this.right = right.left *)
      let fr' := updateFields fr this1 rr in        (* right.left = this; right.update() *)
      let this2 := update this1 in                  (* this.update() *)
      Ok (node fr' this2 rr)
  | _ => Throw
  end.

Definition rotateRight (this : Node) : Res Node :=
  match this with
  | node f (node fl ll lr) r =>
      let this1 := node f lr r in                   (* this.left = left.right *)
      let fl' := updateFields fl ll this1 in        (* left.right = this; left.update() *)
      let this2 := update this1 in                  (* this.update() *)
      Ok (node fl' ll this2)
  | _ => Throw
  end.

Definition balance (this : Node) : Res Node :=
  match this with
  | undefined => Throw
  | node f _ _ =>
      if balanceFactor f <? -1 then rotateRight this
      else if balanceFactor f >? 1 then rotateLeft this
      else Ok this
  end.

(** [emancipate()]: the back link and both child links are deleted. *)
Definition emancipate (n : Node) : Node :=
  match n with
  | undefined => undefined
  | node f _ _ => node (set_sortedMap f None) undefined undefined
  end.

(** ** Traversals *)

(** The generators [_iterator] and [_iteratorReversed], as the list of the
    nodes they yield. *)
Fixpoint _iterator (n : Node) : list Node :=
  match n with
  | undefined => []
  | node _ l r => _iterator l ++ n :: _iterator r
  end.

Fixpoint _iteratorReversed (n : Node) : list Node :=
  match n with
  | undefined => []
  | node _ l r => _iteratorReversed r ++ n :: _iteratorReversed l
  end.

Definition keyOf (n : Node) : option K :=
  match n with undefined => None | node f _ _ => Some (key f) end.

Fixpoint keysOf (ns : list Node) : list K :=
  match ns with
  | [] => []
  | undefined :: ns' => keysOf ns'
  | node f _ _ :: ns' => key f :: keysOf ns'
  end.

(** [entry?.value] *)
Definition valueOrUndefined (n : Node) : V :=
  match n with undefined => undefinedValue | node f _ _ => value f end.

(** ** References into the tree *)

(** The object of identity [ref] among the nodes reachable from [n]. *)
Fixpoint findNode (ref : nat) (n : Node) : Node :=
  match n with
  | undefined => undefined
  | node f l r =>
      if Nat.eqb (nid f) ref then n
      else match findNode ref l with
           | undefined => findNode ref r
           | found => found
           end
  end.

(** A write to the fields of the object of identity [ref]. *)
Fixpoint modify (ref : nat) (g : Fields -> Fields) (n : Node) : Node :=
  match n with
  | undefined => undefined
  | node f l r =>
      node (if Nat.eqb (nid f) ref then g f else f) (modify ref g l) (modify ref g r)
  end.

(** ** class SortedMap *)

Record World (S : Type) : Type := mkWorld {
  root : Node;                     (* this.root *)
  comparator : Comparator K;       (* this.comparator *)
  mapId : nat;                     (* identity of this *)
  nextRef : nat;                   (* next fresh object identity *)
  user : S                         (* state of the caller's callbacks *)
}.
Arguments mkWorld {S}.
Arguments root {S}.
Arguments comparator {S}.
Arguments mapId {S}.
Arguments nextRef {S}.
Arguments user {S}.

Definition set_root {S} (r : Node) (w : World S) : World S :=
  mkWorld r (comparator w) (mapId w) (nextRef w) (user w).
Definition set_comparator {S} (c : Comparator K) (w : World S) : World S :=
  mkWorld (root w) c (mapId w) (nextRef w) (user w).
Definition set_user {S S'} (u : S') (w : World S) : World S' :=
  mkWorld (root w) (comparator w) (mapId w) (nextRef w) u.

(** [new SortedMap(order)] as object [this], before any callback ran. *)
Definition newSortedMap {S} (order : Comparator K) (this : nat) (ref0 : nat) (u : S)
  : World S :=
  mkWorld undefined order this ref0 u.

(** Allocation of a node object. *)
Definition alloc {S} : M (World S) nat :=
  fun w => Ok (nextRef w, mkWorld (root w) (comparator w) (mapId w) (Datatypes.S (nextRef w)) (user w)).

(** A call of a callback of the caller. *)
Definition call {S A} (f : S -> A * S) : M (World S) A :=
  fun w => let (a, u) := f (user w) in Ok (a, set_user u w).

Definition liftRes {S A} (r : Res A) : M (World S) A :=
  fun w => match r with Ok a => Ok (a, w) | Throw => Throw end.

(** A variable of the enclosing function that a callback assigns: the
    computation runs with the variable added to the callbacks' state and
    hands back its final content. *)
Definition with_local {S L A} (l0 : L) (m : M (World (L * S)) A) : M (World S) (A * L) :=
  fun w => match m (set_user (l0, user w) w) with
           | Ok (a, w') => Ok ((a, fst (user w')), set_user (snd (user w')) w')
           | Throw => Throw
           end.

Definition size {S} : M (World S) Z := gets (fun w => nodeCountOr0 (root w)).

Definition iterator {S} : M (World S) (list Node) :=
  gets (fun w => _iterator (root w)).

Definition reversed {S} : M (World S) (list Node) :=
  gets (fun w => _iteratorReversed (root w)).

(** The loop of [getNode]. *)
Fixpoint getNode_from (cmp : Comparator K) (k : K) (current : Node) : Node :=
  match current with
  | undefined => undefined
  | node f l r =>
      let c := cmp k (key f) in
      if cmpLT c then getNode_from cmp k l
      else if cmpGT c then getNode_from cmp k r
      else current
  end.

Definition getNode {S} (k : K) : M (World S) Node :=
  gets (fun w => getNode_from (comparator w) k (root w)).

Definition getEntry {S} (k : K) : M (World S) Node := getNode k.

Definition get {S} (k : K) : M (World S) V :=
  e <- getEntry k ;; ret (valueOrUndefined e).

Fixpoint getLargestNode_from (current : Node) : Node :=
  match current with
  | undefined => undefined
  | node _ _ r =>
      match r with
      | undefined => current
      | node _ _ _ => getLargestNode_from r
      end
  end.

Fixpoint getSmallestNode_from (current : Node) : Node :=
  match current with
  | undefined => undefined
  | node _ l _ =>
      match l with
      | undefined => current
      | node _ _ _ => getSmallestNode_from l
      end
  end.

Definition getLargestNode {S} : M (World S) Node :=
  gets (fun w => getLargestNode_from (root w)).
Definition getSmallestNode {S} : M (World S) Node :=
  gets (fun w => getSmallestNode_from (root w)).
Definition getLargestEntry {S} : M (World S) Node := getLargestNode.
Definition getSmallestEntry {S} : M (World S) Node := getSmallestNode.

(** [_getNodeOrCompute]: the new subtree and the reference that the
    [getNode] callback received. *)
Fixpoint _getNodeOrCompute {S} (n : Node) (k : K) (compute : S -> V * S)
  : M (World S) (Node * nat) :=
  match n with
  | undefined =>
      v <- call compute ;;
      ref <- alloc ;;
      this <- gets mapId ;;
      ret (newNode ref k v this, ref)
  | node f l r =>
      cmp <- gets comparator ;;
      let c := cmp k (key f) in
      if cmpLT c then
        '(l', h) <- _getNodeOrCompute l k compute ;;
        n' <- liftRes (balance (update (node f l' r))) ;;
        ret (n', h)
      else if cmpGT c then
        '(r', h) <- _getNodeOrCompute r k compute ;;
        n' <- liftRes (balance (update (node f l r'))) ;;
        ret (n', h)
      else ret (n, nid f)
  end.

Definition getNodeOrCompute {S} (k : K) (compute : S -> V * S) : M (World S) Node :=
  r <- gets root ;;
  match r with
  | undefined =>
      v <- call compute ;;
      ref <- alloc ;;
      this <- gets mapId ;;
      modify_state (set_root (newNode ref k v this)) ;;;
      gets root
  | node _ _ _ =>
      '(r', h) <- _getNodeOrCompute r k compute ;;
      modify_state (set_root r') ;;;
      gets (fun w => findNode h (root w))
  end.

Definition getEntryOrCompute {S} (k : K) (compute : S -> V * S) : M (World S) Node :=
  getNodeOrCompute k compute.

Definition getOrCompute {S} (k : K) (compute : S -> V * S) : M (World S) V :=
  n <- getNodeOrCompute k compute ;;
  match n with
  | undefined => throw        (* reading [value] of no object *)
  | node f _ _ => ret (value f)
  end.

(** [set]: the thunk assigns the local [computed]. *)
Definition set {S} (k : K) (v : V) (replace : bool) : M (World S) Node :=
  '(n, computed) <- with_local false
      (getNodeOrCompute k (fun u : bool * S => (v, (true, snd u)))) ;;
  if negb computed && replace then
    match n with
    | undefined => throw
    | node f _ _ =>
        (* node.key = key; node.value = value *)
        modify_state (fun w =>
          set_root (modify (nid f) (fun g => set_value (set_key g k) v) (root w)) w) ;;;
        gets (fun w => findNode (nid f) (root w))
    end
  else ret n.

(** ** Deletion *)

(** A condition of the caller sees the node and threads the caller's state. *)
Definition Condition (S : Type) : Type := Node -> S -> bool * S.

(** Modelled from the spec: [returns] of [../functional/functions] is not
    among the sources; [returns(true)] is the default condition, which
    accepts every entry. *)
Definition returnsTrue {S} : Condition S := fun _ u => (true, u).

Definition orDefault {S} (condition : option (Condition S)) : Condition S :=
  match condition with Some c => c | None => returnsTrue end.

(** [_deleteSmallestNode]: the replacement subtree and the node that the
    callback captured (after its [emancipate()]), [undefined] if none. *)
Fixpoint _deleteSmallestNode {S} (n : Node) (condition : Condition S)
  : M (World S) (Node * Node) :=
  match n with
  | undefined => ret (undefined, undefined)
  | node f l r =>
      match l with
      | node _ _ _ =>
          '(l', d) <- _deleteSmallestNode l condition ;;
          n' <- liftRes (balance (update (node f l' r))) ;;
          ret (n', d)
      | undefined =>
          b <- call (condition n) ;;
          if negb b then ret (n, undefined)
          else ret (r, emancipate n)
      end
  end.

Fixpoint _deleteLargestNode {S} (n : Node) (condition : Condition S)
  : M (World S) (Node * Node) :=
  match n with
  | undefined => ret (undefined, undefined)
  | node f l r =>
      match r with
      | node _ _ _ =>
          '(r', d) <- _deleteLargestNode r condition ;;
          n' <- liftRes (balance (update (node f l r'))) ;;
          ret (n', d)
      | undefined =>
          b <- call (condition n) ;;
          if negb b then ret (n, undefined)
          else ret (l, emancipate n)
      end
  end.

(** The successor of a node with two children: detached from the right
    subtree (and emancipated there), then given both children and updated. *)
Definition spliceSuccessor {S} (l r : Node) : M (World S) Node :=
  '(r', successor) <- _deleteSmallestNode r returnsTrue ;;
  match successor with
  | undefined => throw
  | node fs _ _ => ret (update (node fs l r'))
  end.

(** [successor?.balance()] *)
Definition balanceIfDefined {S} (successor : Node) : M (World S) Node :=
  match successor with
  | undefined => ret undefined
  | node _ _ _ => liftRes (balance successor)
  end.

Fixpoint _deleteNode {S} (n : Node) (k : K) (condition : Condition S)
  : M (World S) (Node * Node) :=
  match n with
  | undefined => ret (undefined, undefined)
  | node f l r =>
      cmp <- gets comparator ;;
      let c := cmp k (key f) in
      if cmpLT c then
        '(l', d) <- _deleteNode l k condition ;;
        n' <- liftRes (balance (update (node f l' r))) ;;
        ret (n', d)
      else if cmpGT c then
        '(r', d) <- _deleteNode r k condition ;;
        n' <- liftRes (balance (update (node f l r'))) ;;
        ret (n', d)
      else
        b <- call (condition n) ;;
        if negb b then ret (n, undefined)
        else
          successor <-
            match l, r with
            | node _ _ _, node _ _ _ => spliceSuccessor l r
            | undefined, node _ _ _ => ret r
            | node _ _ _, undefined => ret l
            | undefined, undefined => ret undefined
            end ;;
          s' <- balanceIfDefined successor ;;
          ret (s', emancipate n)
  end.

Definition deleteNode {S} (k : K) (condition : option (Condition S)) : M (World S) Node :=
  r <- gets root ;;
  '(r', d) <- _deleteNode r k (orDefault condition) ;;
  modify_state (set_root r') ;;;
  ret d.

Definition deleteLargestNode {S} (condition : option (Condition S)) : M (World S) Node :=
  r <- gets root ;;
  '(r', d) <- _deleteLargestNode r (orDefault condition) ;;
  modify_state (set_root r') ;;;
  ret d.

Definition deleteSmallestNode {S} (condition : option (Condition S)) : M (World S) Node :=
  r <- gets root ;;
  '(r', d) <- _deleteSmallestNode r (orDefault condition) ;;
  modify_state (set_root r') ;;;
  ret d.

Definition delete {S} (k : K) (condition : option (Condition S)) : M (World S) Node :=
  deleteNode k condition.
Definition deleteLargest {S} (condition : option (Condition S)) : M (World S) Node :=
  deleteLargestNode condition.
Definition deleteSmallest {S} (condition : option (Condition S)) : M (World S) Node :=
  deleteSmallestNode condition.

(** ** Entry handles *)

(** The object an entry handle refers to: the node of that identity in the
    tree when it is reachable from the root, the detached object otherwise. *)
Definition derefIn (tree entry : Node) : Node :=
  match entry with
  | undefined => undefined
  | node f _ _ =>
      match findNode (nid f) tree with
      | undefined => entry
      | found => found
      end
  end.

Definition deref {S} (entry : Node) : M (World S) Node :=
  gets (fun w => derefIn (root w) entry).

Definition ownedBy (this : nat) (n : Node) : bool :=
  match n with
  | node f _ _ =>
      match sortedMap f with
      | Some m => Nat.eqb m this
      | None => false
      end
  | undefined => false
  end.

(** A write to the fields of the object behind a handle: in the tree if it
    is there, and on the object handed back to the caller. *)
Definition writeEntry {S} (entry : Node) (g : Fields -> Fields) : M (World S) Node :=
  match entry with
  | undefined => throw
  | node f l r =>
      modify_state (fun w => set_root (modify (nid f) g (root w)) w) ;;;
      ret (node (g f) l r)
  end.

(** [reKey] and [reValue]: the boolean and the object after the call. *)
Definition reKey {S} (entry : Node) (newKey : K) : M (World S) (bool * Node) :=
  n <- deref entry ;;
  this <- gets mapId ;;
  cmp <- gets comparator ;;
  match n with
  | undefined => throw       (* reading [sortedMap] of no object *)
  | node f _ _ =>
      if negb (ownedBy this n) then ret (false, n)
      else if cmpNQ (cmp newKey (key f)) then ret (false, n)
      else n' <- writeEntry n (fun g => set_key g newKey) ;; ret (true, n')
  end.

Definition reValue {S} (entry : Node) (newValue : V) : M (World S) (bool * Node) :=
  n <- deref entry ;;
  this <- gets mapId ;;
  match n with
  | undefined => throw
  | node f _ _ =>
      if negb (ownedBy this n) then ret (false, n)
      else n' <- writeEntry n (fun g => set_value g newValue) ;; ret (true, n')
  end.

(** ** Ranges *)

Inductive BoundType : Type := inclusive | exclusive.

(** A [min] or [max] argument of [getRange].  The code tells the four
    cases apart by [=== undefined], [instanceof Function] and
    [Array.isArray]; a bare key is a key that is none of these. *)
Inductive Bound : Type :=
| NoBound                                         (* undefined *)
| KeyBound (k : K)                                (* a bare key *)
| PairBound (k : K) (type : option BoundType)     (* [key, type?] *)
| FnBound (p : K -> bool).                        (* a function *)

Definition isExclusive (type : option BoundType) : bool :=
  match type with Some exclusive => true | _ => false end.

Definition tooSmallAt (cmp : Comparator K) (min : Bound) (k : K) : bool :=
  match min with
  | NoBound => false
  | FnBound p => negb (p k)
  | PairBound m type => (if isExclusive type then cmpLE else cmpLT) (cmp k m)
  | KeyBound m => cmpLT (cmp k m)
  end.

Definition tooBigAt (cmp : Comparator K) (max : Bound) (k : K) : bool :=
  match max with
  | NoBound => false
  | FnBound p => negb (p k)
  | PairBound m type => (if isExclusive type then cmpGE else cmpGT) (cmp k m)
  | KeyBound m => cmpGT (cmp k m)
  end.

(** The generator [recur] of [getRange], as the list of yielded nodes. *)
Fixpoint recur (cmp : Comparator K) (min max : Bound) (rev : bool) (n : Node)
  : list Node :=
  match n with
  | undefined => []
  | node f l r =>
      let tooSmall := tooSmallAt cmp min (key f) in
      let tooBig := tooBigAt cmp max (key f) in
      if rev then
        (if negb tooBig then recur cmp min max rev r else [])
        ++ (if negb tooBig && negb tooSmall then [n] else [])
        ++ (if negb tooSmall then recur cmp min max rev l else [])
      else
        (if negb tooSmall then recur cmp min max rev l else [])
        ++ (if negb tooBig && negb tooSmall then [n] else [])
        ++ (if negb tooBig then recur cmp min max rev r else [])
  end.

Definition getRange {S} (min max : Bound) (rev : bool) : M (World S) (list Node) :=
  gets (fun w => recur (comparator w) min max rev (root w)).

(** ** clear, reverse, keys, values, entries *)

(** The objects that [_emancipateAllNodes] detaches, in its post-order. *)
Fixpoint _emancipateAllNodes (n : Node) : list Node :=
  match n with
  | undefined => []
  | node _ l r => _emancipateAllNodes l ++ _emancipateAllNodes r ++ [emancipate n]
  end.

(** [clear]: the emancipated objects are no longer part of the map; they
    are handed back for the holders of their handles. *)
Definition clear {S} : M (World S) (list Node) :=
  r <- gets root ;;
  modify_state (set_root undefined) ;;;
  ret (_emancipateAllNodes r).

Fixpoint _invert (n : Node) : Node :=
  match n with
  | undefined => undefined
  | node f l r =>
      (* left and right are swapped, then updateBalanceFactor() *)
      node (set_balanceFactor f (calcBalanceFactor r l)) (_invert r) (_invert l)
  end.

(** The tree with every cached balance factor recomputed from the cached
    depths of the children. *)
Fixpoint refreshBalanceFactors (n : Node) : Node :=
  match n with
  | undefined => undefined
  | node f l r =>
      node (set_balanceFactor f (calcBalanceFactor l r))
           (refreshBalanceFactors l) (refreshBalanceFactors r)
  end.

Definition invert {S} : M (World S) unit :=
  modify_state (fun w => set_root (_invert (root w)) w).

Definition reverse {S} : M (World S) unit :=
  invert ;;;
  modify_state (fun w => set_comparator (reverseComparator (comparator w)) w).

Definition keys {S} : M (World S) (list K) :=
  es <- iterator ;; ret (keysOf es).

Fixpoint valuesOf (ns : list Node) : list V :=
  match ns with
  | [] => []
  | undefined :: ns' => valuesOf ns'
  | node f _ _ :: ns' => value f :: valuesOf ns'
  end.

Definition values {S} : M (World S) (list V) :=
  es <- iterator ;; ret (valuesOf es).

Fixpoint entriesOf (ns : list Node) : list (K * V) :=
  match ns with
  | [] => []
  | undefined :: ns' => entriesOf ns'
  | node f _ _ :: ns' => (key f, value f) :: entriesOf ns'
  end.

Definition entries {S} : M (World S) (list (K * V)) :=
  es <- iterator ;; ret (entriesOf es).

(** ** The map as a sequence of mutations *)

(** A call of a public mutating method with its arguments.  An entry
    handle is a node object, never [undefined]: it is given by the fields
    and the links the caller last saw ([deref] reads the current ones). *)
Inductive Mutation (S : Type) : Type :=
| CallSet (k : K) (v : V) (replace : bool)
| CallGetOrCompute (k : K) (compute : S -> V * S)
| CallDelete (k : K) (condition : option (Condition S))
| CallDeleteSmallest (condition : option (Condition S))
| CallDeleteLargest (condition : option (Condition S))
| CallReKey (f : Fields) (l r : Node) (newKey : K)
| CallReValue (f : Fields) (l r : Node) (newValue : V)
| CallReverse
| CallClear.
Arguments CallSet {S}.
Arguments CallReKey {S}.
Arguments CallReValue {S}.
Arguments CallReverse {S}.
Arguments CallClear {S}.

Definition runMutation {S} (c : Mutation S) : M (World S) unit :=
  match c with
  | CallSet k v replace => _ <- set k v replace ;; ret tt
  | CallGetOrCompute k compute => _ <- getOrCompute k compute ;; ret tt
  | CallDelete k condition => _ <- delete k condition ;; ret tt
  | CallDeleteSmallest condition => _ <- deleteSmallest condition ;; ret tt
  | CallDeleteLargest condition => _ <- deleteLargest condition ;; ret tt
  | CallReKey f l r newKey => _ <- reKey (node f l r) newKey ;; ret tt
  | CallReValue f l r newValue => _ <- reValue (node f l r) newValue ;; ret tt
  | CallReverse => reverse
  | CallClear => _ <- clear ;; ret tt
  end.

Fixpoint runAll {S} (cs : list (Mutation S)) : M (World S) unit :=
  match cs with
  | [] => ret tt
  | c :: cs' => runMutation c ;;; runAll cs'
  end.

(** The states a map can be in: those that a sequence of public mutations
    produces from a new map with a lawful comparator. *)
Definition Reachable {S} (w : World S) : Prop :=
  exists (order : Comparator K) (this ref0 : nat) (u : S) (cs : list (Mutation S)),
    Lawful order /\ runAll cs (newSortedMap order this ref0 u) = Ok (tt, w).

(** ** Observations and invariants *)

(** The keys and the object identities of a subtree, in order. *)
Fixpoint keysIn (n : Node) : list K :=
  match n with
  | undefined => []
  | node f l r => keysIn l ++ key f :: keysIn r
  end.

Fixpoint idsIn (n : Node) : list nat :=
  match n with
  | undefined => []
  | node f l r => idsIn l ++ nid f :: idsIn r
  end.

(** What the map holds, cached numbers and shape aside: identity, key and
    value of each node, in order. *)
Fixpoint contents (n : Node) : list (nat * K * V) :=
  match n with
  | undefined => []
  | node f l r => contents l ++ (nid f, key f, value f) :: contents r
  end.

Fixpoint ownersIn (n : Node) : list (option nat) :=
  match n with
  | undefined => []
  | node f l r => ownersIn l ++ sortedMap f :: ownersIn r
  end.

(** BST order: the keys of the left subtree compare less than the key of
    the node, those of the right subtree compare greater. *)
Fixpoint bst (cmp : Comparator K) (n : Node) : Prop :=
  match n with
  | undefined => True
  | node f l r =>
      Forall (fun x => cmp x (key f) = Lt) (keysIn l)
      /\ Forall (fun x => cmp x (key f) = Gt) (keysIn r)
      /\ bst cmp l /\ bst cmp r
  end.

(** The actual height of a subtree, and the balance condition on actual
    heights. *)
Fixpoint height (n : Node) : Z :=
  match n with
  | undefined => 0
  | node _ l r => Z.max (height l) (height r) + 1
  end.

(** Every node has its cached [balanceFactor] in {-1, 0, 1}. *)
Fixpoint balanced (n : Node) : Prop :=
  match n with
  | undefined => True
  | node f l r => -1 <= balanceFactor f <= 1 /\ balanced l /\ balanced r
  end.

Fixpoint balancedb (n : Node) : bool :=
  match n with
  | undefined => true
  | node f l r =>
      (-1 <=? balanceFactor f) && (balanceFactor f <=? 1) && balancedb l && balancedb r
  end.

(** What keeps the rotations of [balance] from reading a missing child:
    cached depths are positive and a cached balance factor beyond 1 (below
    -1) comes with a right (left) child. *)
Fixpoint safe (n : Node) : Prop :=
  match n with
  | undefined => True
  | node f l r =>
      1 <= depth f
      /\ (1 < balanceFactor f -> r <> undefined)
      /\ (balanceFactor f < -1 -> l <> undefined)
      /\ safe l /\ safe r
  end.

(** Two trees with the same nodes in the same places: same links, same
    identities, back links and cached numbers; keys and values may differ. *)
Fixpoint sameShape (n n' : Node) : Prop :=
  match n, n' with
  | undefined, undefined => True
  | node f l r, node f' l' r' =>
      nid f' = nid f /\ sortedMap f' = sortedMap f /\ depth f' = depth f
      /\ nodeCount f' = nodeCount f /\ balanceFactor f' = balanceFactor f
      /\ sameShape l l' /\ sameShape r r'
  | _, _ => False
  end.

Definition ownedOrFree (this : nat) (n : Node) : Prop :=
  Forall (fun o => o = None \/ o = Some this) (ownersIn n).

(** The invariant of a map between two calls. *)
Record Inv {S} (w : World S) : Prop := {
  inv_lawful : Lawful (comparator w);
  inv_bst : bst (comparator w) (root w);
  inv_safe : safe (root w);
  inv_nodup : NoDup (idsIn (root w));
  inv_fresh : Forall (fun i => (i < nextRef w)%nat) (idsIn (root w));
  inv_owner : ownedOrFree (mapId w) (root w)
}.

(** Whether a key satisfies a bound of [getRange]: absent, a bare key
    (inclusive), a pair with its type (inclusive when the type is left out),
    or a predicate on keys. *)
Definition satisfiesMin (cmp : Comparator K) (min : Bound) (k : K) : bool :=
  match min with
  | NoBound => true
  | KeyBound m => match cmp k m with Lt => false | _ => true end
  | PairBound m (Some exclusive) => match cmp k m with Gt => true | _ => false end
  | PairBound m _ => match cmp k m with Lt => false | _ => true end
  | FnBound p => p k
  end.

Definition satisfiesMax (cmp : Comparator K) (max : Bound) (k : K) : bool :=
  match max with
  | NoBound => true
  | KeyBound m => match cmp k m with Gt => false | _ => true end
  | PairBound m (Some exclusive) => match cmp k m with Lt => true | _ => false end
  | PairBound m _ => match cmp k m with Gt => false | _ => true end
  | FnBound p => p k
  end.

Definition inRange (cmp : Comparator K) (min max : Bound) (n : Node) : bool :=
  match n with
  | undefined => false
  | node f _ _ => satisfiesMin cmp min (key f) && satisfiesMax cmp max (key f)
  end.

(** A predicate used as a minimum does not reject a key above one it
    accepts; one used as a maximum does not reject a key below one it
    accepts.  Bounds of the other kinds are monotone by themselves. *)
Definition monotoneMin (cmp : Comparator K) (min : Bound) : Prop :=
  match min with
  | FnBound p => forall a b, cmp a b = Lt -> p a = true -> p b = true
  | _ => True
  end.

Definition monotoneMax (cmp : Comparator K) (max : Bound) : Prop :=
  match max with
  | FnBound p => forall a b, cmp a b = Lt -> p b = true -> p a = true
  | _ => True
  end.

End SortedMap.

Arguments undefined {K V}.
Arguments NoBound {K}.
Arguments newSortedMap {K V S} order this ref0 u.

Arguments CallSet {K V S} k v replace.
Arguments CallReKey {K V S} f l r newKey.
Arguments CallReValue {K V S} f l r newValue.
Arguments CallReverse {K V S}.
Arguments CallClear {K V S}.

(** * Concrete maps *)

(** Maps from integers to optional integers ([None] is [undefined]) under
    the natural order, for the scenarios of the specification. *)
Module Scenario.

Definition W (S : Type) : Type := World Z (option Z) S.

(** A new map: object 0, whose first node will be object 1. *)
Definition emptyMap {S} (u : S) : W S := newSortedMap Z.compare 0%nat 1%nat u.

Definition setKey {S} (k : Z) : Mutation Z (option Z) S := CallSet k (Some (10 * k)) true.

Definition run {S} (cs : list (Mutation Z (option Z) S)) (u : S) : Res (unit * W S) :=
  runAll cs (emptyMap u).

Definition stateOf {S} (u : S) (r : Res (unit * W S)) : W S :=
  match r with Ok (_, w) => w | Throw => emptyMap u end.

(** After [set(3); set(1); set(2)]. *)
Definition after312 {S} (u : S) : W S := stateOf u (run [setKey 3; setKey 1; setKey 2] u).

(** After the insertions [5,3,8,1,4,7,9] of the specification's scenario 1. *)
Definition sevenKeys {S} (u : S) : W S :=
  stateOf u (run (map setKey [5; 3; 8; 1; 4; 7; 9]) u).

(** A condition that refuses and counts its calls. *)
Definition refuse : Condition Z (option Z) nat := fun _ calls => (false, Datatypes.S calls).

(** A thunk that counts its calls. *)
Definition thunk77 : nat -> option Z * nat := fun calls => (Some 77, Datatypes.S calls).

Definition notFive : Z -> bool := fun k => negb (k =? 5).

(** Another map, object 7, and the handle of the root node of [after312]
    (object 2, key 1) as its holder sees it. *)
Definition otherMap : W unit := newSortedMap Z.compare 7%nat 8%nat tt.

Definition handleFields : Fields Z (option Z) :=
  mkFields 2%nat 1 (Some 10) (Some 0%nat) 4 4 3.

Definition handleRight : Node Z (option Z) := right (root (after312 tt)).

Definition rootOf {S A} (r : Res (A * W S)) : Node Z (option Z) :=
  match r with Ok (_, w) => root w | Throw => undefined end.

Definition rootKey (n : Node Z (option Z)) : option Z := keyOf n.

Definition rootBalanceFactor (n : Node Z (option Z)) : option Z :=
  match n with undefined => None | node f _ _ => Some (balanceFactor f) end.

(** The fields of a node of the scenarios. *)
Definition fieldsOf (n : Node Z (option Z)) : Fields Z (option Z) :=
  match n with
  | node f _ _ => f
  | undefined => mkFields 0%nat 0 None None 0 0 0
  end.

(** The root of [sevenKeys]: key 5, with the subtrees of 3 and of 8. *)
Definition five : Node Z (option Z) := root (sevenKeys tt).

End Scenario.

(** * Specifications of the operations *)

Unset Implicit Arguments.

Section Specifications.

Context {K V : Type}.
Implicit Types (n l r : Node K V) (f : Fields K V).

Definition itemOf f : nat * K * V := (nid f, key f, value f).

(** The observations that rotations and updates leave alone. *)
Definition sameItems n n' : Prop :=
  contents n' = contents n /\ ownersIn n' = ownersIn n.

(** What [_getNodeOrCompute] does to the items of a subtree: an item whose
    key compares equal is found and nothing is computed or stored, or no key
    compares equal and one item with a fresh identity is put in. *)
Definition found_post {S} (cmp : Comparator K) (k : K) (n n' : Node K V) (h : nat)
  (w w' : World K V S) : Prop :=
  (exists k0 v0, In (h, k0, v0) (contents n) /\ cmp k k0 = Eq)
  /\ contents n' = contents n
  /\ nextRef w' = nextRef w /\ user w' = user w.

Definition inserted_post {S} (cmp : Comparator K) (k : K) (compute : S -> V * S)
  (n n' : Node K V) (h : nat) (w w' : World K V S) : Prop :=
  Forall (fun x => cmp k x <> Eq) (keysIn n)
  /\ h = nextRef w /\ nextRef w' = Datatypes.S (nextRef w)
  /\ user w' = snd (compute (user w))
  /\ exists c1 c2, contents n = c1 ++ c2
       /\ contents n' = c1 ++ (h, k, fst (compute (user w))) :: c2.

(** A write [g] that keeps the identity, the back link and the cached
    numbers of the object. *)
Definition fieldWrite (g : Fields K V -> Fields K V) : Prop :=
  forall f, nid (g f) = nid f /\ sortedMap (g f) = sortedMap f
            /\ depth (g f) = depth f /\ balanceFactor (g f) = balanceFactor f.

(** The items of [n'] are those of [n] with a segment taken out. *)
Definition subcontents n n' : Prop :=
  exists c1 rem c2, contents n = c1 ++ rem ++ c2 /\ contents n' = c1 ++ c2.

(** The condition ran once, on [target]; the entry went away exactly when
    it said yes, and then the handle is the emancipated [target]. *)
Definition gate_post {S} (condition : Condition K V S) (target : Node K V)
  (removed : Fields K V -> list (nat * K * V) -> Prop)
  (n n' d : Node K V) (w w' : World K V S) : Prop :=
  match target with
  | undefined => d = undefined /\ contents n' = contents n /\ user w' = user w
  | node fm _ _ =>
      user w' = snd (condition target (user w))
      /\ (if fst (condition target (user w))
          then d = emancipate target /\ removed fm (contents n')
          else d = undefined /\ contents n' = contents n)
  end.

(** The item of object [h] after a write of its key and value. *)
Definition writeItem (h : nat) (gk : K -> K) (gv : V -> V) (it : nat * K * V)
  : nat * K * V :=
  if Nat.eqb (fst (fst it)) h then (fst (fst it), gk (snd (fst it)), gv (snd it)) else it.

(** Every cached balance factor is the difference of the cached depths of
    the children. *)
Fixpoint consistentBalanceFactors (n : Node K V) : Prop :=
  match n with
  | undefined => True
  | node f l r =>
      balanceFactor f = calcBalanceFactor l r
      /\ consistentBalanceFactors l /\ consistentBalanceFactors r
  end.

(** Identity, key, value and back link of each node, in order. *)
Fixpoint ownedItems (n : Node K V) : list (nat * K * V * option nat) :=
  match n with
  | undefined => []
  | node f l r => ownedItems l ++ (nid f, key f, value f, sortedMap f) :: ownedItems r
  end.

(** Every cached [nodeCount] is at least one more than the cached counts
    of the children. *)
Fixpoint counted (n : Node K V) : Prop :=
  match n with
  | undefined => True
  | node f l r =>
      nodeCountOr0 l + nodeCountOr0 r + 1 <= nodeCount f /\ counted l /\ counted r
  end.

End Specifications.

(** * Properties *)

(** ** Lawful comparators *)

Section Comparators.

Context {K : Type} {cmp : Comparator K} (L : Lawful cmp).

Lemma cmp_refl : forall a, cmp a a = Eq.
Proof.
  intros a. pose proof (cmp_antisym L a a) as H.
  destruct (cmp a a); simpl in H; congruence.
Qed.

Lemma cmp_gt_lt : forall a b, cmp a b = Gt <-> cmp b a = Lt.
Proof.
  intros a b. rewrite (cmp_antisym L a b).
  destruct (cmp b a); simpl; split; congruence.
Qed.

Lemma cmp_eq_sym : forall a b, cmp a b = Eq -> cmp b a = Eq.
Proof.
  intros a b H. rewrite (cmp_antisym L b a), H. reflexivity.
Qed.

Lemma cmp_eq_r : forall a b c, cmp a b = Eq -> cmp c a = cmp c b.
Proof.
  intros a b c H.
  rewrite (cmp_antisym L c a), (cmp_antisym L c b), (cmp_eq_l L a b c H).
  reflexivity.
Qed.

Lemma cmp_trans_gt : forall a b c, cmp a b = Gt -> cmp b c = Gt -> cmp a c = Gt.
Proof.
  intros a b c H1 H2. apply cmp_gt_lt. apply cmp_gt_lt in H1, H2.
  eapply cmp_trans; eauto.
Qed.

Lemma reverseComparator_lawful : Lawful (reverseComparator cmp).
Proof.
  unfold reverseComparator. constructor.
  - intros a b. rewrite (cmp_antisym L a b). reflexivity.
  - intros a b c H1 H2.
    assert (cmp a b = Gt) by (destruct (cmp a b); simpl in H1; congruence).
    assert (cmp b c = Gt) by (destruct (cmp b c); simpl in H2; congruence).
    rewrite (cmp_trans_gt a b c H H0); auto.
  - intros a b c H.
    assert (cmp a b = Eq) by (destruct (cmp a b); simpl in H; congruence).
    rewrite (cmp_eq_l L a b c); auto.
Qed.

End Comparators.

Lemma Zcompare_lawful : Lawful Z.compare.
Proof.
  constructor.
  - intros a b. apply Z.compare_antisym.
  - intros a b c H1 H2. rewrite Z.compare_lt_iff in *. lia.
  - intros a b c H. apply Z.compare_eq in H. subst. reflexivity.
Qed.

(** ** Nodes: update, rotations and balance *)

Section NodeProperties.

Context {K V : Type}.
Implicit Types (n l r : Node K V) (f : Fields K V).

Lemma keysIn_contents : forall n, keysIn n = map (fun e => snd (fst e)) (contents n).
Proof.
  induction n as [|f l IHl r IHr]; simpl; auto.
  rewrite map_app. simpl. congruence.
Qed.

Lemma idsIn_contents : forall n, idsIn n = map (fun e => fst (fst e)) (contents n).
Proof.
  induction n as [|f l IHl r IHr]; simpl; auto.
  rewrite map_app. simpl. congruence.
Qed.

Lemma depthOr0_nonneg : forall n, safe n -> 0 <= depthOr0 n.
Proof. destruct n; simpl; intros; lia. Qed.

Lemma depthOr0_defined : forall n, safe n -> 0 < depthOr0 n -> n <> undefined.
Proof. destruct n; simpl; intros; [lia | discriminate]. Qed.

Lemma safe_update : forall f l r, safe l -> safe r -> safe (update (node f l r)).
Proof.
  intros f l r Hl Hr. simpl. unfold calcDepth, calcBalanceFactor.
  pose proof (depthOr0_nonneg l Hl). pose proof (depthOr0_nonneg r Hr).
  repeat split; auto; try lia.
  - intros. apply depthOr0_defined; auto. lia.
  - intros. apply depthOr0_defined; auto. lia.
Qed.

Lemma sameItems_keys : forall n n', sameItems n n' -> keysIn n' = keysIn n.
Proof. intros n n' [H _]. rewrite !keysIn_contents. congruence. Qed.

Lemma sameItems_ids : forall n n', sameItems n n' -> idsIn n' = idsIn n.
Proof. intros n n' [H _]. rewrite !idsIn_contents. congruence. Qed.

Lemma rotateLeft_spec : forall cmp f l r,
  Lawful cmp -> safe (node f l r) -> r <> undefined -> 1 <= depth f ->
  exists n', rotateLeft (node f l r) = Ok n' /\ n' <> undefined /\ safe n'
    /\ sameItems (node f l r) n' /\ (bst cmp (node f l r) -> bst cmp n').
Proof.
  intros cmp f l r L Hs Hr Hd.
  destruct r as [|fr rl rr]; [congruence|].
  simpl in Hs. destruct Hs as (_ & _ & _ & Hl & (Hdr & _ & _ & Hrl & Hrr)).
  eexists. split; [reflexivity|]. split; [discriminate|].
  pose proof (depthOr0_nonneg l Hl). pose proof (depthOr0_nonneg rl Hrl).
  pose proof (depthOr0_nonneg rr Hrr).
  split; [|split].
  - simpl. unfold calcDepth, calcBalanceFactor. simpl.
    repeat split; auto; try lia; try discriminate.
    + intros. apply depthOr0_defined; auto. lia.
    + intros. apply depthOr0_defined; auto. lia.
    + intros. apply depthOr0_defined; auto. lia.
  - unfold sameItems. simpl. rewrite <- !app_assoc. simpl. auto.
  - simpl. intros (Fl & Fr & Bl & (Frl & Frr & Brl & Brr)).
    apply Forall_app in Fr. destruct Fr as (Fr1 & Fr2).
    inversion Fr2 as [|? ? Hfr Fr3]; subst.
    assert (Hlt : cmp (key f) (key fr) = Lt) by (apply (cmp_gt_lt L); auto).
    repeat split; auto.
    apply Forall_app; split.
    + eapply Forall_impl; [|exact Fl]. simpl. intros a Ha.
      eapply (cmp_trans L); eauto.
    + constructor; auto.
Qed.

Lemma rotateRight_spec : forall cmp f l r,
  Lawful cmp -> safe (node f l r) -> l <> undefined -> 1 <= depth f ->
  exists n', rotateRight (node f l r) = Ok n' /\ n' <> undefined /\ safe n'
    /\ sameItems (node f l r) n' /\ (bst cmp (node f l r) -> bst cmp n').
Proof.
  intros cmp f l r L Hs Hl0 Hd.
  destruct l as [|fl ll lr]; [congruence|].
  simpl in Hs. destruct Hs as (_ & _ & _ & (Hdl & _ & _ & Hll & Hlr) & Hr).
  eexists. split; [reflexivity|]. split; [discriminate|].
  pose proof (depthOr0_nonneg r Hr). pose proof (depthOr0_nonneg ll Hll).
  pose proof (depthOr0_nonneg lr Hlr).
  split; [|split].
  - simpl. unfold calcDepth, calcBalanceFactor. simpl.
    repeat split; auto; try lia; try discriminate.
    + intros. apply depthOr0_defined; auto. lia.
    + intros. apply depthOr0_defined; auto. lia.
    + intros. apply depthOr0_defined; auto. lia.
  - unfold sameItems. simpl. rewrite <- !app_assoc. simpl. auto.
  - simpl. intros (Fl & Fr & (Fll & Flr & Bll & Blr) & Br).
    apply Forall_app in Fl. destruct Fl as (Fl1 & Fl2).
    inversion Fl2 as [|? ? Hfl Fl3]; subst.
    assert (Hgt : cmp (key f) (key fl) = Gt) by (apply (cmp_gt_lt L); auto).
    repeat split; auto.
    apply Forall_app; split; auto.
    constructor; auto.
    eapply Forall_impl; [|exact Fr]. simpl. intros a Ha.
    eapply (cmp_trans_gt L); eauto.
Qed.

Lemma balance_spec : forall cmp n,
  Lawful cmp -> safe n -> n <> undefined ->
  exists n', balance n = Ok n' /\ n' <> undefined /\ safe n'
    /\ sameItems n n' /\ (bst cmp n -> bst cmp n').
Proof.
  intros cmp n L Hs Hn. destruct n as [|f l r]; [congruence|].
  unfold balance.
  pose proof Hs as Hs'. simpl in Hs'. destruct Hs' as (Hd & Hbr & Hbl & _ & _).
  destruct (balanceFactor f <? -1) eqn:E1.
  - apply Z.ltb_lt in E1. apply rotateRight_spec; auto.
  - destruct (balanceFactor f >? 1) eqn:E2.
    + apply Z.gtb_lt in E2. apply rotateLeft_spec; auto.
    + exists (node f l r). split; [reflexivity|].
      split; [discriminate|]. split; [exact Hs|]. split; [split; reflexivity|auto].
Qed.

Lemma sameItems_update : forall f l r, sameItems (node f l r) (update (node f l r)).
Proof. intros. split; reflexivity. Qed.

Lemma bst_update : forall cmp f l r, bst cmp (node f l r) -> bst cmp (update (node f l r)).
Proof. intros cmp f l r H. exact H. Qed.

(** [node.update(); return node.balance()] on a node whose children are safe. *)
Lemma rebalance_spec : forall cmp f l r,
  Lawful cmp -> safe l -> safe r ->
  exists n', balance (update (node f l r)) = Ok n' /\ n' <> undefined /\ safe n'
    /\ sameItems (node f l r) n' /\ (bst cmp (node f l r) -> bst cmp n').
Proof.
  intros cmp f l r L Hl Hr.
  destruct (balance_spec cmp (update (node f l r)) L) as (n' & E & Hn & Hs & Hi & Hb).
  - apply safe_update; auto.
  - discriminate.
  - exists n'. repeat split; auto; apply Hi.
Qed.

End NodeProperties.

(** ** Insertion *)

Section Insertion.

Context {K V : Type}.
Implicit Types (n l r : Node K V) (f : Fields K V).

Ltac run := unfold bind, gets, ret, call, alloc, liftRes, modify_state; simpl.

#[local] Arguments balance : simpl never.
#[local] Arguments update : simpl never.

Lemma post_keys : forall S cmp k compute n n' h (w w' : World K V S) (P : K -> Prop),
  found_post cmp k n n' h w w' \/ inserted_post cmp k compute n n' h w w' ->
  P k -> Forall P (keysIn n) -> Forall P (keysIn n').
Proof.
  intros S cmp k compute n n' h w w' P [Hf | Hi] Pk HP.
  - destruct Hf as (_ & E & _). rewrite keysIn_contents in *. rewrite E. auto.
  - destruct Hi as (_ & _ & _ & _ & c1 & c2 & E1 & E2).
    rewrite keysIn_contents in *. rewrite E1 in HP. rewrite E2.
    rewrite map_app in *. simpl. apply Forall_app in HP. destruct HP.
    apply Forall_app; split; auto.
Qed.

Lemma _getNodeOrCompute_spec : forall S n k (compute : S -> V * S) (w : World K V S),
  Lawful (comparator w) -> bst (comparator w) n -> safe n ->
  exists n' h w',
    _getNodeOrCompute n k compute w = Ok ((n', h), w')
    /\ root w' = root w /\ comparator w' = comparator w /\ mapId w' = mapId w
    /\ n' <> undefined /\ safe n' /\ bst (comparator w) n'
    /\ incl (ownersIn n') (None :: Some (mapId w) :: ownersIn n)
    /\ (found_post (comparator w) k n n' h w w'
        \/ inserted_post (comparator w) k compute n n' h w w').
Proof.
  intros S n k compute. induction n as [|f l IHl r IHr]; intros w L B Hs.
  - simpl. run. destruct (compute (user w)) as [v u] eqn:E. simpl.
    eexists _, _, _. split; [reflexivity|]. simpl.
    repeat split; auto; try discriminate; try lia.
    + intros o Ho. simpl in Ho. destruct Ho as [<- | []]. simpl. auto.
    + right. unfold inserted_post. simpl. rewrite E. simpl.
      repeat split; auto. exists [], []. auto.
  - simpl in B. destruct B as (Fl & Fr & Bl & Br).
    pose proof Hs as Hs0.
    simpl in Hs. destruct Hs as (Hd & _ & _ & Hsl & Hsr).
    simpl. unfold bind at 1. unfold gets at 1.
    destruct (cmpLT (comparator w k (key f))) eqn:E1;
      [|destruct (cmpGT (comparator w k (key f))) eqn:E2].
    + assert (Ek : comparator w k (key f) = Lt)
        by (destruct (comparator w k (key f)); simpl in E1; congruence).
      destruct (IHl w L Bl Hsl) as (l' & h & w' & E & R1 & R2 & R3 & Hn & Hs' & Hb & Ho & Hp).
      unfold bind at 1. rewrite E.
      assert (Fl' : Forall (fun x => comparator w x (key f) = Lt) (keysIn l'))
        by (eapply post_keys; eauto).
      destruct (rebalance_spec _ f l' r L Hs' Hsr) as (n' & En & Hn' & Hsn & Hi & Hbn).
      cbv beta iota. unfold bind, liftRes, ret. rewrite En.
      exists n', h, w'. split; [reflexivity|].
      repeat split; auto.
      * apply Hbn. simpl. auto.
      * destruct Hi as (_ & Eo). rewrite Eo. simpl.
        intros o Ho'. apply in_app_or in Ho'. destruct Ho' as [Ho' | Ho'].
        -- apply Ho in Ho'. simpl in Ho'. simpl.
           destruct Ho' as [? | [? | ?]]; auto. right. right. apply in_or_app. auto.
        -- simpl. right. right. apply in_or_app. auto.
      * destruct Hi as (Ec & _).
        destruct Hp as [Hf | Hins]; [left | right].
        -- destruct Hf as ((k0 & v0 & Hin & Hk) & Ec' & Hrest).
           split; [|split; auto].
           ++ exists k0, v0. split; auto. simpl. apply in_or_app. auto.
           ++ rewrite Ec. simpl. rewrite Ec'. reflexivity.
        -- destruct Hins as (Hno & Hh & Hnx & Hu & c1 & c2 & Ec1 & Ec2).
           split; [|repeat split; auto].
           ++ simpl. apply Forall_app. split; auto. constructor.
              ** congruence.
              ** eapply Forall_impl; [|exact Fr]. simpl. intros a Ha.
                 apply (cmp_gt_lt L) in Ha.
                 rewrite (cmp_trans L _ _ _ Ek Ha). discriminate.
           ++ exists c1, (c2 ++ (nid f, key f, value f) :: contents r).
              rewrite Ec. simpl. rewrite Ec1, Ec2. rewrite <- !app_assoc. simpl. auto.
    + assert (Ek : comparator w k (key f) = Gt)
        by (destruct (comparator w k (key f)); simpl in E2; congruence).
      destruct (IHr w L Br Hsr) as (r' & h & w' & E & R1 & R2 & R3 & Hn & Hs' & Hb & Ho & Hp).
      unfold bind at 1. rewrite E.
      assert (Fr' : Forall (fun x => comparator w x (key f) = Gt) (keysIn r')).
      { eapply post_keys; eauto. }
      destruct (rebalance_spec _ f l r' L Hsl Hs') as (n' & En & Hn' & Hsn & Hi & Hbn).
      cbv beta iota. unfold bind, liftRes, ret. rewrite En.
      exists n', h, w'. split; [reflexivity|].
      repeat split; auto.
      * apply Hbn. simpl. auto.
      * destruct Hi as (_ & Eo). rewrite Eo. simpl.
        intros o Ho'. apply in_app_or in Ho'. destruct Ho' as [Ho' | Ho'].
        -- simpl. right. right. apply in_or_app. auto.
        -- simpl in Ho'. destruct Ho' as [<- | Ho'].
           ++ simpl. right. right. apply in_or_app. simpl. auto.
           ++ apply Ho in Ho'. simpl in Ho'. simpl.
              destruct Ho' as [? | [? | ?]]; auto. right. right.
              apply in_or_app. simpl. auto.
      * destruct Hi as (Ec & _).
        destruct Hp as [Hf | Hins]; [left | right].
        -- destruct Hf as ((k0 & v0 & Hin & Hk) & Ec' & Hrest).
           split; [|split; auto].
           ++ exists k0, v0. split; auto. simpl. apply in_or_app. simpl. auto.
           ++ rewrite Ec. simpl. rewrite Ec'. reflexivity.
        -- destruct Hins as (Hno & Hh & Hnx & Hu & c1 & c2 & Ec1 & Ec2).
           split; [|repeat split; auto].
           ++ simpl. apply Forall_app. split.
              ** eapply Forall_impl; [|exact Fl]. simpl. intros a Ha.
                 apply (cmp_gt_lt L) in Ek.
                 pose proof (cmp_trans L _ _ _ Ha Ek) as Hak.
                 apply (cmp_gt_lt L) in Hak. congruence.
              ** constructor; auto. congruence.
           ++ exists (contents l ++ (nid f, key f, value f) :: c1), c2.
              rewrite Ec. simpl. rewrite Ec1, Ec2. rewrite <- !app_assoc. simpl. auto.
    + assert (Ek : comparator w k (key f) = Eq)
        by (destruct (comparator w k (key f)); simpl in E1, E2; congruence).
      run. exists (node f l r), (nid f), w. split; [reflexivity|].
      do 3 (split; [reflexivity|]). split; [discriminate|].
      split; [exact Hs0|]. split; [simpl; auto|]. split.
      * intros o Ho. simpl. auto.
      * left. repeat split; auto. exists (key f), (value f). split; auto.
        simpl. apply in_or_app. simpl. auto.
Qed.

End Insertion.

(** ** References, writes through a handle, lookup *)

Section Handles.

Context {K V : Type}.
Implicit Types (n l r : Node K V) (f : Fields K V).

Lemma findNode_item : forall h n f l r,
  findNode h n = node f l r ->
  nid f = h /\ In (itemOf f) (contents n) /\ In (sortedMap f) (ownersIn n).
Proof.
  intros h. induction n as [|f0 l0 IHl r0 IHr]; simpl; intros f l r E; [discriminate|].
  destruct (Nat.eqb (nid f0) h) eqn:Eh.
  - inversion E; subst. apply Nat.eqb_eq in Eh.
    repeat split; auto; apply in_or_app; simpl; auto.
  - destruct (findNode h l0) as [|fx lx rx] eqn:El.
    + destruct (IHr _ _ _ E) as (? & ? & ?).
      repeat split; auto; apply in_or_app; simpl; auto.
    + inversion E; subst. destruct (IHl _ _ _ eq_refl) as (? & ? & ?).
      repeat split; auto; apply in_or_app; simpl; auto.
Qed.

Lemma findNode_defined : forall h n, In h (idsIn n) -> findNode h n <> undefined.
Proof.
  intros h. induction n as [|f l IHl r IHr]; simpl; intros Hin; [contradiction|].
  destruct (Nat.eqb (nid f) h) eqn:Eh; [discriminate|].
  apply in_app_or in Hin. destruct Hin as [Hin | [Hin | Hin]].
  - specialize (IHl Hin). destruct (findNode h l); [congruence | discriminate].
  - apply Nat.eqb_neq in Eh. congruence.
  - destruct (findNode h l); [auto | discriminate].
Qed.

Lemma findNode_fresh : forall h n, ~ In h (idsIn n) -> findNode h n = undefined.
Proof.
  intros h n Hn. destruct (findNode h n) as [|f l r] eqn:E; auto.
  apply findNode_item in E. destruct E as (E1 & E2 & _).
  exfalso. apply Hn. rewrite idsIn_contents.
  apply in_map_iff. exists (itemOf f). split; auto.
Qed.

Lemma item_unique : forall (c : list (nat * K * V)) i k1 v1 k2 v2,
  NoDup (map (fun e => fst (fst e)) c) ->
  In (i, k1, v1) c -> In (i, k2, v2) c -> k1 = k2 /\ v1 = v2.
Proof.
  induction c as [|[[i0 k0] v0] c IH]; simpl; intros i k1 v1 k2 v2 Hnd H1 H2; [contradiction|].
  inversion Hnd as [|? ? Hni Hnd']; subst.
  destruct H1 as [H1 | H1], H2 as [H2 | H2].
  - split; congruence.
  - inversion H1; subst. exfalso. apply Hni.
    apply in_map_iff. exists (i, k2, v2). auto.
  - inversion H2; subst. exfalso. apply Hni.
    apply in_map_iff. exists (i, k1, v1). auto.
  - eapply IH; eauto.
Qed.

Lemma in_contents_ids : forall i k v n, In (i, k, v) (contents n) -> In i (idsIn n).
Proof.
  intros. rewrite idsIn_contents. apply in_map_iff. exists (i, k, v). auto.
Qed.

Lemma in_contents_keys : forall i k v n, In (i, k, v) (contents n) -> In k (keysIn n).
Proof.
  intros. rewrite keysIn_contents. apply in_map_iff. exists (i, k, v). auto.
Qed.

Lemma fieldWrite_set_key : forall k : K, fieldWrite (fun g : Fields K V => set_key g k).
Proof. intros k f. simpl. auto. Qed.

Lemma fieldWrite_set_value : forall v : V, fieldWrite (fun g : Fields K V => set_value g v).
Proof. intros v f. simpl. auto. Qed.

Lemma fieldWrite_set_both : forall (k : K) (v : V),
  fieldWrite (fun g : Fields K V => set_value (set_key g k) v).
Proof. intros k v f. simpl. auto. Qed.

Lemma modify_undefined : forall h g n, modify h g n = undefined <-> n = undefined.
Proof. intros h g [|f l r]; simpl; split; congruence. Qed.

Lemma depthOr0_modify : forall h g n, fieldWrite g -> depthOr0 (modify h g n) = depthOr0 n.
Proof.
  intros h g [|f l r] Hg; simpl; auto.
  destruct (Nat.eqb (nid f) h); auto. apply Hg.
Qed.

Lemma idsIn_modify : forall h g n, fieldWrite g -> idsIn (modify h g n) = idsIn n.
Proof.
  intros h g n Hg. induction n as [|f l IHl r IHr]; simpl; auto.
  rewrite IHl, IHr. destruct (Nat.eqb (nid f) h); auto.
  destruct (Hg f) as (-> & _). reflexivity.
Qed.

Lemma ownersIn_modify : forall h g n, fieldWrite g -> ownersIn (modify h g n) = ownersIn n.
Proof.
  intros h g n Hg. induction n as [|f l IHl r IHr]; simpl; auto.
  rewrite IHl, IHr. destruct (Nat.eqb (nid f) h); auto.
  destruct (Hg f) as (_ & -> & _). reflexivity.
Qed.

Lemma safe_modify : forall h g n, fieldWrite g -> safe n -> safe (modify h g n).
Proof.
  intros h g n Hg. induction n as [|f l IHl r IHr]; simpl; auto.
  intros (Hd & Hr & Hl & Sl & Sr).
  assert (E : depth (if Nat.eqb (nid f) h then g f else f) = depth f
              /\ balanceFactor (if Nat.eqb (nid f) h then g f else f) = balanceFactor f).
  { destruct (Nat.eqb (nid f) h); auto. destruct (Hg f) as (_ & _ & -> & ->). auto. }
  destruct E as (-> & ->).
  split; [exact Hd|]. split; [|split; [|split; auto]].
  - intros Hb E. apply modify_undefined in E. apply Hr; auto.
  - intros Hb E. apply modify_undefined in E. apply Hl; auto.
Qed.

Lemma keysIn_modify : forall cmp h g n,
  Lawful cmp ->
  (forall f, nid f = h -> In (itemOf f) (contents n) -> cmp (key (g f)) (key f) = Eq) ->
  Forall2 (fun a b => cmp a b = Eq) (keysIn (modify h g n)) (keysIn n).
Proof.
  intros cmp h g n L. induction n as [|f l IHl r IHr]; simpl; intros Hg.
  - constructor.
  - apply Forall2_app.
    + apply IHl. intros f0 E Hin. apply Hg; auto. apply in_or_app. auto.
    + constructor.
      * destruct (Nat.eqb (nid f) h) eqn:Eh.
        -- apply Nat.eqb_eq in Eh. apply Hg; auto. apply in_or_app. simpl. auto.
        -- apply (cmp_refl L).
      * apply IHr. intros f0 E Hin. apply Hg; auto. apply in_or_app. simpl. auto.
Qed.

Lemma Forall_equiv : forall cmp (c : comparison) p p' (ks ks' : list K),
  Lawful cmp ->
  Forall2 (fun a b => cmp a b = Eq) ks' ks -> cmp p' p = Eq ->
  Forall (fun x => cmp x p = c) ks -> Forall (fun x => cmp x p' = c) ks'.
Proof.
  intros cmp c p p' ks ks' L H2 Hp. induction H2 as [|a b ks' ks Hab H2 IH]; intros HF.
  - constructor.
  - inversion HF; subst. constructor; auto.
    rewrite (cmp_eq_l L a b p' Hab). rewrite (cmp_eq_r L p' p b Hp). reflexivity.
Qed.

Lemma bst_modify : forall cmp h g n,
  Lawful cmp -> bst cmp n ->
  (forall f, nid f = h -> In (itemOf f) (contents n) -> cmp (key (g f)) (key f) = Eq) ->
  bst cmp (modify h g n).
Proof.
  intros cmp h g n L. induction n as [|f l IHl r IHr]; simpl; auto.
  intros (Fl & Fr & Bl & Br) Hg.
  assert (Hgl : forall f0, nid f0 = h -> In (itemOf f0) (contents l) ->
                cmp (key (g f0)) (key f0) = Eq)
    by (intros; apply Hg; auto; apply in_or_app; auto).
  assert (Hgr : forall f0, nid f0 = h -> In (itemOf f0) (contents r) ->
                cmp (key (g f0)) (key f0) = Eq)
    by (intros; apply Hg; auto; apply in_or_app; simpl; auto).
  assert (Hp : cmp (key (if Nat.eqb (nid f) h then g f else f)) (key f) = Eq).
  { destruct (Nat.eqb (nid f) h) eqn:Eh.
    - apply Nat.eqb_eq in Eh. apply Hg; auto. apply in_or_app. simpl. auto.
    - apply (cmp_refl L). }
  repeat split; auto.
  - eapply Forall_equiv; eauto. apply keysIn_modify; auto.
  - eapply Forall_equiv; eauto. apply keysIn_modify; auto.
Qed.

(** The node that a write changed, as [findNode] sees it afterwards. *)
Lemma findNode_modify : forall h g n f l r,
  fieldWrite g -> findNode h n = node f l r ->
  findNode h (modify h g n) = node (g f) (modify h g l) (modify h g r).
Proof.
  intros h g. induction n as [|f0 l0 IHl r0 IHr]; simpl; intros f l r Hg E; [discriminate|].
  destruct (Nat.eqb (nid f0) h) eqn:Eh.
  - inversion E; subst. destruct (Hg f) as (-> & _). rewrite Eh. reflexivity.
  - rewrite Eh. destruct (findNode h l0) as [|fx lx rx] eqn:El.
    + rewrite (findNode_fresh h (modify h g l0)).
      * apply IHr; auto.
      * rewrite idsIn_modify by auto. intros Hin.
        apply findNode_defined in Hin. congruence.
    + inversion E; subst. rewrite (IHl _ _ _ Hg eq_refl). reflexivity.
Qed.

(** Lookup: in a tree in BST order the loop of [getNode] ends on the item
    whose key compares equal. *)
Lemma getNode_from_found : forall cmp k n i k0 v0,
  Lawful cmp -> bst cmp n -> In (i, k0, v0) (contents n) -> cmp k k0 = Eq ->
  exists f l r, getNode_from cmp k n = node f l r /\ itemOf f = (i, k0, v0).
Proof.
  intros cmp k n i k0 v0 L. induction n as [|f l IHl r IHr]; simpl; [contradiction|].
  intros (Fl & Fr & Bl & Br) Hin Hk.
  apply in_app_or in Hin. destruct Hin as [Hin | [Hin | Hin]].
  - assert (E : cmp k (key f) = Lt).
    { rewrite (cmp_eq_l L k k0 (key f) Hk).
      rewrite Forall_forall in Fl. apply Fl. eapply in_contents_keys; eauto. }
    rewrite E. simpl. auto.
  - inversion Hin; subst. rewrite Hk. simpl. eauto.
  - assert (E : cmp k (key f) = Gt).
    { rewrite (cmp_eq_l L k k0 (key f) Hk).
      rewrite Forall_forall in Fr. apply Fr. eapply in_contents_keys; eauto. }
    rewrite E. simpl. auto.
Qed.

Lemma getNode_from_item : forall cmp k n f l r,
  getNode_from cmp k n = node f l r ->
  cmp k (key f) = Eq /\ In (itemOf f) (contents n).
Proof.
  intros cmp k. induction n as [|f0 l0 IHl r0 IHr]; simpl; intros f l r E; [discriminate|].
  destruct (cmp k (key f0)) eqn:Ec; simpl in E.
  - inversion E; subst. split; auto. apply in_or_app. simpl. auto.
  - destruct (IHl _ _ _ E). split; auto. apply in_or_app. auto.
  - destruct (IHr _ _ _ E). split; auto. apply in_or_app. simpl. auto.
Qed.

Lemma getNode_from_absent : forall cmp k n,
  Forall (fun x => cmp k x <> Eq) (keysIn n) -> getNode_from cmp k n = undefined.
Proof.
  intros cmp k n HF. destruct (getNode_from cmp k n) as [|f l r] eqn:E; auto.
  apply getNode_from_item in E. destruct E as (E1 & E2).
  rewrite Forall_forall in HF. exfalso. apply (HF (key f)); auto.
  eapply in_contents_keys. exact E2.
Qed.

End Handles.

(** ** The invariant under insertion *)

Section InsertionInv.

Context {K V : Type}.
Implicit Types (n l r : Node K V) (f : Fields K V).

Lemma Inv_set_user : forall S S' (u : S') (w : World K V S), Inv w -> Inv (set_user u w).
Proof. intros S S' u w [H1 H2 H3 H4 H5 H6]. constructor; simpl; auto. Qed.

Lemma Inv_new : forall S (order : Comparator K) this ref0 (u : S),
  Lawful order -> Inv (newSortedMap (V:=V) order this ref0 u).
Proof.
  intros. constructor; simpl; auto.
  - constructor.
  - constructor.
Qed.

Lemma NoDup_insert : forall (h : nat) (l1 l2 : list nat),
  NoDup (l1 ++ l2) -> ~ In h (l1 ++ l2) -> NoDup (l1 ++ h :: l2).
Proof.
  intros h l1 l2 Hnd Hni.
  apply (NoDup_Add (a:=h) (l:=l1 ++ l2)); [apply Add_app | auto].
Qed.

Lemma fresh_not_in : forall (b : nat) (l : list nat),
  Forall (fun i => (i < b)%nat) l -> ~ In b l.
Proof.
  intros b l HF Hin. rewrite Forall_forall in HF. apply HF in Hin. lia.
Qed.

(** The root after [_getNodeOrCompute] ran on it keeps the invariant. *)
Lemma Inv_after_insert : forall S k (compute : S -> V * S) (w w' : World K V S) n' h,
  Inv w ->
  root w' = root w -> comparator w' = comparator w -> mapId w' = mapId w ->
  safe n' -> bst (comparator w) n' ->
  incl (ownersIn n') (None :: Some (mapId w) :: ownersIn (root w)) ->
  found_post (comparator w) k (root w) n' h w w'
    \/ inserted_post (comparator w) k compute (root w) n' h w w' ->
  Inv (set_root n' w').
Proof.
  intros S k compute w w' n' h [L B Sf Nd Fr Ow] R1 R2 R3 Hs Hb Ho Hp.
  constructor; simpl; try rewrite R2; try rewrite R3; auto.
  - destruct Hp as [(_ & Ec & _) | (_ & Hh & _ & _ & c1 & c2 & E1 & E2)].
    + rewrite idsIn_contents, Ec, <- idsIn_contents. auto.
    + rewrite idsIn_contents in *. rewrite E2. rewrite E1 in Nd, Fr.
      rewrite map_app in *. simpl. apply NoDup_insert; auto.
      subst h. apply fresh_not_in; auto.
  - destruct Hp as [(_ & Ec & En & _) | (_ & Hh & En & _ & c1 & c2 & E1 & E2)].
    + rewrite idsIn_contents, Ec, <- idsIn_contents, En. auto.
    + rewrite idsIn_contents in *. rewrite E2. rewrite E1 in Fr.
      rewrite map_app in *. simpl. rewrite En.
      apply Forall_app in Fr. destruct Fr as (F1 & F2).
      apply Forall_app. split; [|constructor].
      * eapply Forall_impl; [|exact F1]. simpl. intros; lia.
      * simpl. lia.
      * eapply Forall_impl; [|exact F2]. simpl. intros; lia.
  - unfold ownedOrFree in *. rewrite Forall_forall in *.
    intros o Hin. apply Ho in Hin. simpl in Hin.
    destruct Hin as [<- | [<- | Hin]]; auto.
Qed.

(** [getNodeOrCompute]: it returns, the invariant holds afterwards, and the
    handle is the node of the tree whose key compares equal to [k]. *)
Lemma getNodeOrCompute_spec : forall S k (compute : S -> V * S) (w : World K V S),
  Inv w ->
  exists e w',
    getNodeOrCompute k compute w = Ok (e, w')
    /\ Inv w' /\ comparator w' = comparator w /\ mapId w' = mapId w
    /\ exists f l r, e = node f l r
        /\ findNode (nid f) (root w') = e
        /\ comparator w k (key f) = Eq
        /\ (found_post (comparator w) k (root w) (root w') (nid f) w w'
            \/ (inserted_post (comparator w) k compute (root w) (root w') (nid f) w w'
                /\ key f = k /\ value f = fst (compute (user w)))).
Proof.
  intros S k compute w I.
  destruct (_getNodeOrCompute_spec S (root w) k compute w (inv_lawful I) (inv_bst I) (inv_safe I))
    as (n' & h & w' & E & R1 & R2 & R3 & Hn & Hs & Hb & Ho & Hp).
  assert (Eg : getNodeOrCompute k compute w = Ok (findNode h n', set_root n' w')).
  { clear - E. revert E. unfold getNodeOrCompute.
    unfold bind, gets, call, alloc, ret, modify_state. cbv beta iota.
    destruct (root w) as [|f0 l0 r0]; intros E.
    - simpl in E. unfold bind, call, alloc, gets, ret in E.
      destruct (compute (user w)) as [v u]. simpl in *.
      inversion E; subst. simpl. rewrite Nat.eqb_refl. reflexivity.
    - rewrite E. reflexivity. }
  pose proof (Inv_after_insert S k compute w w' n' h I R1 R2 R3 Hs Hb Ho Hp) as I'.
  assert (Hin : exists k1 v1, In (h, k1, v1) (contents n') /\ comparator w k k1 = Eq
                /\ (found_post (comparator w) k (root w) n' h w w'
                    \/ (inserted_post (comparator w) k compute (root w) n' h w w'
                        /\ k1 = k /\ v1 = fst (compute (user w))))).
  { destruct Hp as [Hf | Hi].
    - pose proof Hf as ((k0 & v0 & Hin & Hk) & Ec & _).
      exists k0, v0. rewrite Ec. auto.
    - pose proof Hi as (_ & _ & _ & _ & c1 & c2 & E1 & E2).
      exists k, (fst (compute (user w))). rewrite E2.
      split; [apply in_or_app; simpl; auto|].
      split; [apply (cmp_refl (inv_lawful I))|]. right. auto. }
  destruct Hin as (k1 & v1 & Hin & Hk1 & Hcase).
  destruct (findNode h n') as [|f l r] eqn:Ef.
  - exfalso. eapply findNode_defined; [|exact Ef]. eapply in_contents_ids; eauto.
  - exists (node f l r), (set_root n' w'). split; [exact Eg|].
    split; [exact I'|]. split; [exact R2|]. split; [exact R3|].
    exists f, l, r. split; [reflexivity|].
    destruct (findNode_item h n' f l r Ef) as (Eh & Hitem & _).
    assert (Eit : key f = k1 /\ value f = v1).
    { eapply (item_unique (contents n') h); eauto.
      - rewrite <- idsIn_contents. exact (inv_nodup I').
      - unfold itemOf in Hitem. rewrite Eh in Hitem. exact Hitem. }
    destruct Eit as (Ek & Ev). simpl. rewrite Eh.
    split; [exact Ef|]. split; [congruence|].
    destruct Hcase as [Hf | (Hi & -> & ->)]; [left | right]; auto.
Qed.

End InsertionInv.

(** ** set *)

Section SetProperties.

Context {K V : Type}.
Implicit Types (n l r : Node K V) (f : Fields K V).

Lemma Inv_modify : forall S (w : World K V S) h g,
  Inv w -> fieldWrite g ->
  (forall f, nid f = h -> In (itemOf f) (contents (root w)) ->
             comparator w (key (g f)) (key f) = Eq) ->
  Inv (set_root (modify h g (root w)) w).
Proof.
  intros S w h g [L B Sf Nd Fr Ow] Hg Hk. constructor; simpl; auto.
  - apply bst_modify; auto.
  - apply safe_modify; auto.
  - rewrite idsIn_modify; auto.
  - rewrite idsIn_modify; auto.
  - unfold ownedOrFree. rewrite ownersIn_modify; auto.
Qed.

(** [set]: it returns an entry of the map whose key compares equal to [k];
    a new entry holds [k] and [v]; an existing one holds them when [replace]
    is on and keeps its key and value when it is off. *)
Lemma set_spec : forall S k v replace (w : World K V S),
  Inv w ->
  exists e w',
    set k v replace w = Ok (e, w')
    /\ Inv w' /\ comparator w' = comparator w /\ mapId w' = mapId w
    /\ user w' = user w
    /\ exists f l r, e = node f l r
        /\ findNode (nid f) (root w') = e
        /\ In (itemOf f) (contents (root w'))
        /\ comparator w k (key f) = Eq
        /\ (replace = true -> key f = k /\ value f = v)
        /\ (replace = false ->
            (exists k0 v0, In (nid f, k0, v0) (contents (root w)) /\ comparator w k k0 = Eq) ->
            contents (root w') = contents (root w)).
Proof.
  intros S k v replace w I.
  pose proof (Inv_set_user S (bool * S) (false, user w) w I) as I0.
  destruct (getNodeOrCompute_spec (bool * S) k
              (fun u : bool * S => (v, (true, snd u))) _ I0)
    as (e & w1 & E & I1 & R2 & R3 & f & l & r & Ee & Ef & Hk & Hcase).
  simpl in R2, R3, Hk.
  unfold set, bind, with_local. rewrite E. cbv beta iota.
  destruct Hcase as [Hf | (Hi & Ekey & Eval)].
  - destruct Hf as (Hex & Ec & En & Eu). simpl in Eu, Ec, Hex. rewrite Eu. simpl.
    destruct replace; simpl.
    + subst e. unfold modify_state, gets. simpl.
      set (g := fun g0 : Fields K V => set_value (set_key g0 k) v).
      assert (Hg : fieldWrite g) by apply fieldWrite_set_both.
      rewrite (findNode_modify (nid f) g (root w1) f l r Hg Ef).
      assert (I2 : Inv (set_root (modify (nid f) g (root w1)) (set_user (user w) w1))).
      { apply (Inv_modify S (set_user (user w) w1) (nid f) g); auto.
        - apply Inv_set_user; auto.
        - simpl. intros f0 E0 Hin0.
          destruct (findNode_item _ _ _ _ _ Ef) as (_ & Hin & _).
          assert (key f0 = key f /\ value f0 = value f).
          { eapply (item_unique (contents (root w1)) (nid f)).
            - rewrite <- idsIn_contents. exact (inv_nodup I1).
            - unfold itemOf in Hin0. rewrite E0 in Hin0. exact Hin0.
            - exact Hin. }
          destruct H as (-> & _). rewrite R2. exact Hk. }
      eexists _, _. split; [reflexivity|]. split; [exact I2|].
      simpl. split; [exact R2|]. split; [exact R3|]. split; [reflexivity|].
      eexists _, _, _. split; [reflexivity|]. simpl.
      split; [apply (findNode_modify (nid f) g (root w1) f l r Hg Ef)|].
      split.
      { pose proof (findNode_modify (nid f) g (root w1) f l r Hg Ef) as Ef'.
        apply findNode_item in Ef'. apply Ef'. }
      split; [apply (cmp_refl (inv_lawful I))|].
      split; [auto | discriminate].
    + exists e, (set_user (user w) w1). split; [reflexivity|].
      split; [apply Inv_set_user; auto|]. simpl.
      split; [exact R2|]. split; [exact R3|]. split; [reflexivity|].
      exists f, l, r. split; [exact Ee|]. split; [exact Ef|].
      split; [subst e; apply (findNode_item _ _ _ _ _ Ef)|].
      split; [exact Hk|]. split; [discriminate|]. intros _ _. exact Ec.
  - destruct Hi as (Hno & Hh & Hnx & Hu & c1 & c2 & E1 & E2).
    simpl in Hu. rewrite Hu. simpl.
    exists e, (set_user (user w) w1). split; [reflexivity|].
    split; [apply Inv_set_user; auto|]. simpl.
    split; [exact R2|]. split; [exact R3|]. split; [reflexivity|].
    exists f, l, r. split; [exact Ee|]. split; [exact Ef|].
    split; [subst e; apply (findNode_item _ _ _ _ _ Ef)|].
    split; [exact Hk|]. split; [auto|].
    intros _ (k0 & v0 & Hin & Hk0). exfalso. simpl in Hno.
    rewrite Forall_forall in Hno. apply (Hno k0); auto.
    eapply in_contents_keys; eauto.
Qed.

End SetProperties.

(** ** Deletion *)

Section Deletion.

Context {K V : Type}.
Implicit Types (n l r : Node K V) (f : Fields K V).

#[local] Arguments balance : simpl never.
#[local] Arguments update : simpl never.

Lemma subcontents_same : forall n n', contents n' = contents n -> subcontents n n'.
Proof. intros n n' E. exists (contents n), [], []. rewrite E, !app_nil_r. auto. Qed.

Lemma subcontents_keys : forall n n' (P : K -> Prop),
  subcontents n n' -> Forall P (keysIn n) -> Forall P (keysIn n').
Proof.
  intros n n' P (c1 & rem & c2 & E1 & E2). rewrite !keysIn_contents, E1, E2, !map_app.
  intros H. apply Forall_app in H. destruct H as (H1 & H2).
  apply Forall_app in H2. destruct H2 as (_ & H2). apply Forall_app. auto.
Qed.

Lemma subcontents_ids_fresh : forall n n' (b : nat),
  subcontents n n' ->
  Forall (fun i => (i < b)%nat) (idsIn n) -> Forall (fun i => (i < b)%nat) (idsIn n').
Proof.
  intros n n' b (c1 & rem & c2 & E1 & E2). rewrite !idsIn_contents, E1, E2, !map_app.
  intros H. apply Forall_app in H. destruct H as (H1 & H2).
  apply Forall_app in H2. destruct H2 as (_ & H2). apply Forall_app. auto.
Qed.

Lemma NoDup_app_drop : forall (A : Type) (l1 l2 l3 : list A),
  NoDup (l1 ++ l2 ++ l3) -> NoDup (l1 ++ l3).
Proof.
  intros A l1 l2. revert l1. induction l2 as [|a l2 IH]; intros l1 l3 H; simpl in H; auto.
  apply NoDup_remove_1 in H. auto.
Qed.

Lemma subcontents_nodup : forall n n',
  subcontents n n' -> NoDup (idsIn n) -> NoDup (idsIn n').
Proof.
  intros n n' (c1 & rem & c2 & E1 & E2). rewrite !idsIn_contents, E1, E2, !map_app.
  apply NoDup_app_drop.
Qed.

Lemma subcontents_left : forall f l l' r n',
  subcontents l l' -> contents n' = contents (node f l' r) -> subcontents (node f l r) n'.
Proof.
  intros f l l' r n' (c1 & rem & c2 & E1 & E2) E.
  exists c1, rem, (c2 ++ itemOf f :: contents r). rewrite E. simpl.
  rewrite E1, E2, <- !app_assoc. auto.
Qed.

Lemma subcontents_right : forall f l r r' n',
  subcontents r r' -> contents n' = contents (node f l r') -> subcontents (node f l r) n'.
Proof.
  intros f l r r' n' (c1 & rem & c2 & E1 & E2) E.
  exists (contents l ++ itemOf f :: c1), rem, c2. rewrite E. simpl.
  rewrite E1, E2, <- !app_assoc. auto.
Qed.

Lemma incl_owners_left : forall (X : list (option nat)) f l l' r n',
  incl (ownersIn l') (X ++ ownersIn l) -> ownersIn n' = ownersIn (node f l' r) ->
  incl (ownersIn n') (X ++ ownersIn (node f l r)).
Proof.
  intros X f l l' r n' H E o. rewrite E. simpl. intros Hin.
  apply in_or_app. apply in_app_or in Hin. destruct Hin as [Hin | Hin].
  - apply H in Hin. apply in_app_or in Hin. destruct Hin; auto.
    right. apply in_or_app. auto.
  - right. apply in_or_app. auto.
Qed.

Lemma incl_owners_right : forall (X : list (option nat)) f l r r' n',
  incl (ownersIn r') (X ++ ownersIn r) -> ownersIn n' = ownersIn (node f l r') ->
  incl (ownersIn n') (X ++ ownersIn (node f l r)).
Proof.
  intros X f l r r' n' H E o. rewrite E. simpl. intros Hin.
  apply in_or_app. apply in_app_or in Hin. destruct Hin as [Hin | [Hin | Hin]].
  - right. apply in_or_app. auto.
  - right. apply in_or_app. simpl. auto.
  - apply H in Hin. apply in_app_or in Hin. destruct Hin; auto.
    right. apply in_or_app. simpl. auto.
Qed.

Lemma _deleteSmallestNode_spec : forall S n (condition : Condition K V S) (w : World K V S),
  Lawful (comparator w) -> bst (comparator w) n -> safe n ->
  exists n' d w',
    _deleteSmallestNode n condition w = Ok ((n', d), w')
    /\ root w' = root w /\ comparator w' = comparator w /\ mapId w' = mapId w
    /\ nextRef w' = nextRef w
    /\ safe n' /\ bst (comparator w) n'
    /\ incl (ownersIn n') ([] ++ ownersIn n)
    /\ subcontents n n'
    /\ gate_post condition (getSmallestNode_from n)
         (fun fm c' => contents n = itemOf fm :: c') n n' d w w'.
Proof.
  intros S n condition. induction n as [|f l IHl r IHr]; intros w L B Hs.
  - simpl. exists undefined, undefined, w. unfold ret.
    repeat split; auto. + intros o []. + apply subcontents_same; auto.
  - pose proof B as (Fl & Fr & Bl & Br). pose proof Hs as (Hd & _ & _ & Hsl & Hsr).
    destruct l as [|fl ll lr].
    + simpl. unfold bind, call. destruct (condition (node f undefined r) (user w)) as [b u] eqn:Ec.
      simpl. destruct b; simpl; unfold ret.
      * exists r, (emancipate (node f undefined r)), (set_user u w).
        split; [reflexivity|]. do 4 (split; [reflexivity|]).
        split; [exact Hsr|]. split; [exact Br|].
        split; [intros o Ho; simpl; auto|].
        split; [exists [], [itemOf f], (contents r); auto|].
        simpl. auto.
      * exists (node f undefined r), undefined, (set_user u w).
        split; [reflexivity|]. do 4 (split; [reflexivity|]).
        split; [exact Hs|]. split; [exact B|].
        split; [intros o Ho; exact Ho|].
        split; [apply subcontents_same; auto|].
        simpl. auto.
    + destruct (IHl w L Bl Hsl) as (l' & d & w' & E & R1 & R2 & R3 & R4 & Hs' & Hb' & Ho & Hsub & Hg).
      assert (Fl' : Forall (fun x => comparator w x (key f) = Lt) (keysIn l'))
        by (eapply subcontents_keys; eauto).
      destruct (rebalance_spec _ f l' r L Hs' Hsr) as (n' & En & Hn' & Hsn & (Ec & Eo) & Hbn).
      change (_deleteSmallestNode (node f (node fl ll lr) r) condition w)
        with (bind (_deleteSmallestNode (node fl ll lr) condition)
                (fun x => let '(l', d) := x in
                   bind (liftRes (balance (update (node f l' r)))) (fun n' => ret (n', d))) w).
      unfold bind at 1. rewrite E. cbv beta iota. unfold bind, liftRes, ret. rewrite En.
      exists n', d, w'. split; [reflexivity|].
      do 4 (split; [assumption|]). split; [exact Hsn|].
      split; [apply Hbn; simpl; auto|].
      split; [eapply incl_owners_left; eauto|].
      split; [eapply subcontents_left; eauto|].
      change (getSmallestNode_from (node f (node fl ll lr) r))
        with (getSmallestNode_from (node fl ll lr)).
      unfold gate_post in *.
      destruct (getSmallestNode_from (node fl ll lr)) as [|fm lm rm].
      * destruct Hg as (? & Ec' & ?). repeat split; auto.
        rewrite Ec. simpl. rewrite Ec'. reflexivity.
      * destruct Hg as (Hu & Hg). split; auto.
        destruct (fst (condition (node fm lm rm) (user w))).
        -- destruct Hg as (? & Ec'). split; auto.
           rewrite Ec. change (contents (node f (node fl ll lr) r))
             with (contents (node fl ll lr) ++ itemOf f :: contents r).
           rewrite Ec'. reflexivity.
        -- destruct Hg as (? & Ec'). split; auto.
           rewrite Ec. simpl. simpl in Ec'. rewrite Ec'. reflexivity.
Qed.

Lemma _deleteLargestNode_spec : forall S n (condition : Condition K V S) (w : World K V S),
  Lawful (comparator w) -> bst (comparator w) n -> safe n ->
  exists n' d w',
    _deleteLargestNode n condition w = Ok ((n', d), w')
    /\ root w' = root w /\ comparator w' = comparator w /\ mapId w' = mapId w
    /\ nextRef w' = nextRef w
    /\ safe n' /\ bst (comparator w) n'
    /\ incl (ownersIn n') ([] ++ ownersIn n)
    /\ subcontents n n'
    /\ gate_post condition (getLargestNode_from n)
         (fun fm c' => contents n = c' ++ [itemOf fm]) n n' d w w'.
Proof.
  intros S n condition. induction n as [|f l IHl r IHr]; intros w L B Hs.
  - simpl. exists undefined, undefined, w. unfold ret.
    repeat split; auto. + intros o []. + apply subcontents_same; auto.
  - pose proof B as (Fl & Fr & Bl & Br). pose proof Hs as (Hd & _ & _ & Hsl & Hsr).
    destruct r as [|fr rl rr].
    + simpl. unfold bind, call. destruct (condition (node f l undefined) (user w)) as [b u] eqn:Ec.
      simpl. destruct b; simpl; unfold ret.
      * exists l, (emancipate (node f l undefined)), (set_user u w).
        split; [reflexivity|]. do 4 (split; [reflexivity|]).
        split; [exact Hsl|]. split; [exact Bl|].
        split; [intros o Ho; simpl; apply in_or_app; auto|].
        split; [exists (contents l), [itemOf f], []; simpl; rewrite app_nil_r; auto|].
        simpl. auto.
      * exists (node f l undefined), undefined, (set_user u w).
        split; [reflexivity|]. do 4 (split; [reflexivity|]).
        split; [exact Hs|]. split; [exact B|].
        split; [intros o Ho; exact Ho|].
        split; [apply subcontents_same; auto|].
        simpl. auto.
    + destruct (IHr w L Br Hsr) as (r' & d & w' & E & R1 & R2 & R3 & R4 & Hs' & Hb' & Ho & Hsub & Hg).
      assert (Fr' : Forall (fun x => comparator w x (key f) = Gt) (keysIn r'))
        by (eapply subcontents_keys; eauto).
      destruct (rebalance_spec _ f l r' L Hsl Hs') as (n' & En & Hn' & Hsn & (Ec & Eo) & Hbn).
      change (_deleteLargestNode (node f l (node fr rl rr)) condition w)
        with (bind (_deleteLargestNode (node fr rl rr) condition)
                (fun x => let '(r', d) := x in
                   bind (liftRes (balance (update (node f l r')))) (fun n' => ret (n', d))) w).
      unfold bind at 1. rewrite E. cbv beta iota. unfold bind, liftRes, ret. rewrite En.
      exists n', d, w'. split; [reflexivity|].
      do 4 (split; [assumption|]). split; [exact Hsn|].
      split; [apply Hbn; simpl; auto|].
      split; [eapply incl_owners_right; eauto|].
      split; [eapply subcontents_right; eauto|].
      change (getLargestNode_from (node f l (node fr rl rr)))
        with (getLargestNode_from (node fr rl rr)).
      unfold gate_post in *.
      destruct (getLargestNode_from (node fr rl rr)) as [|fm lm rm].
      * destruct Hg as (? & Ec' & ?). repeat split; auto.
        rewrite Ec. simpl. rewrite Ec'. reflexivity.
      * destruct Hg as (Hu & Hg). split; auto.
        destruct (fst (condition (node fm lm rm) (user w))).
        -- destruct Hg as (? & Ec'). split; auto.
           rewrite Ec. change (contents (node f l (node fr rl rr)))
             with (contents l ++ itemOf f :: contents (node fr rl rr)).
           rewrite Ec'. change (contents (node f l r'))
             with (contents l ++ itemOf f :: contents r').
           rewrite <- app_assoc. reflexivity.
        -- destruct Hg as (? & Ec'). split; auto.
           rewrite Ec. simpl. simpl in Ec'. rewrite Ec'. reflexivity.
Qed.

(** In BST order the keys come out strictly ascending. *)
Lemma StronglySorted_app : forall (A : Type) (R : A -> A -> Prop) (l1 l2 : list A),
  StronglySorted R l1 -> StronglySorted R l2 ->
  (forall a b, In a l1 -> In b l2 -> R a b) ->
  StronglySorted R (l1 ++ l2).
Proof.
  intros A R l1 l2 H1 H2 H. induction H1 as [|a l1 H1 IH Ha]; simpl; auto.
  constructor.
  - apply IH. intros; apply H; simpl; auto.
  - apply Forall_app. split; auto.
    apply Forall_forall. intros b Hb. apply H; simpl; auto.
Qed.

Lemma bst_sorted : forall cmp n,
  Lawful cmp -> bst cmp n -> StronglySorted (fun a b => cmp a b = Lt) (keysIn n).
Proof.
  intros cmp n L. induction n as [|f l IHl r IHr]; simpl.
  - constructor.
  - intros (Fl & Fr & Bl & Br). rewrite Forall_forall in Fl, Fr.
    apply StronglySorted_app; auto.
    + constructor; auto. apply Forall_forall. intros x Hx.
      apply (cmp_gt_lt L). auto.
    + intros a b Ha [<- | Hb]; auto.
      apply (cmp_trans L a (key f) b); auto. apply (cmp_gt_lt L). auto.
Qed.

Lemma getSmallestNode_from_defined : forall f l r,
  getSmallestNode_from (node f l r) <> undefined.
Proof.
  intros f l. revert f. induction l as [|fl ll IHl lr _]; intros f r; simpl.
  - discriminate.
  - apply IHl.
Qed.

Lemma spliceSuccessor_spec : forall S (p : K) l r (w : World K V S),
  Lawful (comparator w) ->
  bst (comparator w) l -> safe l -> bst (comparator w) r -> safe r ->
  r <> undefined ->
  Forall (fun x => comparator w x p = Lt) (keysIn l) ->
  Forall (fun x => comparator w x p = Gt) (keysIn r) ->
  exists s w',
    spliceSuccessor l r w = Ok (s, w')
    /\ root w' = root w /\ comparator w' = comparator w /\ mapId w' = mapId w
    /\ nextRef w' = nextRef w /\ user w' = user w
    /\ s <> undefined /\ safe s /\ bst (comparator w) s
    /\ incl (ownersIn s) ([None] ++ ownersIn l ++ ownersIn r)
    /\ exists fm c', contents r = itemOf fm :: c'
         /\ contents s = contents l ++ itemOf fm :: c'.
Proof.
  intros S p l r w L Bl Sl Br Sr Hr Fl Fr.
  destruct (_deleteSmallestNode_spec S r returnsTrue w L Br Sr)
    as (r' & d & w' & E & R1 & R2 & R3 & R4 & Hs' & Hb' & Ho & Hsub & Hg).
  destruct r as [|fr rl rr]; [congruence|].
  pose proof (getSmallestNode_from_defined fr rl rr) as Hm.
  unfold gate_post in Hg.
  destruct (getSmallestNode_from (node fr rl rr)) as [|fm lm rm]; [congruence|].
  simpl in Hg. destruct Hg as (Hu & Hd & Hc).
  unfold spliceSuccessor, bind. rewrite E. cbv beta iota. rewrite Hd. simpl. unfold ret.
  exists (update (node (set_sortedMap fm None) l r')), w'.
  split; [reflexivity|]. do 5 (split; [assumption|]).
  split; [discriminate|]. split; [apply safe_update; auto|].
  assert (Hkeys : keysIn (node fr rl rr) = key fm :: keysIn r').
  { rewrite !keysIn_contents. simpl contents. rewrite Hc. reflexivity. }
  pose proof (bst_sorted _ _ L Br) as Hss. rewrite Hkeys in Hss.
  inversion Hss as [|? ? _ Hall]; subst.
  assert (Hpm : comparator w p (key fm) = Lt).
  { apply (cmp_gt_lt L). rewrite Forall_forall in Fr. apply Fr.
    rewrite Hkeys. simpl. auto. }
  split; [|split].
  - apply bst_update. simpl. repeat split; auto.
    + eapply Forall_impl; [|exact Fl]. simpl. intros a Ha.
      apply (cmp_trans L a p (key fm)); auto.
    + eapply Forall_impl; [|exact Hall]. simpl. intros a Ha.
      apply (cmp_gt_lt L). auto.
  - intros o Hin. simpl in Hin. apply in_app_or in Hin.
    destruct Hin as [Hin | [<- | Hin]].
    + simpl. right. apply in_or_app. auto.
    + simpl. auto.
    + simpl. right. apply in_or_app. right. apply Ho. exact Hin.
  - exists fm, (contents r'). split; auto.
Qed.

Lemma balanceIfDefined_spec : forall S s (w : World K V S),
  Lawful (comparator w) -> safe s ->
  exists s', balanceIfDefined s w = Ok (s', w)
    /\ safe s' /\ contents s' = contents s /\ ownersIn s' = ownersIn s
    /\ (bst (comparator w) s -> bst (comparator w) s').
Proof.
  intros S s w L Hs. destruct s as [|f l r].
  - exists undefined. simpl. unfold ret. repeat split; auto.
  - destruct (balance_spec (comparator w) (node f l r) L Hs) as (s' & E & _ & Hs' & (Ec & Eo) & Hb).
    + discriminate.
    + exists s'. simpl. unfold liftRes. rewrite E. repeat split; auto.
Qed.

#[local] Arguments spliceSuccessor : simpl never.
#[local] Arguments balanceIfDefined : simpl never.

Lemma _deleteNode_spec : forall S n k (condition : Condition K V S) (w : World K V S),
  Lawful (comparator w) -> bst (comparator w) n -> safe n ->
  exists n' d w',
    _deleteNode n k condition w = Ok ((n', d), w')
    /\ root w' = root w /\ comparator w' = comparator w /\ mapId w' = mapId w
    /\ nextRef w' = nextRef w
    /\ safe n' /\ bst (comparator w) n'
    /\ incl (ownersIn n') ([None] ++ ownersIn n)
    /\ subcontents n n'
    /\ gate_post condition (getNode_from (comparator w) k n)
         (fun fm c' => exists c1 c2, contents n = c1 ++ itemOf fm :: c2 /\ c' = c1 ++ c2)
         n n' d w w'.
Proof.
  intros S n k condition. induction n as [|f l IHl r IHr]; intros w L B Hs.
  - simpl. exists undefined, undefined, w. unfold ret.
    repeat split; auto. + intros o []. + apply subcontents_same; auto.
  - pose proof B as (Fl & Fr & Bl & Br). pose proof Hs as (Hd & _ & _ & Hsl & Hsr).
    simpl. unfold bind at 1. unfold gets at 1. cbv beta iota.
    destruct (cmpLT (comparator w k (key f))) eqn:E1;
      [|destruct (cmpGT (comparator w k (key f))) eqn:E2].
    + destruct (IHl w L Bl Hsl) as (l' & d & w' & E & R1 & R2 & R3 & R4 & Hs' & Hb' & Ho & Hsub & Hg).
      assert (Fl' : Forall (fun x => comparator w x (key f) = Lt) (keysIn l'))
        by (eapply subcontents_keys; eauto).
      destruct (rebalance_spec _ f l' r L Hs' Hsr) as (n' & En & Hn' & Hsn & (Ec & Eo) & Hbn).
      unfold bind at 1. rewrite E. cbv beta iota. unfold bind, liftRes, ret. rewrite En.
      exists n', d, w'. split; [reflexivity|].
      do 4 (split; [assumption|]). split; [exact Hsn|].
      split; [apply Hbn; simpl; auto|].
      split; [apply (incl_owners_left [None] f l l' r n'); auto|].
      split; [eapply subcontents_left; eauto|].
      unfold gate_post in *.
      destruct (getNode_from (comparator w) k l) as [|fm lm rm].
      * destruct Hg as (? & Ec' & ?). repeat split; auto.
        rewrite Ec. simpl. rewrite Ec'. reflexivity.
      * destruct Hg as (Hu & Hg). split; auto.
        destruct (fst (condition (node fm lm rm) (user w))).
        -- destruct Hg as (? & c1 & c2 & Ec1 & Ec2). split; auto.
           exists c1, (c2 ++ itemOf f :: contents r).
           rewrite Ec. simpl. rewrite Ec1, Ec2, <- !app_assoc. auto.
        -- destruct Hg as (? & Ec'). split; auto.
           rewrite Ec. simpl. rewrite Ec'. reflexivity.
    + destruct (IHr w L Br Hsr) as (r' & d & w' & E & R1 & R2 & R3 & R4 & Hs' & Hb' & Ho & Hsub & Hg).
      assert (Fr' : Forall (fun x => comparator w x (key f) = Gt) (keysIn r'))
        by (eapply subcontents_keys; eauto).
      destruct (rebalance_spec _ f l r' L Hsl Hs') as (n' & En & Hn' & Hsn & (Ec & Eo) & Hbn).
      unfold bind at 1. rewrite E. cbv beta iota. unfold bind, liftRes, ret. rewrite En.
      exists n', d, w'. split; [reflexivity|].
      do 4 (split; [assumption|]). split; [exact Hsn|].
      split; [apply Hbn; simpl; auto|].
      split; [apply (incl_owners_right [None] f l r r' n'); auto|].
      split; [eapply subcontents_right; eauto|].
      unfold gate_post in *.
      destruct (getNode_from (comparator w) k r) as [|fm lm rm].
      * destruct Hg as (? & Ec' & ?). repeat split; auto.
        rewrite Ec. simpl. rewrite Ec'. reflexivity.
      * destruct Hg as (Hu & Hg). split; auto.
        destruct (fst (condition (node fm lm rm) (user w))).
        -- destruct Hg as (? & c1 & c2 & Ec1 & Ec2). split; auto.
           exists (contents l ++ itemOf f :: c1), c2.
           rewrite Ec. simpl. rewrite Ec1, Ec2, <- !app_assoc. auto.
        -- destruct Hg as (? & Ec'). split; auto.
           rewrite Ec. simpl. rewrite Ec'. reflexivity.
    + unfold bind at 1. unfold call.
      destruct (condition (node f l r) (user w)) as [b u] eqn:Ec.
      cbv beta iota. simpl fst. simpl snd.
      destruct b; cbn [negb]; cbv beta iota.
      * (* the entry goes away *)
        set (w1 := set_user u w).
        assert (Hsucc : exists s w2,
                  (match l, r with
                   | node _ _ _, node _ _ _ => spliceSuccessor l r
                   | undefined, node _ _ _ => ret r
                   | node _ _ _, undefined => ret l
                   | undefined, undefined => ret undefined
                   end) w1 = Ok (s, w2)
                  /\ root w2 = root w /\ comparator w2 = comparator w
                  /\ mapId w2 = mapId w /\ nextRef w2 = nextRef w /\ user w2 = u
                  /\ safe s /\ bst (comparator w) s
                  /\ incl (ownersIn s) ([None] ++ ownersIn l ++ ownersIn r)
                  /\ contents s = contents l ++ contents r).
        { destruct l as [|fl ll lr], r as [|fr rl rr].
          - exists undefined, w1. unfold ret. repeat split; auto. intros o [].
          - exists (node fr rl rr), w1. unfold ret.
            split; [reflexivity|]. do 5 (split; [reflexivity|]).
            split; [exact Hsr|]. split; [exact Br|]. split; [|reflexivity].
            intros o Ho. simpl. right. exact Ho.
          - exists (node fl ll lr), w1. unfold ret.
            split; [reflexivity|]. do 5 (split; [reflexivity|]).
            split; [exact Hsl|]. split; [exact Bl|].
            split; [|simpl; rewrite app_nil_r; reflexivity].
            intros o Ho. simpl. right. rewrite app_nil_r. exact Ho.
          - destruct (spliceSuccessor_spec S (key f) (node fl ll lr) (node fr rl rr) w1)
              as (s & w2 & E & R1 & R2 & R3 & R4 & R5 & Hn & Hss & Hbs & Hos & fm & c' & Hc1 & Hc2);
              auto; try discriminate.
            exists s, w2. split; [exact E|]. do 5 (split; [assumption|]).
            split; [exact Hss|]. split; [exact Hbs|]. split; [exact Hos|].
            rewrite Hc2, Hc1. reflexivity. }
        destruct Hsucc as (s & w2 & E & R1 & R2 & R3 & R4 & R5 & Hss & Hbs & Hos & Hcs).
        assert (L2 : Lawful (comparator w2)) by (rewrite R2; exact L).
        destruct (balanceIfDefined_spec S s w2 L2 Hss) as (s' & Eb & Hs' & Ec' & Eo' & Hb').
        unfold bind at 1. fold w1. cbv beta iota. rewrite E. cbv beta iota.
        unfold bind at 1. rewrite Eb. cbv beta iota. unfold ret.
        exists s', (emancipate (node f l r)), w2. split; [reflexivity|].
        do 4 (split; [assumption|]). split; [exact Hs'|].
        split; [rewrite <- R2; apply Hb'; rewrite R2; exact Hbs|].
        split.
        { rewrite Eo'. intros o Ho. apply Hos in Ho. simpl in Ho. simpl.
          destruct Ho as [Ho | Ho]; auto. right.
          apply in_app_or in Ho. apply in_or_app. simpl. destruct Ho; auto. }
        split.
        { exists (contents l), [itemOf f], (contents r). simpl.
          rewrite Ec', Hcs. auto. }
        unfold gate_post. rewrite Ec. simpl.
        split; [exact R5|]. split; [reflexivity|].
        exists (contents l), (contents r). rewrite Ec', Hcs. auto.
      * exists (node f l r), undefined, (set_user u w). unfold ret.
        split; [reflexivity|]. do 4 (split; [reflexivity|]).
        split; [exact Hs|]. split; [exact B|].
        split; [intros o Ho; simpl; right; exact Ho|].
        split; [apply subcontents_same; auto|].
        unfold gate_post. rewrite Ec. simpl. auto.
Qed.

End Deletion.

(** ** The invariant under every public mutation *)

Section Preservation.

Context {K V : Type}.
Implicit Types (n l r : Node K V) (f : Fields K V).

Lemma Inv_after_delete : forall S (w w' : World K V S) (X : list (option nat)) n',
  Inv w ->
  root w' = root w -> comparator w' = comparator w -> mapId w' = mapId w ->
  nextRef w' = nextRef w ->
  safe n' -> bst (comparator w) n' ->
  incl X [None] ->
  incl (ownersIn n') (X ++ ownersIn (root w)) ->
  subcontents (root w) n' ->
  Inv (set_root n' w').
Proof.
  intros S w w' X n' [L B Sf Nd Fr Ow] R1 R2 R3 R4 Hs Hb HX Ho Hsub.
  constructor; simpl; try rewrite R2; try rewrite R3; try rewrite R4; auto.
  - eapply subcontents_nodup; eauto.
  - eapply subcontents_ids_fresh; eauto.
  - unfold ownedOrFree in *. rewrite Forall_forall in *.
    intros o Hin. apply Ho in Hin. apply in_app_or in Hin.
    destruct Hin as [Hin | Hin]; auto.
    apply HX in Hin. simpl in Hin. destruct Hin as [<- | []]. auto.
Qed.

Lemma deleteNode_spec : forall S k (condition : option (Condition K V S)) (w : World K V S),
  Inv w ->
  exists d w',
    deleteNode k condition w = Ok (d, w')
    /\ Inv w' /\ comparator w' = comparator w /\ mapId w' = mapId w
    /\ gate_post (orDefault condition) (getNode_from (comparator w) k (root w))
         (fun fm c' => exists c1 c2, contents (root w) = c1 ++ itemOf fm :: c2 /\ c' = c1 ++ c2)
         (root w) (root w') d w w'.
Proof.
  intros S k condition w I.
  destruct (_deleteNode_spec S (root w) k (orDefault condition) w
              (inv_lawful I) (inv_bst I) (inv_safe I))
    as (n' & d & w' & E & R1 & R2 & R3 & R4 & Hs & Hb & Ho & Hsub & Hg).
  exists d, (set_root n' w').
  split. { unfold deleteNode, bind, gets, modify_state, ret. rewrite E. reflexivity. }
  split. { eapply (Inv_after_delete S w w' [None]); eauto. apply incl_refl. }
  split; [exact R2|]. split; [exact R3|]. exact Hg.
Qed.

Lemma deleteSmallestNode_spec : forall S (condition : option (Condition K V S)) (w : World K V S),
  Inv w ->
  exists d w',
    deleteSmallestNode condition w = Ok (d, w')
    /\ Inv w' /\ comparator w' = comparator w /\ mapId w' = mapId w
    /\ gate_post (orDefault condition) (getSmallestNode_from (root w))
         (fun fm c' => contents (root w) = itemOf fm :: c')
         (root w) (root w') d w w'.
Proof.
  intros S condition w I.
  destruct (_deleteSmallestNode_spec S (root w) (orDefault condition) w
              (inv_lawful I) (inv_bst I) (inv_safe I))
    as (n' & d & w' & E & R1 & R2 & R3 & R4 & Hs & Hb & Ho & Hsub & Hg).
  exists d, (set_root n' w').
  split. { unfold deleteSmallestNode, bind, gets, modify_state, ret. rewrite E. reflexivity. }
  split. { eapply (Inv_after_delete S w w' []); eauto. intros o []. }
  split; [exact R2|]. split; [exact R3|]. exact Hg.
Qed.

Lemma deleteLargestNode_spec : forall S (condition : option (Condition K V S)) (w : World K V S),
  Inv w ->
  exists d w',
    deleteLargestNode condition w = Ok (d, w')
    /\ Inv w' /\ comparator w' = comparator w /\ mapId w' = mapId w
    /\ gate_post (orDefault condition) (getLargestNode_from (root w))
         (fun fm c' => contents (root w) = c' ++ [itemOf fm])
         (root w) (root w') d w w'.
Proof.
  intros S condition w I.
  destruct (_deleteLargestNode_spec S (root w) (orDefault condition) w
              (inv_lawful I) (inv_bst I) (inv_safe I))
    as (n' & d & w' & E & R1 & R2 & R3 & R4 & Hs & Hb & Ho & Hsub & Hg).
  exists d, (set_root n' w').
  split. { unfold deleteLargestNode, bind, gets, modify_state, ret. rewrite E. reflexivity. }
  split. { eapply (Inv_after_delete S w w' []); eauto. intros o []. }
  split; [exact R2|]. split; [exact R3|]. exact Hg.
Qed.

End Preservation.

(** ** Entry handles *)

Section HandleProperties.

Context {K V : Type}.
Implicit Types (n l r : Node K V) (f : Fields K V).

Lemma derefIn_defined : forall tree f0 l0 r0,
  exists f l r, derefIn tree (node f0 l0 r0) = node f l r /\ nid f = nid f0
    /\ (findNode (nid f0) tree = node f l r
        \/ (findNode (nid f0) tree = undefined /\ node f l r = node f0 l0 r0)).
Proof.
  intros tree f0 l0 r0. unfold derefIn.
  destruct (findNode (nid f0) tree) as [|f l r] eqn:E.
  - exists f0, l0, r0. auto.
  - exists f, l, r. apply findNode_item in E. destruct E as (E & _). auto.
Qed.

Lemma reKey_eq : forall S f0 l0 r0 newKey (w : World K V S) f l r,
  derefIn (root w) (node f0 l0 r0) = node f l r ->
  reKey (node f0 l0 r0) newKey w =
    if ownedBy (mapId w) (node f l r) && negb (cmpNQ (comparator w newKey (key f)))
    then Ok ((true, node (set_key f newKey) l r),
             set_root (modify (nid f) (fun g => set_key g newKey) (root w)) w)
    else Ok ((false, node f l r), w).
Proof.
  intros S f0 l0 r0 newKey w f l r E.
  unfold reKey, deref, bind, gets. rewrite E.
  destruct (ownedBy (mapId w) (node f l r)); simpl; [|reflexivity].
  destruct (cmpNQ (comparator w newKey (key f))); reflexivity.
Qed.

Lemma reValue_eq : forall S f0 l0 r0 newValue (w : World K V S) f l r,
  derefIn (root w) (node f0 l0 r0) = node f l r ->
  reValue (node f0 l0 r0) newValue w =
    if ownedBy (mapId w) (node f l r)
    then Ok ((true, node (set_value f newValue) l r),
             set_root (modify (nid f) (fun g => set_value g newValue) (root w)) w)
    else Ok ((false, node f l r), w).
Proof.
  intros S f0 l0 r0 newValue w f l r E.
  unfold reValue, deref, bind, gets. rewrite E.
  destruct (ownedBy (mapId w) (node f l r)); reflexivity.
Qed.

Lemma ownedBy_iff : forall this f l r,
  ownedBy this (node f l r) = true <-> sortedMap f = Some this.
Proof.
  intros this f l r. simpl. destruct (sortedMap f) as [m|].
  - rewrite Nat.eqb_eq. split; congruence.
  - split; discriminate.
Qed.

Lemma cmpNQ_iff : forall c, cmpNQ c = false <-> c = Eq.
Proof. destruct c; simpl; split; congruence. Qed.

Lemma sameShape_modify : forall h g n, fieldWrite g ->
  (forall f, nodeCount (g f) = nodeCount f) -> sameShape n (modify h g n).
Proof.
  intros h g n Hg Hc. induction n as [|f l IHl r IHr]; simpl; auto.
  destruct (Nat.eqb (nid f) h).
  - destruct (Hg f) as (-> & -> & -> & ->). rewrite Hc. repeat split; auto.
  - repeat split; auto.
Qed.

Lemma sameShape_refl : forall n, sameShape n n.
Proof. induction n; simpl; auto. repeat split; auto. Qed.

(** The keys a write to the object of a handle can reach are those of the
    node the handle derefs to. *)
Lemma deref_unique : forall S (w : World K V S) f0 l0 r0 f l r f1,
  Inv w -> derefIn (root w) (node f0 l0 r0) = node f l r ->
  nid f1 = nid f -> In (itemOf f1) (contents (root w)) -> key f1 = key f.
Proof.
  intros S w f0 l0 r0 f l r f1 I E E1 Hin.
  destruct (derefIn_defined (root w) f0 l0 r0) as (f' & l' & r' & E' & Hid & Hcase).
  rewrite E in E'. inversion E'; subst f' l' r'.
  destruct Hcase as [Hf | (Hf & _)].
  - apply findNode_item in Hf. destruct Hf as (_ & Hin' & _).
    eapply (item_unique (contents (root w)) (nid f)).
    + rewrite <- idsIn_contents. exact (inv_nodup I).
    + unfold itemOf in Hin. rewrite E1 in Hin. exact Hin.
    + exact Hin'.
  - exfalso. eapply findNode_defined; [|exact Hf].
    rewrite <- Hid, <- E1. eapply in_contents_ids. exact Hin.
Qed.

(** Every object that [clear] or a deletion detached has lost its back
    link. *)
Lemma emancipateAll_owner : forall n e,
  In e (_emancipateAllNodes n) ->
  exists f, e = node f undefined undefined /\ sortedMap f = None.
Proof.
  induction n as [|f l IHl r IHr]; simpl; intros e Hin; [contradiction|].
  apply in_app_or in Hin. destruct Hin as [Hin | Hin]; auto.
  apply in_app_or in Hin. destruct Hin as [Hin | [<- | []]]; auto.
  eexists. split; reflexivity.
Qed.

Lemma reKey_Inv : forall S f0 l0 r0 newKey (w : World K V S),
  Inv w ->
  exists b e w', reKey (node f0 l0 r0) newKey w = Ok ((b, e), w')
    /\ Inv w' /\ comparator w' = comparator w /\ mapId w' = mapId w.
Proof.
  intros S f0 l0 r0 newKey w I.
  destruct (derefIn_defined (root w) f0 l0 r0) as (f & l & r & E & _).
  rewrite (reKey_eq S f0 l0 r0 newKey w f l r E).
  destruct (ownedBy (mapId w) (node f l r) && negb (cmpNQ (comparator w newKey (key f)))) eqn:Eb.
  - apply andb_true_iff in Eb. destruct Eb as (_ & Eb).
    apply negb_true_iff, cmpNQ_iff in Eb.
    eexists _, _, _. split; [reflexivity|]. split; [|split; reflexivity].
    apply Inv_modify; auto.
    + apply fieldWrite_set_key.
    + simpl. intros f1 E1 Hin.
      rewrite (deref_unique S w f0 l0 r0 f l r f1 I E E1 Hin). exact Eb.
  - eexists _, _, _. split; [reflexivity|]. auto.
Qed.

Lemma reValue_Inv : forall S f0 l0 r0 newValue (w : World K V S),
  Inv w ->
  exists b e w', reValue (node f0 l0 r0) newValue w = Ok ((b, e), w')
    /\ Inv w' /\ comparator w' = comparator w /\ mapId w' = mapId w.
Proof.
  intros S f0 l0 r0 newValue w I.
  destruct (derefIn_defined (root w) f0 l0 r0) as (f & l & r & E & _).
  rewrite (reValue_eq S f0 l0 r0 newValue w f l r E).
  destruct (ownedBy (mapId w) (node f l r)) eqn:Eb.
  - eexists _, _, _. split; [reflexivity|]. split; [|split; reflexivity].
    apply Inv_modify; auto.
    + apply fieldWrite_set_value.
    + simpl. intros f1 _ _. apply (cmp_refl (inv_lawful I)).
  - eexists _, _, _. split; [reflexivity|]. auto.
Qed.

End HandleProperties.

(** ** reverse, clear and sequences of mutations *)

Section Sequences.

Context {K V : Type}.
Implicit Types (n l r : Node K V) (f : Fields K V).

Lemma contents_invert : forall n, contents (_invert n) = rev (contents n).
Proof.
  induction n as [|f l IHl r IHr]; simpl; auto.
  rewrite rev_app_distr. simpl. rewrite <- app_assoc. simpl. congruence.
Qed.

Lemma ownersIn_invert : forall n, ownersIn (_invert n) = rev (ownersIn n).
Proof.
  induction n as [|f l IHl r IHr]; simpl; auto.
  rewrite rev_app_distr. simpl. rewrite <- app_assoc. simpl. congruence.
Qed.

Lemma keysIn_invert : forall n, keysIn (_invert n) = rev (keysIn n).
Proof. intros. rewrite !keysIn_contents, contents_invert, map_rev. reflexivity. Qed.

Lemma idsIn_invert : forall n, idsIn (_invert n) = rev (idsIn n).
Proof. intros. rewrite !idsIn_contents, contents_invert, map_rev. reflexivity. Qed.

Lemma depthOr0_invert : forall n, depthOr0 (_invert n) = depthOr0 n.
Proof. destruct n; reflexivity. Qed.

Lemma invert_undefined : forall n, _invert n = undefined -> n = undefined.
Proof. destruct n; simpl; congruence. Qed.

Lemma safe_invert : forall n, safe n -> safe (_invert n).
Proof.
  induction n as [|f l IHl r IHr]; simpl; auto.
  intros (Hd & _ & _ & Sl & Sr). unfold calcBalanceFactor.
  pose proof (depthOr0_nonneg l Sl). pose proof (depthOr0_nonneg r Sr).
  split; [exact Hd|]. split; [|split; [|split; auto]].
  - intros Hb E. apply invert_undefined in E. subst l. simpl in *. lia.
  - intros Hb E. apply invert_undefined in E. subst r. simpl in *. lia.
Qed.

Lemma bst_invert : forall cmp n, bst cmp n -> bst (reverseComparator cmp) (_invert n).
Proof.
  intros cmp. induction n as [|f l IHl r IHr]; simpl; auto.
  intros (Fl & Fr & Bl & Br). rewrite !keysIn_invert.
  unfold reverseComparator at 1 2.
  repeat split; auto.
  - apply Forall_rev. eapply Forall_impl; [|exact Fr].
    simpl. intros a ->. reflexivity.
  - apply Forall_rev. eapply Forall_impl; [|exact Fl].
    simpl. intros a ->. reflexivity.
Qed.

Lemma reverse_Inv : forall S (w : World K V S),
  Inv w -> exists w', reverse w = Ok (tt, w') /\ Inv w'
    /\ root w' = _invert (root w)
    /\ comparator w' = reverseComparator (comparator w).
Proof.
  intros S w [L B Sf Nd Fr Ow]. eexists. split; [reflexivity|].
  split; [|split; reflexivity]. constructor; simpl.
  - apply reverseComparator_lawful; auto.
  - apply bst_invert; auto.
  - apply safe_invert; auto.
  - rewrite idsIn_invert. apply NoDup_rev. auto.
  - rewrite idsIn_invert. apply Forall_rev. auto.
  - unfold ownedOrFree. rewrite ownersIn_invert. apply Forall_rev. auto.
Qed.

Lemma clear_Inv : forall S (w : World K V S),
  Inv w -> exists es w', clear w = Ok (es, w') /\ Inv w' /\ root w' = undefined.
Proof.
  intros S w [L B Sf Nd Fr Ow]. eexists _, _. split; [reflexivity|].
  split; [|reflexivity]. constructor; simpl; auto; constructor.
Qed.

Lemma getOrCompute_Inv : forall S k (compute : S -> V * S) (w : World K V S),
  Inv w -> exists v w', getOrCompute k compute w = Ok (v, w') /\ Inv w'.
Proof.
  intros S k compute w I.
  destruct (getNodeOrCompute_spec S k compute w I)
    as (e & w' & E & I' & _ & _ & f & l & r & -> & _).
  unfold getOrCompute, bind, ret. rewrite E. eauto.
Qed.

Lemma runMutation_Inv : forall S (c : Mutation K V S) (w : World K V S),
  Inv w -> exists w', runMutation c w = Ok (tt, w') /\ Inv w'.
Proof.
  intros S c w I. destruct c; simpl; unfold bind, ret.
  - destruct (set_spec S k v replace w I) as (e & w' & E & I' & _).
    rewrite E. eauto.
  - destruct (getOrCompute_Inv S k compute w I) as (v & w' & E & I').
    rewrite E. eauto.
  - destruct (deleteNode_spec S k condition w I) as (d & w' & E & I' & _).
    unfold delete. rewrite E. eauto.
  - destruct (deleteSmallestNode_spec S condition w I) as (d & w' & E & I' & _).
    unfold deleteSmallest. rewrite E. eauto.
  - destruct (deleteLargestNode_spec S condition w I) as (d & w' & E & I' & _).
    unfold deleteLargest. rewrite E. eauto.
  - destruct (reKey_Inv S f l r newKey w I) as (b & e & w' & E & I' & _).
    rewrite E. eauto.
  - destruct (reValue_Inv S f l r newValue w I) as (b & e & w' & E & I' & _).
    rewrite E. eauto.
  - destruct (reverse_Inv S w I) as (w' & E & I' & _). eauto.
  - destruct (clear_Inv S w I) as (es & w' & E & I' & _). rewrite E. eauto.
Qed.

Lemma runAll_Inv : forall S (cs : list (Mutation K V S)) (w : World K V S),
  Inv w -> exists w', runAll cs w = Ok (tt, w') /\ Inv w'.
Proof.
  intros S cs. induction cs as [|c cs IH]; intros w I; simpl.
  - exists w. auto.
  - destruct (runMutation_Inv S c w I) as (w1 & E1 & I1).
    destruct (IH w1 I1) as (w2 & E2 & I2).
    exists w2. unfold bind. rewrite E1. auto.
Qed.

Lemma Reachable_Inv : forall S (w : World K V S), Reachable w -> Inv w.
Proof.
  intros S w (order & this & ref0 & u & cs & L & E).
  destruct (runAll_Inv S cs (newSortedMap order this ref0 u)) as (w' & E' & I').
  - apply Inv_new. exact L.
  - rewrite E in E'. inversion E'; subst. exact I'.
Qed.

End Sequences.

(** ** Ranges *)

Section Ranges.

Context {K V : Type}.
Implicit Types (n l r : Node K V) (f : Fields K V).

Lemma tooSmallAt_satisfiesMin : forall cmp min (k : K),
  tooSmallAt cmp min k = negb (satisfiesMin cmp min k).
Proof.
  intros cmp min k. destruct min as [|m|m [[|]|]|p]; simpl; auto;
    unfold cmpLE; destruct (cmp k m); reflexivity.
Qed.

Lemma tooBigAt_satisfiesMax : forall cmp max (k : K),
  tooBigAt cmp max k = negb (satisfiesMax cmp max k).
Proof.
  intros cmp max k. destruct max as [|m|m [[|]|]|p]; simpl; auto;
    unfold cmpGE; destruct (cmp k m); reflexivity.
Qed.

(** Below a key that is too small every key is too small; above a key that
    is too big every key is too big. *)
Lemma satisfiesMin_below : forall cmp min (a b : K),
  Lawful cmp -> monotoneMin cmp min ->
  satisfiesMin cmp min a = false -> cmp b a = Lt -> satisfiesMin cmp min b = false.
Proof.
  intros cmp min a b L Hm Ha Hb. destruct min as [|m|m [[|]|]|p]; simpl in *.
  - discriminate.
  - destruct (cmp a m) eqn:E; try discriminate.
    rewrite (cmp_trans L b a m Hb E). reflexivity.
  - destruct (cmp a m) eqn:E; try discriminate.
    rewrite (cmp_trans L b a m Hb E). reflexivity.
  - destruct (cmp a m) eqn:E; try discriminate.
    + rewrite (cmp_eq_r L a m b E) in Hb. rewrite Hb. reflexivity.
    + rewrite (cmp_trans L b a m Hb E). reflexivity.
  - destruct (cmp a m) eqn:E; try discriminate.
    rewrite (cmp_trans L b a m Hb E). reflexivity.
  - destruct (p b) eqn:E; auto. rewrite (Hm b a Hb E) in Ha. discriminate.
Qed.

Lemma satisfiesMax_above : forall cmp max (a b : K),
  Lawful cmp -> monotoneMax cmp max ->
  satisfiesMax cmp max a = false -> cmp b a = Gt -> satisfiesMax cmp max b = false.
Proof.
  intros cmp max a b L Hm Ha Hb. destruct max as [|m|m [[|]|]|p]; simpl in *.
  - discriminate.
  - destruct (cmp a m) eqn:E; try discriminate.
    rewrite (cmp_trans_gt L b a m Hb E). reflexivity.
  - destruct (cmp a m) eqn:E; try discriminate.
    rewrite (cmp_trans_gt L b a m Hb E). reflexivity.
  - destruct (cmp a m) eqn:E; try discriminate.
    + rewrite (cmp_eq_r L a m b E) in Hb. rewrite Hb. reflexivity.
    + rewrite (cmp_trans_gt L b a m Hb E). reflexivity.
  - destruct (cmp a m) eqn:E; try discriminate.
    rewrite (cmp_trans_gt L b a m Hb E). reflexivity.
  - destruct (p b) eqn:E; auto. apply (cmp_gt_lt L) in Hb.
    rewrite (Hm a b Hb E) in Ha. discriminate.
Qed.

Lemma iterator_keys : forall n e,
  In e (_iterator n) -> exists f l r, e = node f l r /\ In (key f) (keysIn n).
Proof.
  induction n as [|f l IHl r IHr]; simpl; intros e Hin; [contradiction|].
  apply in_app_or in Hin. destruct Hin as [Hin | [<- | Hin]].
  - destruct (IHl e Hin) as (f' & l' & r' & E & H). exists f', l', r'.
    split; auto. apply in_or_app. auto.
  - exists f, l, r. split; auto. apply in_or_app. simpl. auto.
  - destruct (IHr e Hin) as (f' & l' & r' & E & H). exists f', l', r'.
    split; auto. apply in_or_app. simpl. auto.
Qed.

Lemma filter_none : forall (A : Type) (p : A -> bool) (l : list A),
  (forall a, In a l -> p a = false) -> filter p l = [].
Proof.
  intros A p l. induction l as [|a l IH]; simpl; intros H; auto.
  rewrite (H a) by auto. apply IH. intros; apply H; auto.
Qed.

Lemma iteratorReversed_rev : forall n, _iteratorReversed n = rev (_iterator n).
Proof.
  induction n as [|f l IHl r IHr]; simpl; auto.
  rewrite rev_app_distr. simpl. rewrite <- app_assoc. simpl. congruence.
Qed.

Lemma filter_rev : forall (A : Type) (p : A -> bool) (l : list A),
  filter p (rev l) = rev (filter p l).
Proof.
  intros A p l. induction l as [|a l IH]; simpl; auto.
  rewrite filter_app, IH. simpl. destruct (p a); simpl; auto. apply app_nil_r.
Qed.

(** [recur] yields the nodes of the traversal that are in range. *)
Lemma recur_ascending : forall cmp min max n,
  Lawful cmp -> monotoneMin cmp min -> monotoneMax cmp max -> bst cmp n ->
  recur cmp min max false n = filter (inRange cmp min max) (_iterator n).
Proof.
  intros cmp min max n L Hmin Hmax. induction n as [|f l IHl r IHr]; simpl; auto.
  intros (Fl & Fr & Bl & Br).
  rewrite filter_app. simpl.
  rewrite tooSmallAt_satisfiesMin, tooBigAt_satisfiesMax, !negb_involutive.
  rewrite IHl, IHr by auto.
  rewrite (andb_comm (satisfiesMax cmp max (key f))).
  assert (Hl : satisfiesMin cmp min (key f) = false ->
               filter (inRange cmp min max) (_iterator l) = []).
  { intros E. apply filter_none. intros e Hin.
    destruct (iterator_keys l e Hin) as (f' & l' & r' & -> & Hk). simpl.
    rewrite Forall_forall in Fl.
    rewrite (satisfiesMin_below cmp min (key f) (key f') L Hmin E (Fl _ Hk)).
    reflexivity. }
  assert (Hr : satisfiesMax cmp max (key f) = false ->
               filter (inRange cmp min max) (_iterator r) = []).
  { intros E. apply filter_none. intros e Hin.
    destruct (iterator_keys r e Hin) as (f' & l' & r' & -> & Hk). simpl.
    rewrite Forall_forall in Fr.
    rewrite (satisfiesMax_above cmp max (key f) (key f') L Hmax E (Fr _ Hk)).
    apply andb_false_r. }
  destruct (satisfiesMin cmp min (key f)) eqn:E1;
    destruct (satisfiesMax cmp max (key f)) eqn:E2; simpl;
    try rewrite (Hl eq_refl); try rewrite (Hr eq_refl); reflexivity.
Qed.

Lemma recur_descending : forall cmp min max n,
  Lawful cmp -> monotoneMin cmp min -> monotoneMax cmp max -> bst cmp n ->
  recur cmp min max true n = filter (inRange cmp min max) (_iteratorReversed n).
Proof.
  intros cmp min max n L Hmin Hmax. induction n as [|f l IHl r IHr]; simpl; auto.
  intros (Fl & Fr & Bl & Br).
  rewrite filter_app. simpl.
  rewrite tooSmallAt_satisfiesMin, tooBigAt_satisfiesMax, !negb_involutive.
  rewrite IHl, IHr by auto.
  rewrite (andb_comm (satisfiesMax cmp max (key f))).
  assert (Hl : satisfiesMin cmp min (key f) = false ->
               filter (inRange cmp min max) (_iteratorReversed l) = []).
  { intros E. rewrite iteratorReversed_rev. apply filter_none. intros e Hin.
    apply in_rev in Hin.
    destruct (iterator_keys l e Hin) as (f' & l' & r' & -> & Hk). simpl.
    rewrite Forall_forall in Fl.
    rewrite (satisfiesMin_below cmp min (key f) (key f') L Hmin E (Fl _ Hk)).
    reflexivity. }
  assert (Hr : satisfiesMax cmp max (key f) = false ->
               filter (inRange cmp min max) (_iteratorReversed r) = []).
  { intros E. rewrite iteratorReversed_rev. apply filter_none. intros e Hin.
    apply in_rev in Hin.
    destruct (iterator_keys r e Hin) as (f' & l' & r' & -> & Hk). simpl.
    rewrite Forall_forall in Fr.
    rewrite (satisfiesMax_above cmp max (key f) (key f') L Hmax E (Fr _ Hk)).
    apply andb_false_r. }
  destruct (satisfiesMin cmp min (key f)) eqn:E1;
    destruct (satisfiesMax cmp max (key f)) eqn:E2; simpl;
    try rewrite (Hl eq_refl); try rewrite (Hr eq_refl); reflexivity.
Qed.

Lemma keysOf_app : forall (a b : list (Node K V)), keysOf (a ++ b) = keysOf a ++ keysOf b.
Proof.
  induction a as [|[|f l r] a IH]; simpl; intros b; auto. rewrite IH. reflexivity.
Qed.

Lemma keysOf_iterator : forall n, keysOf (_iterator n) = keysIn n.
Proof.
  induction n as [|f l IHl r IHr]; simpl; auto.
  rewrite keysOf_app. simpl. congruence.
Qed.

Lemma keysOf_rev : forall (a : list (Node K V)), keysOf (rev a) = rev (keysOf a).
Proof.
  induction a as [|[|f l r] a IH]; simpl; auto.
  - rewrite keysOf_app, IH. simpl. apply app_nil_r.
  - rewrite keysOf_app, IH. reflexivity.
Qed.

Lemma keysOf_filter_Forall : forall (P : K -> Prop) (p : Node K V -> bool) ns,
  Forall P (keysOf ns) -> Forall P (keysOf (filter p ns)).
Proof.
  intros P p. induction ns as [|[|f l r] ns IH]; simpl; intros H; auto.
  - destruct (p undefined); simpl; auto.
  - inversion H; subst. destruct (p (node f l r)); simpl; auto.
Qed.

Lemma keysOf_filter_sorted : forall (R : K -> K -> Prop) (p : Node K V -> bool) ns,
  StronglySorted R (keysOf ns) -> StronglySorted R (keysOf (filter p ns)).
Proof.
  intros R p. induction ns as [|[|f l r] ns IH]; simpl; intros H; auto.
  - destruct (p undefined); simpl; auto.
  - inversion H; subst. destruct (p (node f l r)); simpl; auto.
    constructor; auto. apply keysOf_filter_Forall. auto.
Qed.

Lemma StronglySorted_rev : forall (A : Type) (R : A -> A -> Prop) (l : list A),
  StronglySorted R l -> StronglySorted (fun a b => R b a) (rev l).
Proof.
  intros A R l H. induction H as [|a l H IH Ha]; simpl.
  - constructor.
  - apply StronglySorted_app; auto.
    + constructor; constructor.
    + intros x y Hx [<- | []]. rewrite Forall_forall in Ha.
      apply Ha. apply in_rev. exact Hx.
Qed.

(** The keys of a filtered list of nodes are the filtered keys. *)
Lemma keysOf_filter_inRange : forall cmp min max (ns : list (Node K V)),
  keysOf (filter (inRange cmp min max) ns)
  = filter (fun k => satisfiesMin cmp min k && satisfiesMax cmp max k) (keysOf ns).
Proof.
  intros cmp min max. induction ns as [|[|f l r] ns IH]; simpl; auto.
  destruct (satisfiesMin cmp min (key f) && satisfiesMax cmp max (key f)); simpl; congruence.
Qed.

End Ranges.

(** * The properties of the specification *)

Section SpecificationProperties.

Context {K V : Type}.
Implicit Types (n l r : Node K V) (f : Fields K V).

(** C4.  After any sequence of public mutations ([set], [getOrCompute],
    [delete], [deleteSmallest], [deleteLargest], [reKey], [reValue],
    [reverse], [clear]) on a new map with a lawful comparator, every call
    has returned and the tree is in BST order for the map's current
    comparator: at every node the keys of the left subtree compare less and
    those of the right subtree compare greater. *)
Theorem C4_bst_order_after_mutations :
  forall S (order : Comparator K) (this ref0 : nat) (u : S)
         (cs : list (Mutation K V S)),
    Lawful order ->
    exists w', runAll cs (newSortedMap order this ref0 u) = Ok (tt, w')
               /\ bst (comparator w') (root w').
Proof.
  intros S order this ref0 u cs L.
  destruct (runAll_Inv S cs (newSortedMap order this ref0 u)) as (w' & E & I).
  - apply Inv_new. exact L.
  - exists w'. split; [exact E | exact (inv_bst I)].
Qed.

(** C5.  In every state of a map, [set(k, v)] with the default
    [replace = true] returns, and [get(k)] then returns [v]. *)
Theorem C5_set_then_get :
  forall S (u0 : V) (w : World K V S) (k : K) (v : V),
    Reachable w ->
    exists e w', set k v true w = Ok (e, w') /\ get u0 k w' = Ok (v, w').
Proof.
  intros S u0 w k v R. pose proof (Reachable_Inv S w R) as I.
  destruct (set_spec S k v true w I)
    as (e & w' & E & I' & Rc & _ & _ & f & l & r & Ee & _ & Hin & Hk & Hrep & _).
  destruct (Hrep eq_refl) as (Ek & Ev).
  exists e, w'. split; [exact E|].
  destruct (getNode_from_found (comparator w') k (root w') (nid f) (key f) (value f)
              (inv_lawful I') (inv_bst I') Hin) as (f' & l' & r' & Eg & Eit).
  - rewrite Rc. exact Hk.
  - unfold get, getEntry, getNode, bind, gets, ret. rewrite Eg. simpl.
    inversion Eit. congruence.
Qed.

(** C8.  [reKey] and [reValue] never raise.  [reKey] answers true exactly
    when the back link of the handle's object is this map and the comparator
    reports the new key equal to the object's key; it then writes the key in
    place and leaves every link, identity and cached number as it was;
    otherwise it answers false and changes nothing.  [reValue] answers true
    exactly when the back link is this map and otherwise changes nothing.
    Hence a handle of a node of another map fails on this map, and so does
    the handle of an emancipated node. *)
Theorem C8_reKey_reValue_ownership :
  forall S (w : World K V S) f0 l0 r0 (newKey : K) (newValue : V),
    exists f l r,
      deref (node f0 l0 r0) w = Ok (node f l r, w)
      /\ (exists b e w',
            reKey (node f0 l0 r0) newKey w = Ok ((b, e), w')
            /\ (b = true <->
                sortedMap f = Some (mapId w) /\ comparator w newKey (key f) = Eq)
            /\ (b = true ->
                e = node (set_key f newKey) l r
                /\ w' = set_root (modify (nid f) (fun g => set_key g newKey) (root w)) w
                /\ sameShape (root w) (root w'))
            /\ (b = false -> e = node f l r /\ w' = w))
      /\ (exists b e w',
            reValue (node f0 l0 r0) newValue w = Ok ((b, e), w')
            /\ (b = true <-> sortedMap f = Some (mapId w))
            /\ (b = true ->
                e = node (set_value f newValue) l r
                /\ w' = set_root (modify (nid f) (fun g => set_value g newValue) (root w)) w
                /\ sameShape (root w) (root w'))
            /\ (b = false -> e = node f l r /\ w' = w))
      /\ (forall SA (wA : World K V SA),
            Reachable wA -> In (node f0 l0 r0) (_iterator (root wA)) ->
            mapId wA <> mapId w -> findNode (nid f0) (root w) = undefined ->
            reKey (node f0 l0 r0) newKey w = Ok ((false, node f0 l0 r0), w)
            /\ reValue (node f0 l0 r0) newValue w = Ok ((false, node f0 l0 r0), w))
      /\ (sortedMap f = None ->
            reKey (node f0 l0 r0) newKey w = Ok ((false, node f l r), w)
            /\ reValue (node f0 l0 r0) newValue w = Ok ((false, node f l r), w)).
Proof.
  intros S w f0 l0 r0 newKey newValue.
  destruct (derefIn_defined (root w) f0 l0 r0) as (f & l & r & E & Hid & Hcase).
  exists f, l, r. split; [unfold deref, gets; rewrite E; reflexivity|].
  pose proof (reKey_eq S f0 l0 r0 newKey w f l r E) as EK.
  pose proof (reValue_eq S f0 l0 r0 newValue w f l r E) as EV.
  split; [|split; [|split]].
  - rewrite EK.
    destruct (ownedBy (mapId w) (node f l r)) eqn:Eo; simpl.
    + apply ownedBy_iff in Eo.
      destruct (cmpNQ (comparator w newKey (key f))) eqn:Ec; simpl.
      * eexists _, _, _. split; [reflexivity|]. split; [|split].
        -- split; [discriminate|]. intros (_ & Hc). apply cmpNQ_iff in Hc. congruence.
        -- discriminate.
        -- auto.
      * apply cmpNQ_iff in Ec.
        eexists _, _, _. split; [reflexivity|]. split; [|split].
        -- split; auto.
        -- intros _. split; [reflexivity|]. split; [reflexivity|]. simpl.
           apply sameShape_modify; [apply fieldWrite_set_key | reflexivity].
        -- discriminate.
    + eexists _, _, _. split; [reflexivity|]. split; [|split].
      * split; [discriminate|]. intros (Ho & _).
        apply (proj2 (ownedBy_iff (mapId w) f l r)) in Ho. congruence.
      * discriminate.
      * auto.
  - rewrite EV.
    destruct (ownedBy (mapId w) (node f l r)) eqn:Eo; simpl.
    + apply ownedBy_iff in Eo.
      eexists _, _, _. split; [reflexivity|]. split; [|split].
      * split; auto.
      * intros _. split; [reflexivity|]. split; [reflexivity|]. simpl.
        apply sameShape_modify; [apply fieldWrite_set_value | reflexivity].
      * discriminate.
    + eexists _, _, _. split; [reflexivity|]. split; [|split].
      * split; [discriminate|]. intros Ho.
        apply (proj2 (ownedBy_iff (mapId w) f l r)) in Ho. congruence.
      * discriminate.
      * auto.
  - intros SA wA RA Hin Hne Hnf.
    destruct Hcase as [Hf | (_ & Heq)]; [congruence|].
    inversion Heq; subst f l r.
    assert (Ho : ownedBy (mapId w) (node f0 l0 r0) = false).
    { pose proof (Reachable_Inv SA wA RA) as IA.
      assert (Hown : In (sortedMap f0) (ownersIn (root wA))).
      { clear - Hin. induction (root wA) as [|fa la IHl ra IHr]; simpl in *; [contradiction|].
        apply in_app_or in Hin. apply in_or_app.
        destruct Hin as [Hin | [Hin | Hin]]; auto.
        - inversion Hin; subst. simpl. auto.
        - simpl. auto. }
      pose proof (inv_owner IA) as HA. unfold ownedOrFree in HA.
      rewrite Forall_forall in HA. apply HA in Hown.
      simpl. destruct Hown as [-> | ->]; auto.
      apply Nat.eqb_neq. exact Hne. }
    rewrite EK, EV, Ho. simpl. auto.
  - intros Hnone.
    assert (Ho : ownedBy (mapId w) (node f l r) = false) by (simpl; rewrite Hnone; reflexivity).
    rewrite EK, EV, Ho. simpl. auto.
Qed.

(** C9.  Every query ([get], [getEntry], [getSmallestEntry],
    [getLargestEntry], [getRange], [keys], [values], [entries], default
    iteration, [reversed], [size]) returns and leaves the whole state of
    the map as it was: the root with every node and all its fields, the
    comparator and the back links. *)
Theorem C9_queries_change_nothing :
  forall S (u0 : V) (w : World K V S) (k : K) (min max : Bound K) (rev : bool),
    (exists v, get u0 k w = Ok (v, w))
    /\ (exists e, getEntry k w = Ok (e, w))
    /\ (exists e, getSmallestEntry w = Ok (e, w))
    /\ (exists e, getLargestEntry w = Ok (e, w))
    /\ (exists es, getRange min max rev w = Ok (es, w))
    /\ (exists ks, keys w = Ok (ks, w))
    /\ (exists vs, values w = Ok (vs, w))
    /\ (exists es, entries w = Ok (es, w))
    /\ (exists es, iterator w = Ok (es, w))
    /\ (exists es, reversed w = Ok (es, w))
    /\ (exists z, size w = Ok (z, w)).
Proof.
  intros S u0 w k min max rev.
  repeat split; eexists; reflexivity.
Qed.

(** C10.  [get(key)] is [getEntry(key)?.value].  After a key was stored
    with the value [undefined], [get] returns [undefined] for it, as it does
    for a key with no entry, while [getEntry] returns an entry for the
    stored key and [undefined] only for the key with no entry. *)
Theorem C10_get_is_getEntry_value :
  forall S (u0 : V) (w : World K V S) (k : K),
    (exists e, getEntry k w = Ok (e, w)
               /\ get u0 k w = Ok (valueOrUndefined u0 e, w))
    /\ (getEntry k w = Ok (undefined, w) -> get u0 k w = Ok (u0, w))
    /\ (Reachable w ->
        exists e w', set k u0 true w = Ok (e, w')
          /\ get u0 k w' = Ok (u0, w')
          /\ exists f l r, getEntry k w' = Ok (node f l r, w')).
Proof.
  intros S u0 w k. split; [|split].
  - eexists. split; reflexivity.
  - unfold get, bind, ret. intros ->. reflexivity.
  - intros R. pose proof (Reachable_Inv S w R) as I.
    destruct (set_spec S k u0 true w I)
      as (e & w' & E & I' & Rc & _ & _ & f & l & r & Ee & _ & Hin & Hk & Hrep & _).
    destruct (Hrep eq_refl) as (Ek & Ev).
    exists e, w'. split; [exact E|].
    destruct (getNode_from_found (comparator w') k (root w') (nid f) (key f) (value f)
                (inv_lawful I') (inv_bst I') Hin) as (f' & l' & r' & Eg & Eit).
    + rewrite Rc. exact Hk.
    + split.
      * unfold get, getEntry, getNode, bind, gets, ret. rewrite Eg. simpl.
        inversion Eit. congruence.
      * exists f', l', r'. unfold getEntry, getNode, gets. rewrite Eg. reflexivity.
Qed.

(** [getRange] on a tree in BST order, for monotone bounds. *)
Lemma getRange_exact :
  forall S (w : World K V S) (min max : Bound K) (rev : bool),
    Lawful (comparator w) -> bst (comparator w) (root w) ->
    monotoneMin (comparator w) min -> monotoneMax (comparator w) max ->
    exists es,
      getRange min max rev w = Ok (es, w)
      /\ es = filter (inRange (comparator w) min max)
                (if rev then _iteratorReversed (root w) else _iterator (root w))
      /\ keysOf es
         = filter (fun k => satisfiesMin (comparator w) min k
                            && satisfiesMax (comparator w) max k)
             (if rev then List.rev (keysIn (root w)) else keysIn (root w))
      /\ StronglySorted
           (fun a b => (if rev then comparator w b a else comparator w a b) = Lt)
           (keysOf es).
Proof.
  intros S w min max rev L B Hmin Hmax.
  exists (recur (comparator w) min max rev (root w)).
  split; [reflexivity|].
  assert (E : recur (comparator w) min max rev (root w)
              = filter (inRange (comparator w) min max)
                  (if rev then _iteratorReversed (root w) else _iterator (root w))).
  { destruct rev; [apply recur_descending | apply recur_ascending]; auto. }
  split; [exact E|]. rewrite E.
  pose proof (bst_sorted (comparator w) (root w) L B) as Hs.
  split.
  - rewrite keysOf_filter_inRange. destruct rev.
    + rewrite iteratorReversed_rev, keysOf_rev, keysOf_iterator. reflexivity.
    + rewrite keysOf_iterator. reflexivity.
  - apply keysOf_filter_sorted. destruct rev.
    + rewrite iteratorReversed_rev, keysOf_rev, keysOf_iterator.
      apply (StronglySorted_rev K (fun a b => comparator w a b = Lt)). exact Hs.
    + rewrite keysOf_iterator. exact Hs.
Qed.

End SpecificationProperties.

(** ** reverse twice *)

Section ReverseTwice.

Context {K V : Type}.

Lemma invert_invert : forall n : Node K V, _invert (_invert n) = refreshBalanceFactors n.
Proof.
  induction n as [|f l IHl r IHr]; simpl; auto.
  rewrite IHl, IHr. unfold calcBalanceFactor. rewrite !depthOr0_invert.
  reflexivity.
Qed.

Lemma contents_refresh : forall n : Node K V, contents (refreshBalanceFactors n) = contents n.
Proof. induction n as [|f l IHl r IHr]; simpl; congruence. Qed.

End ReverseTwice.

(** * The scenarios *)

Import Scenario.

Lemma Reachable_after312 : forall S (u : S), Reachable (after312 u).
Proof.
  intros S u. exists Z.compare, 0%nat, 1%nat, u, [setKey 3; setKey 1; setKey 2].
  split; [apply Zcompare_lawful | vm_compute; reflexivity].
Qed.

Lemma Reachable_sevenKeys : forall S (u : S), Reachable (sevenKeys u).
Proof.
  intros S u. exists Z.compare, 0%nat, 1%nat, u, (map setKey [5; 3; 8; 1; 4; 7; 9]).
  split; [apply Zcompare_lawful | vm_compute; reflexivity].
Qed.

(** C1.  The code leaves the range: after [set(3); set(1); set(2)] on a new
    map the root caches [balanceFactor = 3] and its right subtree is really
    two levels higher than its (empty) left subtree; after [set(1); set(2);
    set(3)] the root caches [balanceFactor = -2]. *)
Theorem C1_balance_factor_leaves_range :
  run [setKey 3; setKey 1; setKey 2] tt = Ok (tt, after312 tt)
  /\ rootBalanceFactor (root (after312 tt)) = Some 3
  /\ height (right (root (after312 tt))) - height (left (root (after312 tt))) = 2
  /\ balancedb (root (after312 tt)) = false
  /\ ~ balanced (root (after312 tt))
  /\ rootBalanceFactor (rootOf (run [setKey 1; setKey 2; setKey 3] tt)) = Some (-2).
Proof.
  split; [vm_compute; reflexivity|]. split; [vm_compute; reflexivity|]. split; [vm_compute; reflexivity|].
  split; [vm_compute; reflexivity|]. split; [|vm_compute; reflexivity].
  vm_compute. intros ((_ & H) & _). apply H. reflexivity.
Qed.

(** C3.  The code restructures on a refused delete: in the map after
    [set(3); set(1); set(2)], which holds key 2, [delete(2, condition)] with
    a condition that answers false evaluates the condition once and returns
    [undefined], but the root of the tree changes from the node of key 1 to
    the node of key 3. *)
Theorem C3_refused_delete_restructures :
  get None 2 (after312 0%nat) = Ok (Some 20, after312 0%nat)
  /\ exists w',
       delete 2 (Some refuse) (after312 0%nat) = Ok (undefined, w')
       /\ user w' = 1%nat
       /\ rootKey (root (after312 0%nat)) = Some 1
       /\ rootKey (root w') = Some 3
       /\ keysIn (root w') = keysIn (root (after312 0%nat))
       /\ root w' <> root (after312 0%nat).
Proof.
  split; [vm_compute; reflexivity|].
  eexists. split; [vm_compute; reflexivity|].
  split; [vm_compute; reflexivity|]. split; [vm_compute; reflexivity|]. split; [vm_compute; reflexivity|].
  split; [vm_compute; reflexivity|]. vm_compute. discriminate.
Qed.

(** C6.  The code restructures on a hit: in the map after [set(3); set(1);
    set(2)], [getOrCompute(2, thunk)] returns the stored value without
    calling the thunk, and [set(2, v, false)] keeps the stored value, but
    in both cases the root of the tree changes from the node of key 1 to
    the node of key 3. *)
Theorem C6_hit_restructures :
  (exists w',
     getOrCompute 2 thunk77 (after312 0%nat) = Ok (Some 20, w')
     /\ user w' = 0%nat
     /\ rootKey (root (after312 0%nat)) = Some 1
     /\ rootKey (root w') = Some 3
     /\ root w' <> root (after312 0%nat))
  /\ (exists e w',
        set 2 (Some 5) false (after312 tt) = Ok (e, w')
        /\ valueOrUndefined None e = Some 20
        /\ get None 2 w' = Ok (Some 20, w')
        /\ rootKey (root w') = Some 3
        /\ root w' <> root (after312 tt)).
Proof.
  split.
  - eexists. split; [vm_compute; reflexivity|].
    split; [vm_compute; reflexivity|]. split; [vm_compute; reflexivity|]. split; [vm_compute; reflexivity|].
    vm_compute. discriminate.
  - eexists _, _. split; [vm_compute; reflexivity|].
    split; [vm_compute; reflexivity|]. split; [vm_compute; reflexivity|]. split; [vm_compute; reflexivity|].
    vm_compute. discriminate.
Qed.

(** C7.  The code does not restore the balance factor: in the map after
    [set(3); set(1); set(2)] the root caches [balanceFactor = 3]; after
    [reverse(); reverse()] the keys come in the original order again, but
    the root caches [balanceFactor = 2]. *)
Theorem C7_reverse_twice_changes_balance_factor :
  exists w',
    (reverse ;;; reverse) (after312 tt) = Ok (tt, w')
    /\ keysIn (root w') = keysIn (root (after312 tt))
    /\ root w' = refreshBalanceFactors (root (after312 tt))
    /\ rootBalanceFactor (root (after312 tt)) = Some 3
    /\ rootBalanceFactor (root w') = Some 2
    /\ root w' <> root (after312 tt).
Proof.
  eexists. split; [vm_compute; reflexivity|].
  split; [vm_compute; reflexivity|]. split; [vm_compute; reflexivity|]. split; [vm_compute; reflexivity|].
  split; [vm_compute; reflexivity|]. vm_compute. discriminate.
Qed.

(** C2 as stated fails for a predicate that is not monotone: on the keys
    {1,3,4,5,7,8,9} inserted as 5,3,8,1,4,7,9, [getRange(k => k != 5)]
    yields 7,8,9, while the keys that satisfy the bound are 1,3,4,7,8,9. *)
Lemma C2_counterexample :
  exists es,
    getRange (FnBound notFive) NoBound false (sevenKeys tt) = Ok (es, sevenKeys tt)
    /\ keysOf es = [7; 8; 9]
    /\ keysOf (filter (inRange Z.compare (FnBound notFive) NoBound)
                 (_iterator (root (sevenKeys tt)))) = [1; 3; 4; 7; 8; 9]
    /\ es <> filter (inRange Z.compare (FnBound notFive) NoBound)
               (_iterator (root (sevenKeys tt))).
Proof.
  eexists. split; [vm_compute; reflexivity|].
  split; [vm_compute; reflexivity|]. split; [vm_compute; reflexivity|]. vm_compute. discriminate.
Qed.

(** C2, amended.  On every tree in BST order under a lawful comparator, for
    bounds that are absent, a bare key (inclusive), a pair of a key and
    "inclusive" or "exclusive", or a predicate that is monotone along the
    order, [getRange(min, max, {reversed})] yields exactly the nodes of the
    traversal whose keys satisfy both bounds, in strictly ascending key
    order (descending when [reversed]); on every such tree with the integer
    keys {1,3,4,5,7,8,9}, [getRange(3, 7)] yields the keys 3,4,5,7 and
    [getRange([3,"exclusive"], [7,"exclusive"])] yields 4,5. *)
Theorem C2_getRange_exact_for_monotone_bounds :
  (forall K V S (w : World K V S) (min max : Bound K) (rev : bool),
     Lawful (comparator w) -> bst (comparator w) (root w) ->
     monotoneMin (comparator w) min -> monotoneMax (comparator w) max ->
     exists es,
       getRange min max rev w = Ok (es, w)
       /\ es = filter (inRange (comparator w) min max)
                 (if rev then _iteratorReversed (root w) else _iterator (root w))
       /\ StronglySorted
            (fun a b => (if rev then comparator w b a else comparator w a b) = Lt)
            (keysOf es))
  /\ (forall V S (w : World Z V S),
        comparator w = Z.compare -> bst Z.compare (root w) ->
        keysIn (root w) = [1; 3; 4; 5; 7; 8; 9] ->
        (exists es, getRange (KeyBound 3) (KeyBound 7) false w = Ok (es, w)
                    /\ keysOf es = [3; 4; 5; 7])
        /\ (exists es, getRange (PairBound 3 (Some exclusive))
                         (PairBound 7 (Some exclusive)) false w = Ok (es, w)
                       /\ keysOf es = [4; 5])).
Proof.
  split.
  - intros K V S w min max rev L B Hmin Hmax.
    destruct (getRange_exact S w min max rev L B Hmin Hmax) as (es & E1 & E2 & _ & E4).
    exists es. auto.
  - intros V S w Ec B Hk.
    assert (L : Lawful (comparator w)) by (rewrite Ec; apply Zcompare_lawful).
    rewrite <- Ec in B. split.
    + destruct (getRange_exact S w (KeyBound 3) (KeyBound 7) false L B I I)
        as (es & E1 & _ & E3 & _).
      exists es. split; [exact E1|]. rewrite E3, Hk, Ec. reflexivity.
    + destruct (getRange_exact S w (PairBound 3 (Some exclusive))
                  (PairBound 7 (Some exclusive)) false L B I I)
        as (es & E1 & _ & E3 & _).
      exists es. split; [exact E1|]. rewrite E3, Hk, Ec. reflexivity.
Qed.

(** ** The theorems at concrete maps *)

Lemma bst_sevenKeys : bst Z.compare (root (sevenKeys tt)).
Proof. vm_compute. repeat (split || constructor). Qed.

Lemma C2_witness :
  (comparator (sevenKeys tt) = Z.compare
   /\ bst Z.compare (root (sevenKeys tt))
   /\ keysIn (root (sevenKeys tt)) = [1; 3; 4; 5; 7; 8; 9])
  /\ (exists es, getRange (KeyBound 3) (KeyBound 7) false (sevenKeys tt)
                 = Ok (es, sevenKeys tt)
                 /\ keysOf es = [3; 4; 5; 7])
  /\ (exists es, getRange (PairBound 3 (Some exclusive))
                   (PairBound 7 (Some exclusive)) false (sevenKeys tt)
                 = Ok (es, sevenKeys tt)
                 /\ keysOf es = [4; 5]).
Proof.
  assert (H1 : comparator (sevenKeys tt) = Z.compare) by (vm_compute; reflexivity).
  assert (H3 : keysIn (root (sevenKeys tt)) = [1; 3; 4; 5; 7; 8; 9])
    by (vm_compute; reflexivity).
  split; [split; [exact H1 | split; [exact bst_sevenKeys | exact H3]]|].
  exact (proj2 C2_getRange_exact_for_monotone_bounds (option Z) unit (sevenKeys tt)
           H1 bst_sevenKeys H3).
Defined.

Lemma C4_witness :
  Lawful Z.compare
  /\ exists w',
       runAll [setKey 3; setKey 1; setKey 2; CallDelete 1 None; CallReverse]
         (newSortedMap Z.compare 0%nat 1%nat tt) = Ok (tt, w')
       /\ bst (comparator w') (root w').
Proof.
  split; [exact Zcompare_lawful|].
  exact (C4_bst_order_after_mutations unit Z.compare 0%nat 1%nat tt
           [setKey 3; setKey 1; setKey 2; CallDelete 1 None; CallReverse]
           Zcompare_lawful).
Defined.

Lemma C5_witness :
  Reachable (after312 tt)
  /\ exists e w', set 2 (Some 7) true (after312 tt) = Ok (e, w')
                  /\ get None 2 w' = Ok (Some 7, w').
Proof.
  split; [exact (Reachable_after312 unit tt)|].
  exact (C5_set_then_get unit None (after312 tt) 2 (Some 7) (Reachable_after312 unit tt)).
Defined.

Lemma handle_in_after312 :
  In (node handleFields undefined handleRight) (_iterator (root (after312 tt))).
Proof. vm_compute. left. reflexivity. Qed.

Lemma handle_not_in_otherMap : findNode (nid handleFields) (root otherMap) = undefined.
Proof. vm_compute. reflexivity. Qed.

Lemma maps_differ : mapId (after312 tt) <> mapId otherMap.
Proof. vm_compute. discriminate. Qed.

Lemma C8_witness :
  (Reachable (after312 tt)
   /\ In (node handleFields undefined handleRight) (_iterator (root (after312 tt)))
   /\ mapId (after312 tt) <> mapId otherMap
   /\ findNode (nid handleFields) (root otherMap) = undefined)
  /\ reKey (node handleFields undefined handleRight) 1 otherMap
     = Ok ((false, node handleFields undefined handleRight), otherMap)
  /\ reValue (node handleFields undefined handleRight) (Some 5) otherMap
     = Ok ((false, node handleFields undefined handleRight), otherMap).
Proof.
  split.
  - split; [exact (Reachable_after312 unit tt)|].
    split; [exact handle_in_after312|].
    split; [exact maps_differ | exact handle_not_in_otherMap].
  - destruct (C8_reKey_reValue_ownership unit otherMap handleFields undefined
                handleRight 1 (Some 5)) as (f & l & r & _ & _ & _ & Hcross & _).
    exact (Hcross unit (after312 tt) (Reachable_after312 unit tt) handle_in_after312
             maps_differ handle_not_in_otherMap).
Defined.

Lemma Reachable_emptyMap : Reachable (K:=Z) (V:=option Z) (emptyMap tt).
Proof.
  exists Z.compare, 0%nat, 1%nat, tt, []. split; [apply Zcompare_lawful | reflexivity].
Qed.

Lemma C10_witness :
  Reachable (emptyMap tt)
  /\ exists e w', set 4 None true (emptyMap tt) = Ok (e, w')
       /\ get None 4 w' = Ok (None, w')
       /\ exists f l r, getEntry 4 w' = Ok (node f l r, w').
Proof.
  split; [exact Reachable_emptyMap|].
  exact (proj2 (proj2 (C10_get_is_getEntry_value unit None (emptyMap tt) 4))
           Reachable_emptyMap).
Defined.

(** * Further properties of the map *)

(** ** Lookup, by what the tree holds *)

Section Lookup.

Context {K V : Type}.
Implicit Types (n l r : Node K V) (f : Fields K V).

Lemma getNode_from_undefined : forall cmp k n,
  Lawful cmp -> bst cmp n -> getNode_from cmp k n = undefined ->
  Forall (fun x => cmp k x <> Eq) (keysIn n).
Proof.
  intros cmp k n L. induction n as [|f l IHl r IHr]; simpl; intros B E.
  - constructor.
  - destruct B as (Fl & Fr & Bl & Br).
    destruct (cmp k (key f)) eqn:Ec; simpl in E; [discriminate| |].
    + apply Forall_app. split; [auto|]. constructor; [congruence|].
      eapply Forall_impl; [|exact Fr]. simpl. intros a Ha.
      apply (cmp_gt_lt L) in Ha. rewrite (cmp_trans L _ _ _ Ec Ha). discriminate.
    + apply Forall_app. split; [|constructor; [congruence | auto]].
      eapply Forall_impl; [|exact Fl]. simpl. intros a Ha.
      apply (cmp_gt_lt L) in Ec.
      pose proof (cmp_trans L _ _ _ Ha Ec) as Hak.
      apply (cmp_gt_lt L) in Hak. congruence.
Qed.

Lemma get_present : forall S (u0 : V) (w : World K V S) k i k0 v0,
  Inv w -> In (i, k0, v0) (contents (root w)) -> comparator w k k0 = Eq ->
  get u0 k w = Ok (v0, w)
  /\ exists f l r, getEntry k w = Ok (node f l r, w) /\ itemOf f = (i, k0, v0).
Proof.
  intros S u0 w k i k0 v0 I Hin Hk.
  destruct (getNode_from_found (comparator w) k (root w) i k0 v0
              (inv_lawful I) (inv_bst I) Hin Hk) as (f & l & r & E & Eit).
  unfold get, getEntry, getNode, bind, gets, ret. rewrite E. simpl.
  split; [inversion Eit; reflexivity|]. exists f, l, r. auto.
Qed.

Lemma get_absent : forall S (u0 : V) (w : World K V S) k,
  Forall (fun x => comparator w k x <> Eq) (keysIn (root w)) ->
  get u0 k w = Ok (u0, w) /\ getEntry k w = Ok (undefined, w).
Proof.
  intros S u0 w k HF.
  unfold get, getEntry, getNode, bind, gets, ret.
  rewrite (getNode_from_absent (comparator w) k (root w) HF). auto.
Qed.

(** What [getEntry] returns says whether the key is held. *)
Lemma getEntry_held : forall S (w : World K V S) k e,
  Inv w -> getEntry k w = Ok (e, w) ->
  match e with
  | undefined => Forall (fun x => comparator w k x <> Eq) (keysIn (root w))
  | node f _ _ => In (itemOf f) (contents (root w)) /\ comparator w k (key f) = Eq
  end.
Proof.
  intros S w k e I E. unfold getEntry, getNode, gets in E. inversion E as [E'].
  destruct (getNode_from (comparator w) k (root w)) as [|f l r] eqn:Eg.
  - apply getNode_from_undefined; auto; [exact (inv_lawful I) | exact (inv_bst I)].
  - apply getNode_from_item in Eg. destruct Eg. auto.
Qed.

(** The keys of a tree in BST order are pairwise different for the
    comparator: two items whose keys compare equal to one key are one item. *)
Lemma held_once : forall S (w : World K V S) k i1 k1 v1 i2 k2 v2,
  Inv w ->
  In (i1, k1, v1) (contents (root w)) -> comparator w k k1 = Eq ->
  In (i2, k2, v2) (contents (root w)) -> comparator w k k2 = Eq ->
  (i1, k1, v1) = (i2, k2, v2).
Proof.
  intros S w k i1 k1 v1 i2 k2 v2 I H1 E1 H2 E2.
  destruct (getNode_from_found (comparator w) k (root w) i1 k1 v1
              (inv_lawful I) (inv_bst I) H1 E1) as (f & l & r & E & Eit).
  destruct (getNode_from_found (comparator w) k (root w) i2 k2 v2
              (inv_lawful I) (inv_bst I) H2 E2) as (f' & l' & r' & E' & Eit').
  rewrite E in E'. inversion E'; subst. congruence.
Qed.

(** Two states that hold the same items answer every [get] alike. *)
Lemma get_same_contents : forall S S' (u0 : V) (w : World K V S) (w' : World K V S') k,
  Inv w -> Inv w' -> comparator w' = comparator w ->
  contents (root w') = contents (root w) ->
  exists v, get u0 k w = Ok (v, w) /\ get u0 k w' = Ok (v, w').
Proof.
  intros S S' u0 w w' k I I' Ec Econt.
  destruct (getNode_from (comparator w) k (root w)) as [|f l r] eqn:Eg.
  - pose proof (getNode_from_undefined _ k _ (inv_lawful I) (inv_bst I) Eg) as HF.
    exists u0. split; [apply get_absent; auto|].
    apply get_absent. rewrite Ec, keysIn_contents, Econt, <- keysIn_contents. exact HF.
  - apply getNode_from_item in Eg. destruct Eg as (Hk & Hin).
    exists (value f). split.
    + apply (get_present S u0 w k (nid f) (key f) (value f) I Hin Hk).
    + apply (get_present S' u0 w' k (nid f) (key f) (value f) I').
      * rewrite Econt. exact Hin.
      * rewrite Ec. exact Hk.
Qed.

End Lookup.

(** ** Traversals and extrema *)

Section TraversalProperties.

Context {K V : Type}.
Implicit Types (n l r : Node K V) (f : Fields K V).

Lemma iterator_defined : forall n, Forall (fun e => e <> undefined) (_iterator n).
Proof.
  induction n as [|f l IHl r IHr]; simpl; [constructor|].
  apply Forall_app. split; auto. constructor; auto. discriminate.
Qed.

Lemma keysOf_length : forall es : list (Node K V),
  Forall (fun e => e <> undefined) es -> length (keysOf es) = length es.
Proof.
  induction es as [|[|f l r] es IH]; simpl; intros H; auto; inversion H; subst.
  - congruence.
  - rewrite IH; auto.
Qed.

Lemma valuesOf_length : forall es : list (Node K V),
  Forall (fun e => e <> undefined) es -> length (valuesOf es) = length es.
Proof.
  induction es as [|[|f l r] es IH]; simpl; intros H; auto; inversion H; subst.
  - congruence.
  - rewrite IH; auto.
Qed.

Lemma entriesOf_combine : forall es : list (Node K V),
  entriesOf es = combine (keysOf es) (valuesOf es).
Proof.
  induction es as [|[|f l r] es IH]; simpl; auto. congruence.
Qed.

(** X1.  Default iteration visits the entries in strictly ascending key order
    for the map's current comparator, [reversed()] visits the same entries
    in the opposite order, and [keys()], [values()] and [entries()] yield
    the key, the value and the pair of each visited entry, one per entry. *)
Theorem iteration_strictly_ascending :
  forall S (w : World K V S),
    Reachable w ->
    exists es,
      iterator w = Ok (es, w)
      /\ StronglySorted (fun a b => comparator w a b = Lt) (keysOf es)
      /\ reversed w = Ok (rev es, w)
      /\ keys w = Ok (keysOf es, w)
      /\ values w = Ok (valuesOf es, w)
      /\ entries w = Ok (combine (keysOf es) (valuesOf es), w)
      /\ length (keysOf es) = length es
      /\ length (valuesOf es) = length es.
Proof.
  intros S w R. pose proof (Reachable_Inv S w R) as I.
  exists (_iterator (root w)). split; [reflexivity|].
  split; [rewrite keysOf_iterator; apply bst_sorted; [exact (inv_lawful I) | exact (inv_bst I)]|].
  split; [unfold reversed, gets; rewrite iteratorReversed_rev; reflexivity|].
  split; [reflexivity|]. split; [reflexivity|].
  split; [unfold entries, iterator, bind, gets, ret; rewrite entriesOf_combine; reflexivity|].
  split; [apply keysOf_length | apply valuesOf_length]; apply iterator_defined.
Qed.

Lemma getSmallestNode_from_hd : forall n,
  getSmallestNode_from n = hd undefined (_iterator n).
Proof.
  induction n as [|f l IHl r _]; simpl; auto.
  destruct l as [|fl ll lr]; [reflexivity|].
  rewrite IHl. simpl _iterator.
  destruct (_iterator ll ++ node fl ll lr :: _iterator lr) as [|a rest] eqn:E.
  - destruct (_iterator ll); discriminate.
  - reflexivity.
Qed.

Lemma getLargestNode_from_last : forall n,
  getLargestNode_from n = last (_iterator n) undefined.
Proof.
  induction n as [|f l _ r IHr]; simpl; auto.
  destruct r as [|fr rl rr].
  - simpl. rewrite last_last. reflexivity.
  - rewrite IHr.
    change (_iterator l ++ node f l (node fr rl rr) :: _iterator (node fr rl rr))
      with (_iterator l ++ [node f l (node fr rl rr)] ++ _iterator (node fr rl rr)).
    rewrite app_assoc.
    assert (Hne : _iterator (node fr rl rr) <> []).
    { simpl. destruct (_iterator rl); discriminate. }
    revert Hne. generalize (_iterator (node fr rl rr)) as es.
    generalize (_iterator l ++ [node f l (node fr rl rr)]) as pre.
    intros pre es Hne. destruct es as [|a es]; [congruence|].
    clear Hne. revert a. induction pre as [|p pre IH]; intros a; simpl.
    + reflexivity.
    + destruct (pre ++ a :: es) eqn:E; [destruct pre; discriminate|].
      rewrite <- E. apply IH.
Qed.

Lemma sorted_last_greatest : forall (R : K -> K -> Prop) (ks : list K) (m : K),
  StronglySorted R (ks ++ [m]) -> Forall (fun x => R x m) ks.
Proof.
  intros R ks m. induction ks as [|a ks IH]; simpl; intros H; [constructor|].
  inversion H as [|? ? Hs Ha]; subst. constructor; auto.
  rewrite Forall_forall in Ha. apply Ha. apply in_or_app. simpl. auto.
Qed.

(** X2.  [getSmallestEntry()] is the first entry of the iteration and
    [getLargestEntry()] the last one; both are [undefined] exactly on the
    empty map; every other key compares greater than the smallest entry's
    key and less than the largest entry's key. *)
Theorem extremes_are_ends_of_iteration :
  forall S (w : World K V S),
    Reachable w ->
    getSmallestEntry w = Ok (hd undefined (_iterator (root w)), w)
    /\ getLargestEntry w = Ok (last (_iterator (root w)) undefined, w)
    /\ (hd undefined (_iterator (root w)) = undefined <-> root w = undefined)
    /\ (last (_iterator (root w)) undefined = undefined <-> root w = undefined)
    /\ (forall fm lm rm, hd undefined (_iterator (root w)) = node fm lm rm ->
          exists rest, keysIn (root w) = key fm :: rest
            /\ Forall (fun x => comparator w (key fm) x = Lt) rest)
    /\ (forall fm lm rm, last (_iterator (root w)) undefined = node fm lm rm ->
          exists init, keysIn (root w) = init ++ [key fm]
            /\ Forall (fun x => comparator w x (key fm) = Lt) init).
Proof.
  intros S w R. pose proof (Reachable_Inv S w R) as I.
  pose proof (bst_sorted (comparator w) (root w) (inv_lawful I) (inv_bst I)) as Hs.
  split; [unfold getSmallestEntry, getSmallestNode, gets;
          rewrite getSmallestNode_from_hd; reflexivity|].
  split; [unfold getLargestEntry, getLargestNode, gets;
          rewrite getLargestNode_from_last; reflexivity|].
  split; [|split; [|split]].
  - rewrite <- getSmallestNode_from_hd. split.
    + intros E. destruct (root w) as [|f l r]; auto.
      exfalso. exact (getSmallestNode_from_defined f l r E).
    + intros ->. reflexivity.
  - rewrite <- getLargestNode_from_last. split.
    + intros E. destruct (root w) as [|f l r]; auto. exfalso. clear - E.
      revert f l E. induction r as [|fr rl _ rr IHr]; intros f l E; simpl in E.
      * discriminate.
      * exact (IHr fr rl E).
    + intros ->. reflexivity.
  - intros fm lm rm E. rewrite <- keysOf_iterator in *.
    destruct (_iterator (root w)) as [|a es]; simpl in E; [discriminate|].
    subst a. simpl in *. exists (keysOf es). split; auto.
    inversion Hs; auto.
  - intros fm lm rm E. rewrite <- keysOf_iterator in *.
    destruct (_iterator (root w)) as [|a es] eqn:Eit using rev_ind.
    + simpl in E. discriminate.
    + rewrite last_last in E. subst a. rewrite keysOf_app in *. simpl in *.
      exists (keysOf es). split; auto.
      apply sorted_last_greatest with (R := fun a b => comparator w a b = Lt). exact Hs.
Qed.

End TraversalProperties.

(** ** What a mutation does to the other keys *)

Section Frames.

Context {K V : Type}.
Implicit Types (n l r : Node K V) (f : Fields K V).

Lemma contents_modify : forall h (g : Fields K V -> Fields K V) gk gv n,
  (forall f, nid (g f) = nid f /\ key (g f) = gk (key f) /\ value (g f) = gv (value f)) ->
  contents (modify h g n) = map (writeItem h gk gv) (contents n).
Proof.
  intros h g gk gv n Hg. induction n as [|f l IHl r IHr]; simpl; auto.
  rewrite map_app. simpl. rewrite IHl, IHr. f_equal. f_equal.
  unfold writeItem. simpl. destruct (Nat.eqb (nid f) h); auto.
  destruct (Hg f) as (-> & -> & ->). reflexivity.
Qed.

(** A key whose items are the same in two states is answered alike. *)
Lemma get_frame : forall S S' (u0 : V) (w : World K V S) (w' : World K V S') k,
  Inv w -> Inv w' -> comparator w' = comparator w ->
  (forall i k0 v0, comparator w k k0 = Eq ->
     (In (i, k0, v0) (contents (root w)) <-> In (i, k0, v0) (contents (root w')))) ->
  exists v, get u0 k w = Ok (v, w) /\ get u0 k w' = Ok (v, w').
Proof.
  intros S S' u0 w w' k I I' Ec H.
  destruct (getNode_from (comparator w) k (root w)) as [|f l r] eqn:Eg.
  - exists u0. split.
    + unfold get, getEntry, getNode, bind, gets, ret. rewrite Eg. reflexivity.
    + destruct (getNode_from (comparator w') k (root w')) as [|f' l' r'] eqn:Eg'.
      * unfold get, getEntry, getNode, bind, gets, ret. rewrite Eg'. reflexivity.
      * exfalso. apply getNode_from_item in Eg'. destruct Eg' as (Hk & Hin).
        rewrite Ec in Hk. apply (H (nid f') (key f') (value f') Hk) in Hin.
        pose proof (getNode_from_undefined _ k _ (inv_lawful I) (inv_bst I) Eg) as HF.
        rewrite Forall_forall in HF. apply (HF (key f')); auto.
        eapply in_contents_keys; eauto.
  - apply getNode_from_item in Eg. destruct Eg as (Hk & Hin).
    exists (value f). split.
    + apply (get_present S u0 w k (nid f) (key f) (value f) I Hin Hk).
    + apply (get_present S' u0 w' k (nid f) (key f) (value f) I').
      * apply (H (nid f) (key f) (value f) Hk). exact Hin.
      * rewrite Ec. exact Hk.
Qed.

Lemma in_remove_middle : forall (A : Type) (x y : A) (c1 c2 : list A),
  x <> y -> (In x (c1 ++ y :: c2) <-> In x (c1 ++ c2)).
Proof.
  intros A x y c1 c2 Hne. rewrite !in_app_iff. simpl. split.
  - intros [H | [H | H]]; auto. congruence.
  - intros [H | H]; auto.
Qed.



(** Putting in an item for [k] leaves the other keys as they were. *)
Lemma insertion_frame : forall S S' (u0 : V) (w : World K V S) (w' : World K V S')
    k i v c1 c2,
  Inv w -> Inv w' -> comparator w' = comparator w ->
  contents (root w) = c1 ++ c2 -> contents (root w') = c1 ++ (i, k, v) :: c2 ->
  forall k', comparator w k' k <> Eq ->
    exists v', get u0 k' w = Ok (v', w) /\ get u0 k' w' = Ok (v', w').
Proof.
  intros S S' u0 w w' k i v c1 c2 I I' Ec E1 E2 k' Hk'.
  apply get_frame; auto.
  intros i1 k1 v1 Heq. rewrite E1, E2. symmetry. apply in_remove_middle.
  intros X. inversion X; subst. auto.
Qed.

(** Writing the key and value of the item of [k] leaves the other keys as
    they were. *)
Lemma write_frame : forall S S' (u0 : V) (w : World K V S) (w' : World K V S')
    k h k0 v0 gk gv,
  Inv w -> Inv w' -> comparator w' = comparator w ->
  In (h, k0, v0) (contents (root w)) -> comparator w k k0 = Eq ->
  comparator w (gk k0) k0 = Eq ->
  contents (root w') = map (writeItem h gk gv) (contents (root w)) ->
  forall k', comparator w k' k <> Eq ->
    exists v', get u0 k' w = Ok (v', w) /\ get u0 k' w' = Ok (v', w').
Proof.
  intros S S' u0 w w' k h k0 v0 gk gv I I' Ec Hin Hk Hg E k' Hk'.
  pose proof (inv_lawful I) as L.
  assert (Hk0 : comparator w k' k0 <> Eq).
  { intros X. apply Hk'. rewrite (cmp_eq_r L k k0 k' Hk). exact X. }
  assert (Huniq : forall k1 v1, In (h, k1, v1) (contents (root w)) -> k1 = k0 /\ v1 = v0).
  { intros k1 v1 H1. eapply (item_unique (contents (root w)) h); eauto.
    rewrite <- idsIn_contents. exact (inv_nodup I). }
  apply get_frame; auto.
  intros i1 k1 v1 Heq. rewrite E. rewrite in_map_iff. split.
  - intros Hin1. exists (i1, k1, v1). split; auto.
    unfold writeItem. simpl. destruct (Nat.eqb i1 h) eqn:Eh; auto.
    apply Nat.eqb_eq in Eh. subst i1.
    destruct (Huniq k1 v1 Hin1) as (-> & _). contradiction.
  - intros ([[i2 k2] v2] & Ew & Hin2). unfold writeItem in Ew. simpl in Ew.
    destruct (Nat.eqb i2 h) eqn:Eh.
    + apply Nat.eqb_eq in Eh. subst i2.
      destruct (Huniq k2 v2 Hin2) as (-> & ->).
      inversion Ew; subst. exfalso. apply Hk0.
      rewrite <- (cmp_eq_r L (gk k0) k0 k' Hg). exact Heq.
    + inversion Ew; subst. exact Hin2.
Qed.

End Frames.

(** ** Deletion, as a caller sees it *)

Section DeletionProperties.

Context {K V : Type}.
Implicit Types (n l r : Node K V) (f : Fields K V).

Lemma getEntry_inv : forall S (w : World K V S) k e,
  getEntry k w = Ok (e, w) -> getNode_from (comparator w) k (root w) = e.
Proof. intros S w k e E. unfold getEntry, getNode, gets in E. congruence. Qed.



(** X8.  [delete(key, condition?)] on a key the map does not hold returns
    [undefined] without calling the condition, and the map holds the same
    entries in the same order and answers every key as before. *)
Theorem delete_of_missing_key :
  forall S (u0 : V) (w : World K V S) (k : K) (condition : option (Condition K V S)),
    Reachable w ->
    getEntry k w = Ok (undefined, w) ->
    exists w',
      delete k condition w = Ok (undefined, w')
      /\ user w' = user w
      /\ contents (root w') = contents (root w)
      /\ (forall k', exists v, get u0 k' w = Ok (v, w) /\ get u0 k' w' = Ok (v, w')).
Proof.
  intros S u0 w k condition R Eg.
  pose proof (Reachable_Inv S w R) as I.
  apply getEntry_inv in Eg.
  destruct (deleteNode_spec S k condition w I) as (d & w' & E & I' & Rc & _ & Hg).
  rewrite Eg in Hg. unfold gate_post in Hg. destruct Hg as (-> & Ec & Hu).
  exists w'. split; [exact E|]. split; [exact Hu|]. split; [exact Ec|].
  intros k'. apply get_same_contents; auto.
Qed.

(** X9.  [delete(key, condition)] with a condition that refuses the entry: the
    condition is called once, on the entry of [key]; [delete] returns
    [undefined]; the map holds the same entries (identity, key and value)
    in the same order and answers every key as before. *)
Theorem delete_refused_keeps_the_entries :
  forall S (u0 : V) (w : World K V S) (k : K) (condition : Condition K V S) f l r,
    Reachable w ->
    getEntry k w = Ok (node f l r, w) ->
    fst (condition (node f l r) (user w)) = false ->
    exists w',
      delete k (Some condition) w = Ok (undefined, w')
      /\ user w' = snd (condition (node f l r) (user w))
      /\ contents (root w') = contents (root w)
      /\ (forall k', exists v, get u0 k' w = Ok (v, w) /\ get u0 k' w' = Ok (v, w')).
Proof.
  intros S u0 w k condition f l r R Eg Hc.
  pose proof (Reachable_Inv S w R) as I.
  apply getEntry_inv in Eg.
  destruct (deleteNode_spec S k (Some condition) w I) as (d & w' & E & I' & Rc & _ & Hg).
  rewrite Eg in Hg. unfold gate_post in Hg. simpl in Hg. rewrite Hc in Hg.
  destruct Hg as (Hu & -> & Ec).
  exists w'. split; [exact E|]. split; [exact Hu|]. split; [exact Ec|].
  intros k'. apply get_same_contents; auto.
Qed.




End DeletionProperties.

(** ** Insertion, as a caller sees it *)

Section InsertionProperties.

Context {K V : Type}.
Implicit Types (n l r : Node K V) (f : Fields K V).

Lemma ownedItems_contents : forall n,
  map fst (ownedItems n) = contents n.
Proof.
  induction n as [|f l IHl r IHr]; simpl; auto.
  rewrite map_app. simpl. congruence.
Qed.

Lemma balance_ownedItems : forall n n', balance n = Ok n' -> ownedItems n' = ownedItems n.
Proof.
  intros n n' E. destruct n as [|f l r]; simpl in E; [discriminate|].
  destruct (balanceFactor f <? -1).
  - destruct l as [|fl ll lr]; simpl in E; [discriminate|].
    inversion E; subst. simpl. rewrite <- !app_assoc. reflexivity.
  - destruct (balanceFactor f >? 1).
    + destruct r as [|fr rl rr]; simpl in E; [discriminate|].
      inversion E; subst. simpl. rewrite <- !app_assoc. reflexivity.
    + inversion E; subst. reflexivity.
Qed.

Lemma rebalance_ownedItems : forall f l r n',
  balance (update (node f l r)) = Ok n' ->
  ownedItems n' = ownedItems l ++ (nid f, key f, value f, sortedMap f) :: ownedItems r.
Proof. intros f l r n' E. apply balance_ownedItems in E. rewrite E. reflexivity. Qed.

#[local] Arguments balance : simpl never.
#[local] Arguments update : simpl never.

(** The back link of the node that [_getNodeOrCompute] creates is this map,
    and no other back link changes. *)
Lemma _getNodeOrCompute_owned : forall S n k (compute : S -> V * S) (w w' : World K V S) n' h,
  _getNodeOrCompute n k compute w = Ok ((n', h), w') ->
  (nextRef w' = nextRef w /\ ownedItems n' = ownedItems n)
  \/ (nextRef w' = Datatypes.S (nextRef w)
      /\ exists o1 o2, ownedItems n = o1 ++ o2
           /\ ownedItems n' =
              o1 ++ (nextRef w, k, fst (compute (user w)), Some (mapId w)) :: o2).
Proof.
  intros S n k compute. induction n as [|f l IHl r IHr]; intros w w' n' h E.
  - simpl in E. unfold bind, call, alloc, gets, ret in E.
    destruct (compute (user w)) as [v u]. simpl in E. inversion E; subst. simpl.
    right. split; [reflexivity|]. exists [], []. auto.
  - simpl in E. unfold bind at 1 in E. unfold gets at 1 in E. cbv beta iota in E.
    destruct (cmpLT (comparator w k (key f)));
      [|destruct (cmpGT (comparator w k (key f)))].
    + unfold bind at 1 in E.
      destruct (_getNodeOrCompute l k compute w) as [[[l' h'] w1]|] eqn:El; [|discriminate].
      cbv beta iota in E. unfold bind, liftRes, ret in E.
      destruct (balance (update (node f l' r))) as [n1|] eqn:Eb; [|discriminate].
      inversion E; subst. rewrite (rebalance_ownedItems f l' r n' Eb).
      destruct (IHl w w' l' h El) as [(En & Eo) | (En & o1 & o2 & E1 & E2)].
      * left. simpl. rewrite Eo. auto.
      * right. split; [exact En|].
        exists o1, (o2 ++ (nid f, key f, value f, sortedMap f) :: ownedItems r).
        simpl. rewrite E1, E2, <- !app_assoc. auto.
    + unfold bind at 1 in E.
      destruct (_getNodeOrCompute r k compute w) as [[[r' h'] w1]|] eqn:Er; [|discriminate].
      cbv beta iota in E. unfold bind, liftRes, ret in E.
      destruct (balance (update (node f l r'))) as [n1|] eqn:Eb; [|discriminate].
      inversion E; subst. rewrite (rebalance_ownedItems f l r' n' Eb).
      destruct (IHr w w' r' h Er) as [(En & Eo) | (En & o1 & o2 & E1 & E2)].
      * left. simpl. rewrite Eo. auto.
      * right. split; [exact En|].
        exists (ownedItems l ++ (nid f, key f, value f, sortedMap f) :: o1), o2.
        simpl. rewrite E1, E2, <- !app_assoc. auto.
    + unfold ret in E. inversion E; subst. left. auto.
Qed.

Lemma getNodeOrCompute_owned : forall S k (compute : S -> V * S) (w w' : World K V S) e,
  getNodeOrCompute k compute w = Ok (e, w') ->
  nextRef w' = Datatypes.S (nextRef w) ->
  In (nextRef w, k, fst (compute (user w)), Some (mapId w)) (ownedItems (root w')).
Proof.
  intros S k compute w w' e E Hn. unfold getNodeOrCompute in E.
  unfold bind at 1 in E. unfold gets at 1 in E. cbv beta iota in E.
  destruct (root w) as [|f0 l0 r0] eqn:Er.
  - unfold bind, call, alloc, gets, ret, modify_state in E.
    destruct (compute (user w)) as [v u]. simpl in E. inversion E; subst. simpl. auto.
  - unfold bind at 1 in E.
    destruct (_getNodeOrCompute (node f0 l0 r0) k compute w) as [[[n' h] w1]|] eqn:Eg;
      [|discriminate].
    cbv beta iota in E. unfold bind, modify_state, gets in E. inversion E; subst.
    simpl in *.
    destruct (_getNodeOrCompute_owned S (node f0 l0 r0) k compute w w1 n' h Eg)
      as [(En & _) | (_ & o1 & o2 & _ & E2)].
    + rewrite En in Hn. exfalso. clear - Hn. induction (nextRef w); congruence.
    + rewrite E2. apply in_or_app. simpl. auto.
Qed.

Lemma findNode_owned : forall h n f l r,
  findNode h n = node f l r ->
  In (nid f, key f, value f, sortedMap f) (ownedItems n).
Proof.
  intros h. induction n as [|f0 l0 IHl r0 IHr]; simpl; intros f l r E; [discriminate|].
  destruct (Nat.eqb (nid f0) h).
  - inversion E; subst. apply in_or_app. simpl. auto.
  - destruct (findNode h l0) as [|fx lx rx] eqn:El.
    + apply in_or_app. simpl. right. right. eapply IHr; eauto.
    + inversion E; subst. apply in_or_app. left. eapply IHl; eauto.
Qed.

Lemma owned_unique : forall n i k1 v1 o1 k2 v2 o2,
  NoDup (idsIn n) ->
  In (i, k1, v1, o1) (ownedItems n) -> In (i, k2, v2, o2) (ownedItems n) ->
  (k1, v1, o1) = (k2, v2, o2).
Proof.
  intros n i k1 v1 o1 k2 v2 o2 Hnd.
  rewrite idsIn_contents, <- ownedItems_contents, map_map in Hnd.
  revert Hnd. generalize (ownedItems n) as c.
  induction c as [|[[[i0 k0] v0] o0] c IH]; simpl; intros Hnd H1 H2; [contradiction|].
  inversion Hnd as [|? ? Hni Hnd']; subst.
  destruct H1 as [H1 | H1], H2 as [H2 | H2].
  - congruence.
  - inversion H1; subst. exfalso. apply Hni.
    apply in_map_iff. exists (i, k2, v2, o2). auto.
  - inversion H2; subst. exfalso. apply Hni.
    apply in_map_iff. exists (i, k1, v1, o1). auto.
  - auto.
Qed.

(** What [set] does to the items of the map, by whether the key is held. *)
Lemma set_effect : forall S k v replace (w : World K V S),
  Inv w ->
  exists fe le re w',
    set k v replace w = Ok (node fe le re, w')
    /\ Inv w' /\ comparator w' = comparator w /\ mapId w' = mapId w
    /\ user w' = user w
    /\ findNode (nid fe) (root w') = node fe le re
    /\ match getNode_from (comparator w) k (root w) with
       | node f0 _ _ =>
           nextRef w' = nextRef w
           /\ itemOf fe = (if replace then (nid f0, k, v) else itemOf f0)
           /\ contents (root w')
              = (if replace
                 then map (writeItem (nid f0) (fun _ => k) (fun _ => v)) (contents (root w))
                 else contents (root w))
       | undefined =>
           nextRef w' = Datatypes.S (nextRef w)
           /\ itemOf fe = (nextRef w, k, v)
           /\ sortedMap fe = Some (mapId w)
           /\ exists c1 c2, contents (root w) = c1 ++ c2
                /\ contents (root w') = c1 ++ (nextRef w, k, v) :: c2
       end.
Proof.
  intros S k v replace w I.
  pose proof (Inv_set_user S (bool * S) (false, user w) w I) as I0.
  destruct (getNodeOrCompute_spec (bool * S) k
              (fun u : bool * S => (v, (true, snd u))) _ I0)
    as (e & w1 & E & I1 & R2 & R3 & f & l & r & Ee & Ef & Hk & Hcase).
  simpl in R2, R3, Hk. subst e.
  pose proof (getNodeOrCompute_owned _ k _ _ w1 _ E) as Hown.
  unfold set, bind, with_local. rewrite E. cbv beta iota.
  destruct Hcase as [Hf | (Hi & Ekey & Eval)].
  - destruct Hf as ((k0 & v0 & Hin0 & Hk0) & Ec & En & Eu). simpl in Eu, Ec, Hin0, Hk0, En.
    rewrite Eu. simpl.
    destruct (getNode_from_found (comparator w) k (root w) (nid f) k0 v0
                (inv_lawful I) (inv_bst I) Hin0 Hk0) as (f0 & l0 & r0 & Eg & Eit).
    rewrite Eg.
    assert (Ei0 : nid f0 = nid f) by (unfold itemOf in Eit; congruence).
    assert (Ek0 : key f0 = k0) by (unfold itemOf in Eit; congruence).
    assert (Ev0 : value f0 = v0) by (unfold itemOf in Eit; congruence).
    assert (Hitem : itemOf f = (nid f, k0, v0)).
    { destruct (findNode_item _ _ _ _ _ Ef) as (_ & Hin & _). rewrite Ec in Hin.
      assert (X : key f = k0 /\ value f = v0).
      { apply (item_unique (contents (root w)) (nid f)); auto.
        rewrite <- idsIn_contents. exact (inv_nodup I). }
      destruct X as (X1 & X2). unfold itemOf. congruence. }
    destruct replace; simpl.
    + unfold modify_state, gets. simpl.
      set (g := fun g0 : Fields K V => set_value (set_key g0 k) v).
      assert (Hg : fieldWrite g) by apply fieldWrite_set_both.
      rewrite (findNode_modify (nid f) g (root w1) f l r Hg Ef).
      assert (I2 : Inv (set_root (modify (nid f) g (root w1)) (set_user (user w) w1))).
      { apply (Inv_modify S (set_user (user w) w1) (nid f) g); auto.
        - apply Inv_set_user; auto.
        - simpl. intros f1 E1 Hin1.
          destruct (findNode_item _ _ _ _ _ Ef) as (_ & Hin & _).
          assert (key f1 = key f /\ value f1 = value f).
          { eapply (item_unique (contents (root w1)) (nid f)).
            - rewrite <- idsIn_contents. exact (inv_nodup I1).
            - unfold itemOf in Hin1. rewrite E1 in Hin1. exact Hin1.
            - exact Hin. }
          destruct H as (-> & _). rewrite R2. exact Hk. }
      eexists _, _, _, _. split; [reflexivity|]. split; [exact I2|].
      simpl. split; [exact R2|]. split; [exact R3|]. split; [reflexivity|].
      split; [apply (findNode_modify (nid f) g (root w1) f l r Hg Ef)|].
      split; [exact En|]. split; [unfold itemOf; simpl; congruence|].
      rewrite <- Ec, Ei0.
      apply contents_modify. intros f1. simpl. auto.
    + eexists _, _, _, _. split; [reflexivity|].
      split; [apply Inv_set_user; auto|]. simpl.
      split; [exact R2|]. split; [exact R3|]. split; [reflexivity|].
      split; [exact Ef|]. split; [exact En|].
      split; [unfold itemOf in *; congruence | exact Ec].
  - destruct Hi as (Hno & Hh & Hnx & Hu & c1 & c2 & E1 & E2).
    simpl in Hu, Hno, Hh, Hnx, E1, E2, Ekey, Eval. rewrite Hu. simpl.
    rewrite (getNode_from_absent (comparator w) k (root w) Hno).
    eexists _, _, _, _. split; [reflexivity|].
    split; [apply Inv_set_user; auto|]. simpl.
    split; [exact R2|]. split; [exact R3|]. split; [reflexivity|].
    split; [exact Ef|]. split; [exact Hnx|].
    split; [unfold itemOf; congruence|].
    split; [|exists c1, c2; split; [exact E1 | rewrite E2, Hh; reflexivity]].
    specialize (Hown Hnx). simpl in Hown.
    pose proof (findNode_owned _ _ _ _ _ Ef) as Hown'.
    rewrite Hh in Hown'.
    pose proof (owned_unique (root w1) (nextRef w) _ _ _ _ _ _ (inv_nodup I1) Hown' Hown) as X.
    inversion X. reflexivity.
Qed.

End InsertionProperties.

(** ** set and getOrCompute, as a caller sees them *)

Section SetAndCompute.

Context {K V : Type}.
Implicit Types (n l r : Node K V) (f : Fields K V).

(** X5.  [set(key, value, replace)] changes the answer for no key but [key]:
    every key that the comparator tells apart from [key] is answered by
    [get] as before; and with [replace = false] on a key the map holds, the
    key itself is answered as before too. *)
Theorem set_leaves_the_other_keys :
  forall S (u0 : V) (w : World K V S) (k : K) (v : V) (replace : bool),
    Reachable w ->
    exists e w',
      set k v replace w = Ok (e, w')
      /\ (forall k', comparator w k' k <> Eq ->
            exists v', get u0 k' w = Ok (v', w) /\ get u0 k' w' = Ok (v', w'))
      /\ (replace = false ->
          forall f l r, getEntry k w = Ok (node f l r, w) ->
            get u0 k w' = Ok (value f, w')
            /\ contents (root w') = contents (root w)).
Proof.
  intros S u0 w k v replace R. pose proof (Reachable_Inv S w R) as I.
  destruct (set_effect S k v replace w I)
    as (fe & le & re & w' & E & I' & Rc & _ & _ & _ & Hm).
  exists (node fe le re), w'. split; [exact E|].
  destruct (getNode_from (comparator w) k (root w)) as [|f0 l0 r0] eqn:Eg.
  - destruct Hm as (_ & _ & _ & c1 & c2 & E1 & E2). split.
    + intros k' Hk'.
      apply (insertion_frame S S u0 w w' k (nextRef w) v c1 c2 I I' Rc E1 E2 k' Hk').
    + intros _ f l r Ee. apply getEntry_inv in Ee. congruence.
  - destruct Hm as (_ & _ & Ec).
    pose proof (getNode_from_item _ _ _ _ _ _ Eg) as (Hk & Hin).
    split.
    + intros k' Hk'. destruct replace.
      * apply (write_frame S S u0 w w' k (nid f0) (key f0) (value f0)
                 (fun _ => k) (fun _ => v) I I' Rc Hin Hk Hk Ec k' Hk').
      * apply get_same_contents; auto.
    + intros -> f l r Ee. apply getEntry_inv in Ee. rewrite Eg in Ee.
      inversion Ee; subst f0 l0 r0. split; [|exact Ec].
      apply (get_present S u0 w' k (nid f) (key f) (value f) I').
      * rewrite Ec. exact Hin.
      * rewrite Rc. exact Hk.
Qed.

Lemma iterator_ids : forall n f l r,
  In (node f l r) (_iterator n) -> In (nid f) (idsIn n).
Proof.
  induction n as [|f0 l0 IHl r0 IHr]; simpl; intros f l r Hin; [contradiction|].
  apply in_app_or in Hin. apply in_or_app.
  destruct Hin as [Hin | [Hin | Hin]].
  - left. eapply IHl; eauto.
  - inversion Hin; subst. simpl. auto.
  - right. simpl. right. eapply IHr; eauto.
Qed.

(** With identities that are all different, a node of the tree is what
    its own identity refers to. *)
Lemma findNode_subtree : forall n f l r,
  NoDup (idsIn n) -> In (node f l r) (_iterator n) ->
  findNode (nid f) n = node f l r.
Proof.
  induction n as [|f0 l0 IHl r0 IHr]; simpl; intros f l r Hnd Hin; [contradiction|].
  assert (Hndl : NoDup (idsIn l0)) by (apply NoDup_app_remove_r in Hnd; exact Hnd).
  assert (Hndr : NoDup (idsIn r0)).
  { apply NoDup_app_remove_l in Hnd. inversion Hnd; auto. }
  assert (Hmid : ~ In (nid f0) (idsIn l0 ++ idsIn r0)) by (apply NoDup_remove_2 in Hnd; exact Hnd).
  apply in_app_or in Hin. destruct Hin as [Hin | [Hin | Hin]].
  - pose proof (iterator_ids l0 f l r Hin) as Hid.
    destruct (Nat.eqb (nid f0) (nid f)) eqn:Eh.
    + apply Nat.eqb_eq in Eh. exfalso. apply Hmid. rewrite Eh. apply in_or_app. auto.
    + rewrite (IHl f l r Hndl Hin). reflexivity.
  - inversion Hin; subst. rewrite Nat.eqb_refl. reflexivity.
  - pose proof (iterator_ids r0 f l r Hin) as Hid.
    destruct (Nat.eqb (nid f0) (nid f)) eqn:Eh.
    + apply Nat.eqb_eq in Eh. exfalso. apply Hmid. rewrite Eh. apply in_or_app. auto.
    + rewrite (findNode_fresh (nid f) l0).
      * apply IHr; auto.
      * intros Hl. clear - Hnd Hl Hid.
        induction (idsIn l0) as [|a ids IH]; simpl in *; [contradiction|].
        inversion Hnd as [|? ? Hna Hnd2]; subst.
        destruct Hl as [-> | Hl]; [|auto].
        apply Hna. apply in_or_app. simpl. auto.
Qed.

Lemma getNode_from_in_iterator : forall (cmp : Comparator K) k n f l r,
  getNode_from cmp k n = node f l r -> In (node f l r) (_iterator n).
Proof.
  intros cmp k. induction n as [|f0 l0 IHl r0 IHr]; simpl; intros f l r E; [discriminate|].
  apply in_or_app. destruct (cmp k (key f0)); simpl in E.
  - inversion E; subst. simpl. auto.
  - left. eapply IHl; eauto.
  - right. simpl. right. eapply IHr; eauto.
Qed.

(** X4.  [set] on a key the map does not hold creates one entry: the handle it
    returns holds the key and the value, belongs to this map, and is what
    [getEntry(key)] then finds; the map holds one item more, the others in
    their order. *)
Theorem set_of_new_key_creates_an_owned_entry :
  forall S (u0 : V) (w : World K V S) (k : K) (v : V) (replace : bool),
    Reachable w ->
    getEntry k w = Ok (undefined, w) ->
    exists fe le re w',
      set k v replace w = Ok (node fe le re, w')
      /\ key fe = k /\ value fe = v
      /\ sortedMap fe = Some (mapId w')
      /\ nid fe = nextRef w
      /\ get u0 k w' = Ok (v, w')
      /\ getEntry k w' = Ok (node fe le re, w')
      /\ exists c1 c2, contents (root w) = c1 ++ c2
           /\ contents (root w') = c1 ++ (nid fe, k, v) :: c2.
Proof.
  intros S u0 w k v replace R Ee. pose proof (Reachable_Inv S w R) as I.
  apply getEntry_inv in Ee.
  destruct (set_effect S k v replace w I)
    as (fe & le & re & w' & E & I' & Rc & Rm & _ & Ef & Hm).
  rewrite Ee in Hm. destruct Hm as (_ & Eit & Eo & c1 & c2 & E1 & E2).
  assert (Ei : nid fe = nextRef w) by (unfold itemOf in Eit; congruence).
  assert (Ek : key fe = k) by (unfold itemOf in Eit; congruence).
  assert (Ev : value fe = v) by (unfold itemOf in Eit; congruence).
  exists fe, le, re, w'. split; [exact E|].
  split; [exact Ek|]. split; [exact Ev|].
  split; [rewrite Rm; exact Eo|]. split; [exact Ei|].
  assert (Hin : In (nid fe, k, v) (contents (root w'))).
  { rewrite E2, Ei. apply in_or_app. simpl. auto. }
  assert (Hk : comparator w' k k = Eq) by apply (cmp_refl (inv_lawful I')).
  split; [apply (get_present S u0 w' k (nid fe) k v I' Hin Hk)|].
  split.
  - destruct (getNode_from_found (comparator w') k (root w') (nid fe) k v
                (inv_lawful I') (inv_bst I') Hin Hk) as (f' & l' & r' & Eg & Eit').
    pose proof (findNode_subtree (root w') f' l' r' (inv_nodup I')
                  (getNode_from_in_iterator _ _ _ _ _ _ Eg)) as Ef'.
    assert (Eid : nid f' = nid fe) by (unfold itemOf in Eit'; congruence).
    rewrite Eid, Ef in Ef'.
    unfold getEntry, getNode, gets. rewrite Eg, <- Ef'. reflexivity.
  - exists c1, c2. split; [exact E1|]. rewrite E2, Ei. reflexivity.
Qed.

End SetAndCompute.

(** ** Writes through a handle, getOrCompute *)

Section HandleWrites.

Context {K V : Type}.
Implicit Types (n l r : Node K V) (f : Fields K V).

Lemma deref_of_entry : forall S (w : World K V S) k f l r,
  Inv w -> getEntry k w = Ok (node f l r, w) ->
  derefIn (root w) (node f l r) = node f l r
  /\ In (itemOf f) (contents (root w)) /\ comparator w k (key f) = Eq.
Proof.
  intros S w k f l r I E. apply getEntry_inv in E.
  pose proof (getNode_from_item _ _ _ _ _ _ E) as (Hk & Hin).
  split; [|auto]. unfold derefIn.
  rewrite (findNode_subtree (root w) f l r (inv_nodup I)
             (getNode_from_in_iterator _ _ _ _ _ _ E)). reflexivity.
Qed.

(** X13.  [reValue] on the entry that [getEntry(key)] returned, when the entry's
    back link is this map: it returns true, [get(key)] then returns the new
    value, and every other key is answered as before. *)
Theorem reValue_writes_through_the_handle :
  forall S (u0 : V) (w : World K V S) (k : K) f l r (newValue : V),
    Reachable w ->
    getEntry k w = Ok (node f l r, w) ->
    sortedMap f = Some (mapId w) ->
    exists w',
      reValue (node f l r) newValue w = Ok ((true, node (set_value f newValue) l r), w')
      /\ get u0 k w' = Ok (newValue, w')
      /\ keysIn (root w') = keysIn (root w)
      /\ (forall k', comparator w k' k <> Eq ->
            exists v, get u0 k' w = Ok (v, w) /\ get u0 k' w' = Ok (v, w')).
Proof.
  intros S u0 w k f l r newValue R Ee Ho. pose proof (Reachable_Inv S w R) as I.
  destruct (deref_of_entry S w k f l r I Ee) as (Ed & Hin & Hk).
  pose proof (reValue_eq S f l r newValue w f l r Ed) as E.
  rewrite (proj2 (ownedBy_iff (mapId w) f l r) Ho) in E.
  set (g := fun g0 : Fields K V => set_value g0 newValue) in *.
  assert (Ec : contents (modify (nid f) g (root w))
               = map (writeItem (nid f) (fun x => x) (fun _ => newValue)) (contents (root w))).
  { apply contents_modify. intros f1. simpl. auto. }
  assert (I' : Inv (set_root (modify (nid f) g (root w)) w)).
  { apply Inv_modify; auto.
    - apply fieldWrite_set_value.
    - simpl. intros f1 _ _. apply (cmp_refl (inv_lawful I)). }
  eexists. split; [exact E|]. split; [|split].
  - apply (get_present S u0 _ k (nid f) (key f) newValue I'); [|exact Hk].
    simpl. rewrite Ec. apply in_map_iff. exists (itemOf f). split; auto.
    unfold writeItem, itemOf. simpl. rewrite Nat.eqb_refl. reflexivity.
  - simpl. rewrite !keysIn_contents, Ec, map_map. apply map_ext.
    intros [[i k0] v0]. unfold writeItem. simpl. destruct (Nat.eqb i (nid f)); reflexivity.
  - intros k' Hk'.
    apply (write_frame S S u0 w _ k (nid f) (key f) (value f)
             (fun x => x) (fun _ => newValue) I I' eq_refl Hin Hk
             (cmp_refl (inv_lawful I) (key f)) Ec k' Hk').
Qed.

(** X14.  [reKey] on the entry that [getEntry(key)] returned, when the entry's
    back link is this map and the new key compares equal to the entry's
    key: it returns true, the entry holds the new key and its old value,
    [get] of the new key returns that value, and every other key is
    answered as before. *)
Theorem reKey_writes_through_the_handle :
  forall S (u0 : V) (w : World K V S) (k : K) f l r (newKey : K),
    Reachable w ->
    getEntry k w = Ok (node f l r, w) ->
    sortedMap f = Some (mapId w) ->
    comparator w newKey (key f) = Eq ->
    exists w',
      reKey (node f l r) newKey w = Ok ((true, node (set_key f newKey) l r), w')
      /\ get u0 newKey w' = Ok (value f, w')
      /\ (exists f' l' r', getEntry newKey w' = Ok (node f' l' r', w')
                           /\ itemOf f' = (nid f, newKey, value f))
      /\ (forall k', comparator w k' k <> Eq ->
            exists v, get u0 k' w = Ok (v, w) /\ get u0 k' w' = Ok (v, w')).
Proof.
  intros S u0 w k f l r newKey R Ee Ho Hnew. pose proof (Reachable_Inv S w R) as I.
  destruct (deref_of_entry S w k f l r I Ee) as (Ed & Hin & Hk).
  pose proof (reKey_eq S f l r newKey w f l r Ed) as E.
  rewrite (proj2 (ownedBy_iff (mapId w) f l r) Ho) in E.
  rewrite (proj2 (cmpNQ_iff _) Hnew) in E. simpl in E.
  set (g := fun g0 : Fields K V => set_key g0 newKey) in *.
  assert (Ec : contents (modify (nid f) g (root w))
               = map (writeItem (nid f) (fun _ => newKey) (fun x => x)) (contents (root w))).
  { apply contents_modify. intros f1. simpl. auto. }
  assert (I' : Inv (set_root (modify (nid f) g (root w)) w)).
  { apply Inv_modify; auto.
    - apply fieldWrite_set_key.
    - simpl. intros f1 E1 Hin1.
      assert (X : key f1 = key f /\ value f1 = value f).
      { apply (item_unique (contents (root w)) (nid f)); auto.
        - rewrite <- idsIn_contents. exact (inv_nodup I).
        - unfold itemOf in Hin1. rewrite E1 in Hin1. exact Hin1. }
      destruct X as (-> & _). exact Hnew. }
  assert (Hin' : In (nid f, newKey, value f) (contents (root (set_root (modify (nid f) g (root w)) w)))).
  { simpl. rewrite Ec. apply in_map_iff. exists (itemOf f). split; auto.
    unfold writeItem, itemOf. simpl. rewrite Nat.eqb_refl. reflexivity. }
  assert (Hrefl : comparator (set_root (modify (nid f) g (root w)) w) newKey newKey = Eq)
    by apply (cmp_refl (inv_lawful I)).
  destruct (get_present S u0 _ newKey (nid f) newKey (value f) I' Hin' Hrefl) as (G1 & G2).
  eexists. split; [exact E|]. split; [exact G1|]. split; [exact G2|].
  intros k' Hk'.
  apply (write_frame S S u0 w _ k (nid f) (key f) (value f)
           (fun _ => newKey) (fun x => x) I I' eq_refl Hin Hk Hnew Ec k' Hk').
Qed.

(** X6.  [getOrCompute(key, compute)]: when the map holds the key it returns the
    stored value, does not call [compute] and keeps every item; when it
    does not, it calls [compute] once, returns and stores its result under
    the key, so that [get(key)] returns it; in both cases every other key
    is answered as before. *)
Theorem getOrCompute_computes_only_when_missing :
  forall S (u0 : V) (w : World K V S) (k : K) (compute : S -> V * S),
    Reachable w ->
    exists v w',
      getOrCompute k compute w = Ok (v, w')
      /\ get u0 k w' = Ok (v, w')
      /\ (forall f l r, getEntry k w = Ok (node f l r, w) ->
            v = value f /\ user w' = user w
            /\ contents (root w') = contents (root w))
      /\ (getEntry k w = Ok (undefined, w) ->
            v = fst (compute (user w)) /\ user w' = snd (compute (user w))
            /\ exists c1 c2, contents (root w) = c1 ++ c2
                 /\ contents (root w') = c1 ++ (nextRef w, k, v) :: c2)
      /\ (forall k', comparator w k' k <> Eq ->
            exists v', get u0 k' w = Ok (v', w) /\ get u0 k' w' = Ok (v', w')).
Proof.
  intros S u0 w k compute R. pose proof (Reachable_Inv S w R) as I.
  destruct (getNodeOrCompute_spec S k compute w I)
    as (e & w' & E & I' & Rc & _ & f & l & r & -> & Ef & Hk & Hcase).
  exists (value f), w'.
  split; [unfold getOrCompute, bind, ret; rewrite E; reflexivity|].
  destruct (findNode_item _ _ _ _ _ Ef) as (_ & Hinf & _).
  split.
  { apply (get_present S u0 w' k (nid f) (key f) (value f) I' Hinf).
    rewrite Rc. exact Hk. }
  destruct Hcase as [Hf | (Hi & Ekey & Eval)].
  - destruct Hf as ((k0 & v0 & Hin0 & Hk0) & Ec & En & Eu).
    split; [|split].
    + intros f0 l0 r0 Ee. apply getEntry_inv in Ee.
      pose proof (getNode_from_item _ _ _ _ _ _ Ee) as (Hk' & Hin').
      rewrite Ec in Hinf.
      pose proof (held_once S w k (nid f) (key f) (value f) (nid f0) (key f0) (value f0)
                    I Hinf Hk Hin' Hk') as X.
      inversion X as [[X1 X2 X3]]. rewrite X3. auto.
    + intros Ee. exfalso. apply getEntry_inv in Ee.
      pose proof (getNode_from_undefined _ k _ (inv_lawful I) (inv_bst I) Ee) as HF.
      rewrite Forall_forall in HF. apply (HF k0); auto.
      eapply in_contents_keys; eauto.
    + intros k' Hk'. apply get_same_contents; auto.
  - destruct Hi as (Hno & Hh & Hnx & Hu & c1 & c2 & E1 & E2).
    split; [|split].
    + intros f0 l0 r0 Ee. exfalso. apply getEntry_inv in Ee.
      pose proof (getNode_from_item _ _ _ _ _ _ Ee) as (Hk' & Hin').
      rewrite Forall_forall in Hno. apply (Hno (key f0)); auto.
      eapply in_contents_keys; eauto.
    + intros _. split; [exact Eval|]. split; [exact Hu|].
      exists c1, c2. split; [exact E1|]. rewrite E2, Hh, Eval. reflexivity.
    + intros k' Hk'.
      apply (insertion_frame S S u0 w w' k (nid f) (fst (compute (user w))) c1 c2
               I I' Rc E1 E2 k' Hk').
Qed.

End HandleWrites.

(** ** reverse and clear, as a caller sees them *)

Section ReverseAndClear.

Context {K V : Type}.
Implicit Types (n l r : Node K V) (f : Fields K V).

(** X15.  [reverse()] turns the order of iteration around and changes the answer
    of [get] for no key. *)
Theorem reverse_turns_the_order_and_keeps_lookups :
  forall S (u0 : V) (w : World K V S),
    Reachable w ->
    exists w',
      reverse w = Ok (tt, w')
      /\ keysIn (root w') = rev (keysIn (root w))
      /\ contents (root w') = rev (contents (root w))
      /\ StronglySorted (fun a b => comparator w' a b = Lt) (keysIn (root w'))
      /\ (forall a b, comparator w' a b = CompOpp (comparator w a b))
      /\ (forall k, exists v, get u0 k w = Ok (v, w) /\ get u0 k w' = Ok (v, w')).
Proof.
  intros S u0 w R. pose proof (Reachable_Inv S w R) as I.
  destruct (reverse_Inv S w I) as (w' & E & I' & Er & Ec).
  exists w'. split; [exact E|].
  split; [rewrite Er; apply keysIn_invert|].
  split; [rewrite Er; apply contents_invert|].
  split; [apply bst_sorted; [exact (inv_lawful I') | exact (inv_bst I')]|].
  split; [intros a b; rewrite Ec; reflexivity|].
  intros k.
  destruct (getNode_from (comparator w) k (root w)) as [|f l r] eqn:Eg.
  - pose proof (getNode_from_undefined _ k _ (inv_lawful I) (inv_bst I) Eg) as HF.
    exists u0. split; [apply get_absent; exact HF|].
    apply get_absent. rewrite Er, keysIn_invert, Ec. apply Forall_rev.
    eapply Forall_impl; [|exact HF]. simpl. intros a Ha. unfold reverseComparator.
    destruct (comparator w k a); simpl; congruence.
  - apply getNode_from_item in Eg. destruct Eg as (Hk & Hin).
    exists (value f). split.
    + apply (get_present S u0 w k (nid f) (key f) (value f) I Hin Hk).
    + apply (get_present S u0 w' k (nid f) (key f) (value f) I').
      * rewrite Er, contents_invert. apply -> in_rev. exact Hin.
      * rewrite Ec. unfold reverseComparator. rewrite Hk. reflexivity.
Qed.

Lemma refresh_consistent : forall n,
  consistentBalanceFactors n -> refreshBalanceFactors n = n.
Proof.
  induction n as [|f l IHl r IHr]; simpl; auto.
  intros (E & Hl & Hr). rewrite IHl, IHr by auto. rewrite <- E.
  destruct f; reflexivity.
Qed.

Lemma sameShape_refresh_but_bf : forall n,
  keysIn (refreshBalanceFactors n) = keysIn n
  /\ _iterator (refreshBalanceFactors n)
     = map (@refreshBalanceFactors K V) (_iterator n).
Proof.
  induction n as [|f l IHl r IHr]; simpl; auto.
  destruct IHl as (Hl1 & Hl2). destruct IHr as (Hr1 & Hr2).
  rewrite Hl1, Hr1, Hl2, Hr2, map_app. auto.
Qed.

(** X16.  [reverse(); reverse()] gives back the tree with the same links, keys,
    values, identities, back links, depths and counts, and a comparator
    that orders as the original one; each cached balance factor is
    recomputed from the cached depths of the children, so the tree is
    exactly the original one whenever its balance factors were consistent
    with those depths. *)
Theorem reverse_twice_recomputes_balance_factors :
  forall S (w : World K V S),
    exists w',
      (reverse ;;; reverse) w = Ok (tt, w')
      /\ root w' = refreshBalanceFactors (root w)
      /\ contents (root w') = contents (root w)
      /\ ownersIn (root w') = ownersIn (root w)
      /\ (forall a b, comparator w' a b = comparator w a b)
      /\ mapId w' = mapId w /\ nextRef w' = nextRef w /\ user w' = user w
      /\ (consistentBalanceFactors (root w) -> root w' = root w).
Proof.
  intros S w. eexists. split; [reflexivity|]. simpl.
  split; [apply invert_invert|].
  split; [rewrite invert_invert; apply contents_refresh|].
  split; [rewrite !ownersIn_invert; apply rev_involutive|].
  split; [intros a b; unfold reverseComparator; destruct (comparator w a b); reflexivity|].
  split; [reflexivity|]. split; [reflexivity|]. split; [reflexivity|].
  intros Hc. rewrite invert_invert. apply refresh_consistent. exact Hc.
Qed.

Lemma emancipateAll_length : forall n,
  length (_emancipateAllNodes n) = length (_iterator n).
Proof.
  induction n as [|f l IHl r IHr]; simpl; auto.
  rewrite !length_app. simpl. lia.
Qed.

(** X17.  [clear()] empties the map: afterwards the size is 0, the iteration is
    empty and [get] returns [undefined] for every key; one object per
    former entry is emancipated, and [reKey] and [reValue] through the
    handle of any of them return false and change nothing. *)
Theorem clear_empties_the_map_and_its_handles :
  forall S (u0 : V) (w : World K V S),
    exists es w',
      clear w = Ok (es, w')
      /\ root w' = undefined
      /\ size w' = Ok (0, w')
      /\ iterator w' = Ok ([], w')
      /\ (forall k, get u0 k w' = Ok (u0, w') /\ getEntry k w' = Ok (undefined, w'))
      /\ length es = length (_iterator (root w))
      /\ (forall e newKey newValue, In e es ->
            reKey e newKey w' = Ok ((false, e), w')
            /\ reValue e newValue w' = Ok ((false, e), w')).
Proof.
  intros S u0 w. eexists _, _. split; [reflexivity|]. simpl.
  split; [reflexivity|]. split; [reflexivity|]. split; [reflexivity|].
  split; [intros k; split; reflexivity|].
  split; [apply emancipateAll_length|].
  intros e newKey newValue Hin.
  destruct (emancipateAll_owner (root w) e Hin) as (f & -> & Ho).
  assert (Ed : derefIn (root (set_root undefined w)) (node f undefined undefined)
               = node f undefined undefined) by reflexivity.
  rewrite (reKey_eq S f undefined undefined newKey _ f undefined undefined Ed).
  rewrite (reValue_eq S f undefined undefined newValue _ f undefined undefined Ed).
  simpl. rewrite Ho. simpl. auto.
Qed.

End ReverseAndClear.

(** ** Ranges with any bounds, rotations *)

Section RangeSoundness.

Context {K V : Type}.
Implicit Types (n l r : Node K V) (f : Fields K V).

Lemma recur_incl : forall cmp min max rev n e,
  In e (recur cmp min max rev n) ->
  In e (_iterator n) /\ inRange cmp min max e = true.
Proof.
  intros cmp min max rev. induction n as [|f l IHl r IHr]; simpl; intros e Hin;
    [contradiction|].
  rewrite tooSmallAt_satisfiesMin, tooBigAt_satisfiesMax, !negb_involutive in Hin.
  assert (Hcases : (satisfiesMin cmp min (key f) = true /\ In e (recur cmp min max rev l))
                   \/ (satisfiesMax cmp max (key f) && satisfiesMin cmp min (key f) = true
                       /\ e = node f l r)
                   \/ (satisfiesMax cmp max (key f) = true /\ In e (recur cmp min max rev r))).
  { destruct rev; repeat (apply in_app_or in Hin; destruct Hin as [Hin | Hin]);
      destruct (satisfiesMin cmp min (key f)), (satisfiesMax cmp max (key f));
      simpl in Hin; try contradiction; auto;
      destruct Hin as [<- | []]; auto. }
  destruct Hcases as [(_ & H) | [(Hb & ->) | (_ & H)]].
  - destruct (IHl e H). split; auto. apply in_or_app. auto.
  - split; [apply in_or_app; simpl; auto|]. simpl.
    rewrite andb_comm. exact Hb.
  - destruct (IHr e H). split; auto. apply in_or_app. simpl. auto.
Qed.

Lemma keysOf_incl : forall (es es' : list (Node K V)) x,
  (forall e, In e es -> In e es') -> In x (keysOf es) -> In x (keysOf es').
Proof.
  intros es es' x H Hx.
  assert (Hex : forall l : list (Node K V), In x (keysOf l) <->
                  exists f a b, In (node f a b) l /\ key f = x).
  { induction l as [|[|f a b] l IH]; simpl.
    - split; [contradiction | intros (? & ? & ? & [] & _)].
    - rewrite IH. split; intros (f & a & b & Hin & E); exists f, a, b; split; auto.
      destruct Hin as [Hin | Hin]; [discriminate | auto].
    - split.
      + intros [<- | Hin]; [exists f, a, b; auto|].
        apply IH in Hin. destruct Hin as (f' & a' & b' & Hin & E). exists f', a', b'. auto.
      + intros (f' & a' & b' & [Hin | Hin] & E).
        * inversion Hin; subst. auto.
        * right. apply IH. exists f', a', b'. auto. }
  apply Hex in Hx. destruct Hx as (f & a & b & Hin & E).
  apply Hex. exists f, a, b. auto.
Qed.

Lemma recur_sorted : forall (cmp : Comparator K) min max (rev : bool) n,
  Lawful cmp -> bst cmp n ->
  StronglySorted (fun a b => (if rev then cmp b a else cmp a b) = Lt)
    (keysOf (recur cmp min max rev n)).
Proof.
  intros cmp min max rev n L. induction n as [|f l IHl r IHr]; simpl; [constructor|].
  intros (Fl & Fr & Bl & Br).
  assert (Hl : forall x, In x (keysOf (recur cmp min max rev l)) -> cmp x (key f) = Lt).
  { intros x Hx. rewrite Forall_forall in Fl. apply Fl.
    rewrite <- keysOf_iterator.
    eapply keysOf_incl; [|exact Hx]. intros e He. apply (recur_incl _ _ _ _ _ _ He). }
  assert (Hr : forall x, In x (keysOf (recur cmp min max rev r)) -> cmp (key f) x = Lt).
  { intros x Hx. apply (cmp_gt_lt L). rewrite Forall_forall in Fr. apply Fr.
    rewrite <- keysOf_iterator.
    eapply keysOf_incl; [|exact Hx]. intros e He. apply (recur_incl _ _ _ _ _ _ He). }
  set (A := if negb (tooSmallAt cmp min (key f)) then recur cmp min max rev l else []).
  set (B := if negb (tooBigAt cmp max (key f)) && negb (tooSmallAt cmp min (key f))
            then [node f l r] else []).
  set (C := if negb (tooBigAt cmp max (key f)) then recur cmp min max rev r else []).
  assert (HA : StronglySorted (fun a b => (if rev then cmp b a else cmp a b) = Lt) (keysOf A)
               /\ forall x, In x (keysOf A) -> cmp x (key f) = Lt).
  { unfold A. destruct (negb (tooSmallAt cmp min (key f))); simpl; auto.
    split; [constructor | contradiction]. }
  assert (HC : StronglySorted (fun a b => (if rev then cmp b a else cmp a b) = Lt) (keysOf C)
               /\ forall x, In x (keysOf C) -> cmp (key f) x = Lt).
  { unfold C. destruct (negb (tooBigAt cmp max (key f))); simpl; auto.
    split; [constructor | contradiction]. }
  assert (HB : StronglySorted (fun a b => (if rev then cmp b a else cmp a b) = Lt) (keysOf B)
               /\ forall x, In x (keysOf B) -> x = key f).
  { unfold B. destruct (negb (tooBigAt cmp max (key f)) && negb (tooSmallAt cmp min (key f)));
      simpl.
    - split; [repeat constructor | intros x [<- | []]; reflexivity].
    - split; [constructor | contradiction]. }
  destruct HA as (SA & FA). destruct HB as (SB & FB). destruct HC as (SC & FC).
  destruct rev; rewrite !keysOf_app.
  - apply StronglySorted_app; [exact SC | apply StronglySorted_app; [exact SB | exact SA |] |].
    + intros a b Ha Hb. rewrite (FB a Ha). apply FA. exact Hb.
    + intros a b Ha Hb. apply in_app_or in Hb. destruct Hb as [Hb | Hb].
      * rewrite (FB b Hb). apply FC. exact Ha.
      * apply (cmp_trans L b (key f) a); auto.
  - apply StronglySorted_app; [exact SA | apply StronglySorted_app; [exact SB | exact SC |] |].
    + intros a b Ha Hb. rewrite (FB a Ha). apply FC. exact Hb.
    + intros a b Ha Hb. apply in_app_or in Hb. destruct Hb as [Hb | Hb].
      * rewrite (FB b Hb). apply FA. exact Ha.
      * apply (cmp_trans L a (key f) b); auto.
Qed.

(** X18.  Whatever the bounds, predicates that are not monotone included,
    [getRange] yields only entries of the map whose keys satisfy both
    bounds, each at most once and in strictly ascending key order
    (descending when [reversed]); with no bound at all it yields the whole
    iteration. *)
Theorem getRange_yields_only_entries_in_range :
  forall S (w : World K V S) (min max : Bound K) (rev : bool),
    Reachable w ->
    exists es,
      getRange min max rev w = Ok (es, w)
      /\ Forall (fun e => In e (_iterator (root w))
                          /\ inRange (comparator w) min max e = true) es
      /\ StronglySorted
           (fun a b => (if rev then comparator w b a else comparator w a b) = Lt)
           (keysOf es)
      /\ (min = NoBound -> max = NoBound ->
          es = if rev then _iteratorReversed (root w) else _iterator (root w)).
Proof.
  intros S w min max rev R. pose proof (Reachable_Inv S w R) as I.
  exists (recur (comparator w) min max rev (root w)). split; [reflexivity|].
  split; [apply Forall_forall; intros e He; eapply recur_incl; eauto|].
  split; [apply recur_sorted; [exact (inv_lawful I) | exact (inv_bst I)]|].
  intros -> ->. clear. induction (root w) as [|f l IHl r IHr]; simpl.
  - destruct rev; reflexivity.
  - destruct rev; simpl in *; rewrite IHl, IHr; reflexivity.
Qed.

(** X19.  [rotateLeft] raises exactly when there is no right child; otherwise the
    right child becomes the root of the subtree and the nodes keep their
    in-order sequence (identity, key, value, back link), so BST order is
    kept.  [rotateRight] is the mirror image. *)
Theorem rotations_keep_the_order_of_the_nodes :
  forall (cmp : Comparator K) (n : Node K V),
    (rotateLeft n = Throw <-> right n = undefined)
    /\ (rotateRight n = Throw <-> left n = undefined)
    /\ (forall n', rotateLeft n = Ok n' ->
          ownedItems n' = ownedItems n
          /\ (exists fr rl rr f' l' r',
                right n = node fr rl rr /\ n' = node f' l' r'
                /\ nid f' = nid fr /\ r' = rr)
          /\ (Lawful cmp -> bst cmp n -> bst cmp n'))
    /\ (forall n', rotateRight n = Ok n' ->
          ownedItems n' = ownedItems n
          /\ (exists fl ll lr f' l' r',
                left n = node fl ll lr /\ n' = node f' l' r'
                /\ nid f' = nid fl /\ l' = ll)
          /\ (Lawful cmp -> bst cmp n -> bst cmp n')).
Proof.
  intros cmp n. split; [|split; [|split]].
  - destruct n as [|f l [|fr rl rr]]; simpl; split; auto; discriminate.
  - destruct n as [|f [|fl ll lr] r]; simpl; split; auto; discriminate.
  - intros n' E. destruct n as [|f l [|fr rl rr]]; simpl in E; try discriminate.
    inversion E; subst. split; [simpl; rewrite <- !app_assoc; reflexivity|].
    split; [eexists _, _, _, _, _, _; repeat split; reflexivity|].
    intros L (Fl & Fr & Bl & (Frl & Frr & Brl & Brr)). simpl in *.
    apply Forall_app in Fr. destruct Fr as (Fr1 & Fr2).
    inversion Fr2 as [|? ? Hfr Fr3]; subst.
    assert (Hlt : cmp (key f) (key fr) = Lt) by (apply (cmp_gt_lt L); auto).
    repeat split; auto.
    apply Forall_app; split.
    + eapply Forall_impl; [|exact Fl]. simpl. intros a Ha.
      eapply (cmp_trans L); eauto.
    + constructor; auto.
  - intros n' E. destruct n as [|f [|fl ll lr] r]; simpl in E; try discriminate.
    inversion E; subst. split; [simpl; rewrite <- !app_assoc; reflexivity|].
    split; [eexists _, _, _, _, _, _; repeat split; reflexivity|].
    intros L (Fl & Fr & (Fll & Flr & Bll & Blr) & Br). simpl in *.
    apply Forall_app in Fl. destruct Fl as (Fl1 & Fl2).
    inversion Fl2 as [|? ? Hfl Fl3]; subst.
    assert (Hgt : cmp (key f) (key fl) = Gt) by (apply (cmp_gt_lt L); auto).
    repeat split; auto.
    apply Forall_app; split; auto.
    constructor; auto.
    eapply Forall_impl; [|exact Fr]. simpl. intros a Ha.
    eapply (cmp_trans_gt L); eauto.
Qed.

End RangeSoundness.

(** ** size *)

Section SizeProperties.

Context {K V : Type}.
Implicit Types (n l r : Node K V) (f : Fields K V).

#[local] Arguments balance : simpl never.
#[local] Arguments update : simpl never.
#[local] Arguments spliceSuccessor : simpl never.
#[local] Arguments balanceIfDefined : simpl never.

Lemma counted_nonneg : forall n, counted n -> 0 <= nodeCountOr0 n.
Proof.
  induction n as [|f l IHl r IHr]; simpl; [lia|].
  intros (H & Hl & Hr). specialize (IHl Hl). specialize (IHr Hr). lia.
Qed.

Lemma counted_entries : forall n,
  counted n -> Z.of_nat (length (_iterator n)) <= nodeCountOr0 n.
Proof.
  induction n as [|f l IHl r IHr]; simpl; [lia|].
  intros (H & Hl & Hr). specialize (IHl Hl). specialize (IHr Hr).
  rewrite length_app. simpl. lia.
Qed.

Lemma counted_update : forall f l r, counted l -> counted r -> counted (update (node f l r)).
Proof. intros f l r Hl Hr. unfold update. simpl. unfold calcNodeCount. split; [lia | auto]. Qed.

Lemma counted_balance : forall n n', counted n -> balance n = Ok n' -> counted n'.
Proof.
  intros n n' Hc E. destruct n as [|f l r]; unfold balance in E; [discriminate|].
  destruct (balanceFactor f <? -1).
  - destruct l as [|fl ll lr]; simpl in E; [discriminate|].
    inversion E; subst. destruct Hc as (H & (Hl & Hll & Hlr) & Hr).
    pose proof (counted_nonneg ll Hll). pose proof (counted_nonneg lr Hlr).
    pose proof (counted_nonneg r Hr).
    simpl in *. unfold update, calcNodeCount. simpl. unfold calcNodeCount.
    repeat split; auto; lia.
  - destruct (balanceFactor f >? 1).
    + destruct r as [|fr rl rr]; simpl in E; [discriminate|].
      inversion E; subst. destruct Hc as (H & Hl & (Hr & Hrl & Hrr)).
      pose proof (counted_nonneg l Hl). pose proof (counted_nonneg rl Hrl).
      pose proof (counted_nonneg rr Hrr).
      simpl in *. unfold update, calcNodeCount. simpl. unfold calcNodeCount.
      repeat split; auto; lia.
    + inversion E; subst. exact Hc.
Qed.

Lemma counted_rebalance : forall f l r n',
  counted l -> counted r -> balance (update (node f l r)) = Ok n' -> counted n'.
Proof.
  intros f l r n' Hl Hr E. eapply counted_balance; [|exact E].
  apply counted_update; auto.
Qed.

Lemma counted_getNodeOrCompute : forall S n k (compute : S -> V * S) (w w' : World K V S) n' h,
  counted n -> _getNodeOrCompute n k compute w = Ok ((n', h), w') -> counted n'.
Proof.
  intros S n k compute. induction n as [|f l IHl r IHr]; intros w w' n' h Hc E.
  - simpl in E. unfold bind, call, alloc, gets, ret in E.
    destruct (compute (user w)) as [v u]. simpl in E. inversion E; subst.
    simpl. unfold calcNodeCount. simpl. split; [lia | auto].
  - destruct Hc as (H & Hl & Hr).
    simpl in E. unfold bind at 1 in E. unfold gets at 1 in E. cbv beta iota in E.
    destruct (cmpLT (comparator w k (key f)));
      [|destruct (cmpGT (comparator w k (key f)))].
    + unfold bind at 1 in E.
      destruct (_getNodeOrCompute l k compute w) as [[[l' h'] w1]|] eqn:El; [|discriminate].
      cbv beta iota in E. unfold bind, liftRes, ret in E.
      destruct (balance (update (node f l' r))) as [n1|] eqn:Eb; [|discriminate].
      inversion E; subst. eapply counted_rebalance; [| |exact Eb]; eauto.
    + unfold bind at 1 in E.
      destruct (_getNodeOrCompute r k compute w) as [[[r' h'] w1]|] eqn:Er; [|discriminate].
      cbv beta iota in E. unfold bind, liftRes, ret in E.
      destruct (balance (update (node f l r'))) as [n1|] eqn:Eb; [|discriminate].
      inversion E; subst. eapply counted_rebalance; [| |exact Eb]; eauto.
    + unfold ret in E. inversion E; subst. simpl. auto.
Qed.

Lemma counted_deleteSmallest : forall S n (condition : Condition K V S) (w w' : World K V S) n' d,
  counted n -> _deleteSmallestNode n condition w = Ok ((n', d), w') -> counted n'.
Proof.
  intros S n condition. induction n as [|f l IHl r IHr]; intros w w' n' d Hc E.
  - simpl in E. unfold ret in E. inversion E; subst. exact I.
  - pose proof Hc as (H & Hl & Hr). destruct l as [|fl ll lr].
    + simpl in E. unfold bind, call in E.
      destruct (condition (node f undefined r) (user w)) as [b u].
      destruct b; simpl in E; unfold ret in E; inversion E; subst; auto.
    + change (_deleteSmallestNode (node f (node fl ll lr) r) condition w)
        with (bind (_deleteSmallestNode (node fl ll lr) condition)
                (fun x => let '(l', d) := x in
                   bind (liftRes (balance (update (node f l' r)))) (fun n' => ret (n', d))) w)
        in E.
      unfold bind at 1 in E.
      destruct (_deleteSmallestNode (node fl ll lr) condition w) as [[[l' d'] w1]|] eqn:El;
        [|discriminate].
      cbv beta iota in E. unfold bind, liftRes, ret in E.
      destruct (balance (update (node f l' r))) as [n1|] eqn:Eb; [|discriminate].
      inversion E; subst. eapply counted_rebalance; [| |exact Eb]; eauto.
Qed.

Lemma counted_deleteLargest : forall S n (condition : Condition K V S) (w w' : World K V S) n' d,
  counted n -> _deleteLargestNode n condition w = Ok ((n', d), w') -> counted n'.
Proof.
  intros S n condition. induction n as [|f l IHl r IHr]; intros w w' n' d Hc E.
  - simpl in E. unfold ret in E. inversion E; subst. exact I.
  - pose proof Hc as (H & Hl & Hr). destruct r as [|fr rl rr].
    + simpl in E. unfold bind, call in E.
      destruct (condition (node f l undefined) (user w)) as [b u].
      destruct b; simpl in E; unfold ret in E; inversion E; subst; auto.
    + change (_deleteLargestNode (node f l (node fr rl rr)) condition w)
        with (bind (_deleteLargestNode (node fr rl rr) condition)
                (fun x => let '(r', d) := x in
                   bind (liftRes (balance (update (node f l r')))) (fun n' => ret (n', d))) w)
        in E.
      unfold bind at 1 in E.
      destruct (_deleteLargestNode (node fr rl rr) condition w) as [[[r' d'] w1]|] eqn:Er;
        [|discriminate].
      cbv beta iota in E. unfold bind, liftRes, ret in E.
      destruct (balance (update (node f l r'))) as [n1|] eqn:Eb; [|discriminate].
      inversion E; subst. eapply counted_rebalance; [| |exact Eb]; eauto.
Qed.

Lemma counted_spliceSuccessor : forall S l r (w w' : World K V S) s,
  counted l -> counted r -> spliceSuccessor l r w = Ok (s, w') -> counted s.
Proof.
  intros S l r w w' s Hl Hr E. unfold spliceSuccessor, bind in E.
  destruct (_deleteSmallestNode r returnsTrue w) as [[[r' d] w1]|] eqn:Er; [|discriminate].
  apply (counted_deleteSmallest S r returnsTrue w w1 r' d Hr) in Er.
  destruct d as [|fs ls rs]; [discriminate|].
  unfold ret in E. inversion E; subst. apply counted_update; auto.
Qed.

Lemma counted_balanceIfDefined : forall S s (w w' : World K V S) s',
  counted s -> balanceIfDefined s w = Ok (s', w') -> counted s'.
Proof.
  intros S s w w' s' Hs E. unfold balanceIfDefined in E. destruct s as [|f l r].
  - unfold ret in E. inversion E; subst. exact I.
  - unfold liftRes in E. destruct (balance (node f l r)) as [s1|] eqn:Eb; [|discriminate].
    inversion E; subst. eapply counted_balance; eauto.
Qed.

Lemma counted_deleteNode : forall S n k (condition : Condition K V S) (w w' : World K V S) n' d,
  counted n -> _deleteNode n k condition w = Ok ((n', d), w') -> counted n'.
Proof.
  intros S n k condition. induction n as [|f l IHl r IHr]; intros w w' n' d Hc E.
  - simpl in E. unfold ret in E. inversion E; subst. exact I.
  - pose proof Hc as (H & Hl & Hr).
    simpl in E. unfold bind at 1 in E. unfold gets at 1 in E. cbv beta iota in E.
    destruct (cmpLT (comparator w k (key f)));
      [|destruct (cmpGT (comparator w k (key f)))].
    + unfold bind at 1 in E.
      destruct (_deleteNode l k condition w) as [[[l' d'] w1]|] eqn:El; [|discriminate].
      cbv beta iota in E. unfold bind, liftRes, ret in E.
      destruct (balance (update (node f l' r))) as [n1|] eqn:Eb; [|discriminate].
      inversion E; subst. eapply counted_rebalance; [| |exact Eb]; eauto.
    + unfold bind at 1 in E.
      destruct (_deleteNode r k condition w) as [[[r' d'] w1]|] eqn:Er; [|discriminate].
      cbv beta iota in E. unfold bind, liftRes, ret in E.
      destruct (balance (update (node f l r'))) as [n1|] eqn:Eb; [|discriminate].
      inversion E; subst. eapply counted_rebalance; [| |exact Eb]; eauto.
    + unfold bind at 1 in E. unfold call in E.
      destruct (condition (node f l r) (user w)) as [b u]. cbv beta iota in E.
      destruct b; cbn [negb] in E; cbv beta iota in E.
      * unfold bind at 1 in E.
        destruct ((match l with
                   | undefined => match r with
                                  | undefined => ret undefined
                                  | node _ _ _ => ret r
                                  end
                   | node _ _ _ => match r with
                                   | undefined => ret l
                                   | node _ _ _ => spliceSuccessor l r
                                   end
                   end) (set_user u w)) as [[s w1]|] eqn:Es; [|discriminate].
        cbv beta iota in E. unfold bind at 1 in E.
        destruct (balanceIfDefined s w1) as [[s' w2]|] eqn:Eb; [|discriminate].
        cbv beta iota in E. unfold ret in E. inversion E; subst.
        eapply counted_balanceIfDefined; [|exact Eb].
        destruct l as [|fl ll lr], r as [|fr rl rr].
        -- unfold ret in Es. inversion Es; subst. exact I.
        -- unfold ret in Es. inversion Es; subst. exact Hr.
        -- unfold ret in Es. inversion Es; subst. exact Hl.
        -- eapply counted_spliceSuccessor; [| |exact Es]; auto.
      * unfold ret in E. inversion E; subst. exact Hc.
Qed.

Lemma counted_modify : forall h (g : Fields K V -> Fields K V) n,
  (forall f, nodeCount (g f) = nodeCount f) -> counted n -> counted (modify h g n).
Proof.
  intros h g n Hg. induction n as [|f l IHl r IHr]; simpl; auto.
  intros (H & Hl & Hr).
  assert (El : nodeCountOr0 (modify h g l) = nodeCountOr0 l).
  { destruct l as [|fl ll lr]; simpl; auto. destruct (Nat.eqb (nid fl) h); auto. }
  assert (Er : nodeCountOr0 (modify h g r) = nodeCountOr0 r).
  { destruct r as [|fr rl rr]; simpl; auto. destruct (Nat.eqb (nid fr) h); auto. }
  rewrite El, Er. split; [|auto].
  destruct (Nat.eqb (nid f) h); [rewrite Hg|]; exact H.
Qed.

Lemma counted_invert : forall n, counted n -> counted (_invert n).
Proof.
  induction n as [|f l IHl r IHr]; simpl; auto.
  intros (H & Hl & Hr).
  assert (El : nodeCountOr0 (_invert l) = nodeCountOr0 l) by (destruct l; reflexivity).
  assert (Er : nodeCountOr0 (_invert r) = nodeCountOr0 r) by (destruct r; reflexivity).
  rewrite El, Er. split; [lia | auto].
Qed.

Lemma counted_getNodeOrCompute_top : forall S k (compute : S -> V * S) (w w' : World K V S) e,
  counted (root w) -> getNodeOrCompute k compute w = Ok (e, w') -> counted (root w').
Proof.
  intros S k compute w w' e Hc E. unfold getNodeOrCompute in E.
  unfold bind at 1 in E. unfold gets at 1 in E. cbv beta iota in E.
  destruct (root w) as [|f0 l0 r0] eqn:Er.
  - unfold bind, call, alloc, gets, ret, modify_state in E.
    destruct (compute (user w)) as [v u]. simpl in E. inversion E; subst. simpl.
    unfold calcNodeCount. simpl. split; [lia | auto].
  - unfold bind at 1 in E.
    destruct (_getNodeOrCompute (node f0 l0 r0) k compute w) as [[[n' h] w1]|] eqn:Eg;
      [|discriminate].
    cbv beta iota in E. unfold bind, modify_state, gets in E. inversion E; subst. simpl.
    exact (counted_getNodeOrCompute S (node f0 l0 r0) k compute w w1 n' h Hc Eg).
Qed.

Lemma counted_runMutation : forall S (c : Mutation K V S) (w w' : World K V S),
  counted (root w) -> runMutation c w = Ok (tt, w') -> counted (root w').
Proof.
  intros S c w w' Hc E. destruct c; cbn [runMutation] in E; try unfold bind at 1 in E.
  - unfold set, bind at 1, with_local in E.
    destruct (getNodeOrCompute k (fun u : bool * S => (v, (true, snd u)))
                (set_user (false, user w) w)) as [[e w1]|] eqn:Eg; [|discriminate].
    apply counted_getNodeOrCompute_top in Eg; [|exact Hc].
    cbv beta iota in E.
    destruct (negb (fst (user w1)) && replace).
    + destruct e as [|fe le re]; [discriminate|].
      unfold bind, modify_state, gets, ret in E. inversion E; subst. simpl.
      apply counted_modify; auto.
    + unfold ret in E. inversion E; subst. exact Eg.
  - unfold getOrCompute, bind at 1 in E.
    destruct (getNodeOrCompute k compute w) as [[e w1]|] eqn:Eg; [|discriminate].
    apply counted_getNodeOrCompute_top in Eg; [|exact Hc].
    destruct e as [|fe le re]; [discriminate|].
    unfold ret in E. inversion E; subst. exact Eg.
  - unfold delete, deleteNode, bind at 1, gets in E. unfold bind at 1 in E.
    destruct (_deleteNode (root w) k (orDefault condition) w) as [[[n' d] w1]|] eqn:Ed;
      [|discriminate].
    apply counted_deleteNode in Ed; [|exact Hc].
    cbv beta iota in E. unfold bind, modify_state, ret in E. inversion E; subst. exact Ed.
  - unfold deleteSmallest, deleteSmallestNode, bind at 1, gets in E. unfold bind at 1 in E.
    destruct (_deleteSmallestNode (root w) (orDefault condition) w) as [[[n' d] w1]|] eqn:Ed;
      [|discriminate].
    apply counted_deleteSmallest in Ed; [|exact Hc].
    cbv beta iota in E. unfold bind, modify_state, ret in E. inversion E; subst. exact Ed.
  - unfold deleteLargest, deleteLargestNode, bind at 1, gets in E. unfold bind at 1 in E.
    destruct (_deleteLargestNode (root w) (orDefault condition) w) as [[[n' d] w1]|] eqn:Ed;
      [|discriminate].
    apply counted_deleteLargest in Ed; [|exact Hc].
    cbv beta iota in E. unfold bind, modify_state, ret in E. inversion E; subst. exact Ed.
  - destruct (derefIn_defined (root w) f l r) as (f1 & l1 & r1 & Ed & _).
    rewrite (reKey_eq S f l r newKey w f1 l1 r1 Ed) in E.
    destruct (ownedBy (mapId w) (node f1 l1 r1) && negb (cmpNQ (comparator w newKey (key f1))));
      unfold ret in E; inversion E; subst; auto.
    simpl. apply counted_modify; auto.
  - destruct (derefIn_defined (root w) f l r) as (f1 & l1 & r1 & Ed & _).
    rewrite (reValue_eq S f l r newValue w f1 l1 r1 Ed) in E.
    destruct (ownedBy (mapId w) (node f1 l1 r1));
      unfold ret in E; inversion E; subst; auto.
    simpl. apply counted_modify; auto.
  - unfold reverse, invert, bind, modify_state in E. inversion E; subst. simpl.
    apply counted_invert. exact Hc.
  - unfold clear, bind, gets, modify_state, ret in E. inversion E; subst. exact I.
Qed.

Lemma counted_runAll : forall S (cs : list (Mutation K V S)) (w w' : World K V S),
  counted (root w) -> runAll cs w = Ok (tt, w') -> counted (root w').
Proof.
  intros S cs. induction cs as [|c cs IH]; intros w w' Hc E; simpl in E.
  - unfold ret in E. inversion E; subst. exact Hc.
  - unfold bind in E. destruct (runMutation c w) as [[[] w1]|] eqn:E1; [|discriminate].
    eapply IH; [|exact E]. eapply counted_runMutation; eauto.
Qed.

(** X3.  [size] is the cached [nodeCount] of the root: it is 0 exactly when the
    map is empty and it is never less than the number of entries that the
    iteration visits. *)
Theorem size_is_zero_only_when_empty :
  forall S (w : World K V S),
    Reachable w ->
    exists z,
      size w = Ok (z, w)
      /\ Z.of_nat (length (_iterator (root w))) <= z
      /\ (z = 0 <-> root w = undefined)
      /\ (z = 0 <-> _iterator (root w) = []).
Proof.
  intros S w (order & this & ref0 & u & cs & L & E).
  assert (Hc : counted (root w)).
  { eapply counted_runAll; [|exact E]. exact I. }
  exists (nodeCountOr0 (root w)). split; [reflexivity|].
  pose proof (counted_entries (root w) Hc) as Hle. split; [exact Hle|].
  destruct (root w) as [|f l r]; simpl in *.
  - split; split; auto.
  - rewrite length_app in Hle. simpl in Hle.
    split; split; intros X; try discriminate; try lia.
    destruct (_iterator l); discriminate.
Qed.

End SizeProperties.

(** ** The successor of a deleted node *)

Section SuccessorProperties.

Context {K V : Type}.
Implicit Types (n l r : Node K V) (f : Fields K V).

#[local] Arguments balance : simpl never.
#[local] Arguments update : simpl never.

(** With the condition that always agrees, the handle that
    [_deleteSmallestNode] returns is the emancipated smallest node. *)
Lemma deleteSmallest_handle : forall S n (w w' : World K V S) n' d,
  _deleteSmallestNode n returnsTrue w = Ok ((n', d), w') ->
  d = emancipate (getSmallestNode_from n).
Proof.
  intros S. induction n as [|f l IHl r IHr]; intros w w' n' d E.
  - simpl in E. unfold ret in E. inversion E; subst. reflexivity.
  - destruct l as [|fl ll lr].
    + simpl in E. unfold bind, call, returnsTrue in E. simpl in E.
      unfold ret in E. inversion E; subst. reflexivity.
    + change (_deleteSmallestNode (node f (node fl ll lr) r) returnsTrue w)
        with (bind (_deleteSmallestNode (node fl ll lr) returnsTrue)
                (fun x => let '(l', d) := x in
                   bind (liftRes (balance (update (node f l' r)))) (fun n' => ret (n', d))) w)
        in E.
      unfold bind at 1 in E.
      destruct (_deleteSmallestNode (node fl ll lr) (@returnsTrue K V S) w)
        as [[[l' d'] w1]|] eqn:El; [|discriminate].
      cbv beta iota in E. unfold bind, liftRes, ret in E.
      destruct (balance (update (node f l' r))) as [n1|] eqn:Eb; [|discriminate].
      inversion E; subst. eapply IHl; exact El.
Qed.

(** Deleting a node with two children puts the smallest node of its right
    subtree in its place, with the back link cleared. *)
Lemma _deleteNode_successor : forall S n k (condition : Condition K V S)
    (w w' : World K V S) n' d f fl ll lr r fs ls rs,
  getNode_from (comparator w) k n = node f (node fl ll lr) r ->
  getSmallestNode_from r = node fs ls rs ->
  fst (condition (node f (node fl ll lr) r) (user w)) = true ->
  _deleteNode n k condition w = Ok ((n', d), w') ->
  In (nid fs, key fs, value fs, None) (ownedItems n').
Proof.
  intros S n k condition w w' n' d f fl ll lr r fs ls rs.
  revert w' n' d. induction n as [|f0 l0 IHl r0 IHr]; intros w' n' d Eg Es Hc E.
  - discriminate.
  - simpl in Eg. simpl in E. unfold bind at 1 in E. unfold gets at 1 in E.
    cbv beta iota in E.
    destruct (cmpLT (comparator w k (key f0)));
      [|destruct (cmpGT (comparator w k (key f0)))].
    + unfold bind at 1 in E.
      destruct (_deleteNode l0 k condition w) as [[[l' d'] w1]|] eqn:El; [|discriminate].
      cbv beta iota in E. unfold bind, liftRes, ret in E.
      destruct (balance (update (node f0 l' r0))) as [n1|] eqn:Eb; [|discriminate].
      inversion E; subst. rewrite (rebalance_ownedItems _ _ _ _ Eb).
      apply in_or_app. left. eapply IHl; eauto.
    + unfold bind at 1 in E.
      destruct (_deleteNode r0 k condition w) as [[[r' d'] w1]|] eqn:Er; [|discriminate].
      cbv beta iota in E. unfold bind, liftRes, ret in E.
      destruct (balance (update (node f0 l0 r'))) as [n1|] eqn:Eb; [|discriminate].
      inversion E; subst. rewrite (rebalance_ownedItems _ _ _ _ Eb).
      apply in_or_app. right. right. eapply IHr; eauto.
    + inversion Eg; subst f0 l0 r0. clear IHl IHr Eg.
      unfold bind at 1 in E. unfold call in E.
      destruct (condition (node f (node fl ll lr) r) (user w)) as [b u].
      simpl in Hc. subst b. cbv beta iota in E. cbn [negb] in E. cbv beta iota in E.
      destruct r as [|fr rl rr]; [discriminate|].
      unfold bind at 1 in E. unfold spliceSuccessor, bind at 1 in E.
      destruct (_deleteSmallestNode (node fr rl rr) (@returnsTrue K V S) (set_user u w))
        as [[[r' s] w1]|] eqn:Ed; [|discriminate].
      pose proof (deleteSmallest_handle S _ _ _ _ _ Ed) as Hs. rewrite Es in Hs.
      simpl in Hs. subst s. cbv beta iota in E. unfold ret at 1 in E.
      cbv beta iota in E. unfold bind at 1 in E. unfold balanceIfDefined in E.
      set (s := update (node (set_sortedMap fs None) (node fl ll lr) r')) in *.
      assert (Hs : exists fx lx rx, s = node fx lx rx) by (unfold s, update; eauto).
      destruct Hs as (fx & lx & rx & Hs).
      assert (Ho : ownedItems s
                   = ownedItems (node fl ll lr) ++ (nid fs, key fs, value fs, None) :: ownedItems r')
        by reflexivity.
      rewrite Hs in E. unfold liftRes in E. rewrite <- Hs in E.
      destruct (balance s) as [s1|] eqn:Eb; [|discriminate].
      unfold ret in E. inversion E; subst n' d w'.
      rewrite (balance_ownedItems _ _ Eb), Ho. apply in_or_app. right. left. reflexivity.
Qed.

(** X10.  [delete] of a key whose node has two children: the smallest entry of
    the right subtree takes the node's place and stays in the map, under
    its key, but its back link to the map is cleared, so that [reKey] and
    [reValue] on it return false and change nothing. *)
Theorem delete_with_two_children_unlinks_the_successor :
  forall S (w : World K V S) (k : K) (condition : option (Condition K V S))
         f fl ll lr r fs ls rs,
    Reachable w ->
    getEntry k w = Ok (node f (node fl ll lr) r, w) ->
    getSmallestNode_from r = node fs ls rs ->
    fst (orDefault condition (node f (node fl ll lr) r) (user w)) = true ->
    exists d w' fs' ls' rs',
      delete k condition w = Ok (d, w')
      /\ getEntry (key fs) w' = Ok (node fs' ls' rs', w')
      /\ itemOf fs' = itemOf fs
      /\ sortedMap fs' = None
      /\ (forall newValue,
            reValue (node fs' ls' rs') newValue w' = Ok ((false, node fs' ls' rs'), w'))
      /\ (forall newKey,
            reKey (node fs' ls' rs') newKey w' = Ok ((false, node fs' ls' rs'), w')).
Proof.
  intros S w k condition f fl ll lr r fs ls rs R Ee Es Hc.
  pose proof (Reachable_Inv S w R) as I.
  destruct (deleteNode_spec S k condition w I) as (d & w' & E & I' & Ec & Em & _).
  pose proof E as E0. unfold deleteNode, bind, gets in E0.
  destruct (_deleteNode (root w) k (orDefault condition) w) as [[[n' d'] w1]|] eqn:Ed;
    [|discriminate].
  unfold modify_state, ret in E0. inversion E0; subst d' w'. clear E0.
  pose proof (_deleteNode_successor S (root w) k (orDefault condition) w w1 n' d
                f fl ll lr r fs ls rs (getEntry_inv S w k _ Ee) Es Hc Ed) as Hin.
  assert (Hin' : In (itemOf fs) (contents (root (set_root n' w1)))).
  { simpl. rewrite <- ownedItems_contents. apply in_map_iff.
    exists (nid fs, key fs, value fs, None). auto. }
  destruct (get_present S (value fs) (set_root n' w1) (key fs) (nid fs) (key fs) (value fs)
              I' Hin' (cmp_refl (inv_lawful I') (key fs)))
    as (_ & fs' & ls' & rs' & Eg & Eit).
  assert (Hnone : sortedMap fs' = None).
  { pose proof (getEntry_inv S _ _ _ Eg) as Eg'.
    pose proof (findNode_subtree _ fs' ls' rs' (inv_nodup I')
                  (getNode_from_in_iterator _ _ _ _ _ _ Eg')) as Ef.
    apply findNode_owned in Ef. simpl in Ef.
    assert (Ei : nid fs' = nid fs) by (unfold itemOf in Eit; congruence).
    rewrite Ei in Ef.
    pose proof (owned_unique n' _ _ _ _ _ _ _ (inv_nodup I') Ef Hin) as Hu. congruence. }
  destruct (deref_of_entry S _ _ _ _ _ I' Eg) as (Edr & _ & _).
  exists d, (set_root n' w1), fs', ls', rs'.
  split; [exact E|]. split; [exact Eg|]. split; [exact Eit|]. split; [exact Hnone|].
  split.
  - intros newValue. rewrite (reValue_eq S fs' ls' rs' newValue _ fs' ls' rs' Edr).
    simpl. rewrite Hnone. reflexivity.
  - intros newKey. rewrite (reKey_eq S fs' ls' rs' newKey _ fs' ls' rs' Edr).
    simpl. rewrite Hnone. reflexivity.
Qed.

End SuccessorProperties.

(** * The further properties on the scenarios *)

Lemma entry_of_1_in_after312 : forall S (u : S),
  getEntry 1 (after312 u) = Ok (node handleFields undefined handleRight, after312 u).
Proof. intros S u. vm_compute. reflexivity. Qed.

Lemma no_entry_of_7_in_after312 : forall S (u : S),
  getEntry 7 (after312 u) = Ok (undefined, after312 u).
Proof. intros S u. vm_compute. reflexivity. Qed.

Lemma entry_of_5_in_sevenKeys :
  getEntry 5 (sevenKeys tt)
  = Ok (node (fieldsOf five)
          (node (fieldsOf (left five)) (left (left five)) (right (left five)))
          (right five), sevenKeys tt).
Proof. vm_compute. reflexivity. Qed.

Lemma successor_of_5_in_sevenKeys :
  getSmallestNode_from (right five)
  = node (fieldsOf (left (right five))) undefined undefined.
Proof. vm_compute. reflexivity. Qed.

Lemma iteration_strictly_ascending_witness :
  Reachable (after312 tt)
  /\ exists es,
       iterator (after312 tt) = Ok (es, after312 tt)
       /\ StronglySorted (fun a b => comparator (after312 tt) a b = Lt) (keysOf es)
       /\ reversed (after312 tt) = Ok (rev es, after312 tt)
       /\ keys (after312 tt) = Ok (keysOf es, after312 tt)
       /\ values (after312 tt) = Ok (valuesOf es, after312 tt)
       /\ entries (after312 tt) = Ok (combine (keysOf es) (valuesOf es), after312 tt)
       /\ length (keysOf es) = length es
       /\ length (valuesOf es) = length es.
Proof.
  split; [exact (Reachable_after312 unit tt)|].
  exact (iteration_strictly_ascending unit (after312 tt) (Reachable_after312 unit tt)).
Defined.

Lemma extremes_are_ends_of_iteration_witness :
  Reachable (after312 tt)
  /\ getSmallestEntry (after312 tt)
     = Ok (hd undefined (_iterator (root (after312 tt))), after312 tt)
  /\ getLargestEntry (after312 tt)
     = Ok (last (_iterator (root (after312 tt))) undefined, after312 tt).
Proof.
  split; [exact (Reachable_after312 unit tt)|].
  destruct (extremes_are_ends_of_iteration unit (after312 tt) (Reachable_after312 unit tt))
    as (E1 & E2 & _).
  split; [exact E1 | exact E2].
Defined.

Lemma size_is_zero_only_when_empty_witness :
  Reachable (after312 tt)
  /\ exists z,
       size (after312 tt) = Ok (z, after312 tt)
       /\ Z.of_nat (length (_iterator (root (after312 tt)))) <= z
       /\ (z = 0 <-> root (after312 tt) = undefined)
       /\ (z = 0 <-> _iterator (root (after312 tt)) = []).
Proof.
  split; [exact (Reachable_after312 unit tt)|].
  exact (size_is_zero_only_when_empty unit (after312 tt) (Reachable_after312 unit tt)).
Defined.

Lemma set_of_new_key_creates_an_owned_entry_witness :
  (Reachable (after312 tt) /\ getEntry 7 (after312 tt) = Ok (undefined, after312 tt))
  /\ exists fe le re w',
       set 7 (Some 70) true (after312 tt) = Ok (node fe le re, w')
       /\ key fe = 7 /\ value fe = Some 70
       /\ sortedMap fe = Some (mapId w')
       /\ nid fe = nextRef (after312 tt)
       /\ get None 7 w' = Ok (Some 70, w')
       /\ getEntry 7 w' = Ok (node fe le re, w')
       /\ exists c1 c2, contents (root (after312 tt)) = c1 ++ c2
            /\ contents (root w') = c1 ++ (nid fe, 7, Some 70) :: c2.
Proof.
  split; [split; [exact (Reachable_after312 unit tt) | exact (no_entry_of_7_in_after312 unit tt)]|].
  exact (set_of_new_key_creates_an_owned_entry unit None (after312 tt) 7 (Some 70) true
           (Reachable_after312 unit tt) (no_entry_of_7_in_after312 unit tt)).
Defined.

Lemma set_leaves_the_other_keys_witness :
  Reachable (after312 tt)
  /\ exists e w',
       set 2 (Some 7) false (after312 tt) = Ok (e, w')
       /\ (forall k', comparator (after312 tt) k' 2 <> Eq ->
             exists v', get None k' (after312 tt) = Ok (v', after312 tt)
                        /\ get None k' w' = Ok (v', w'))
       /\ (false = false ->
           forall f l r, getEntry 2 (after312 tt) = Ok (node f l r, after312 tt) ->
             get None 2 w' = Ok (value f, w')
             /\ contents (root w') = contents (root (after312 tt))).
Proof.
  split; [exact (Reachable_after312 unit tt)|].
  exact (set_leaves_the_other_keys unit None (after312 tt) 2 (Some 7) false
           (Reachable_after312 unit tt)).
Defined.

Lemma getOrCompute_computes_only_when_missing_witness :
  (Reachable (after312 0%nat) /\ getEntry 7 (after312 0%nat) = Ok (undefined, after312 0%nat))
  /\ exists v w',
       getOrCompute 7 thunk77 (after312 0%nat) = Ok (v, w')
       /\ get None 7 w' = Ok (v, w')
       /\ v = fst (thunk77 (user (after312 0%nat)))
       /\ user w' = snd (thunk77 (user (after312 0%nat))).
Proof.
  split; [split; [exact (Reachable_after312 nat 0%nat) | exact (no_entry_of_7_in_after312 nat 0%nat)]|].
  destruct (getOrCompute_computes_only_when_missing nat None (after312 0%nat) 7 thunk77
              (Reachable_after312 nat 0%nat)) as (v & w' & E & Eg & _ & Hnew & _).
  destruct (Hnew (no_entry_of_7_in_after312 nat 0%nat)) as (Ev & Eu & _).
  exists v, w'. split; [exact E|]. split; [exact Eg|]. split; [exact Ev | exact Eu].
Defined.


Lemma delete_of_missing_key_witness :
  (Reachable (after312 tt) /\ getEntry 7 (after312 tt) = Ok (undefined, after312 tt))
  /\ exists w',
       delete 7 None (after312 tt) = Ok (undefined, w')
       /\ user w' = user (after312 tt)
       /\ contents (root w') = contents (root (after312 tt))
       /\ (forall k', exists v, get None k' (after312 tt) = Ok (v, after312 tt)
                                /\ get None k' w' = Ok (v, w')).
Proof.
  split; [split; [exact (Reachable_after312 unit tt) | exact (no_entry_of_7_in_after312 unit tt)]|].
  exact (delete_of_missing_key unit None (after312 tt) 7 None
           (Reachable_after312 unit tt) (no_entry_of_7_in_after312 unit tt)).
Defined.

Lemma delete_refused_keeps_the_entries_witness :
  (Reachable (after312 0%nat)
   /\ getEntry 1 (after312 0%nat)
      = Ok (node handleFields undefined handleRight, after312 0%nat)
   /\ fst (refuse (node handleFields undefined handleRight) (user (after312 0%nat))) = false)
  /\ exists w',
       delete 1 (Some refuse) (after312 0%nat) = Ok (undefined, w')
       /\ user w' = snd (refuse (node handleFields undefined handleRight)
                           (user (after312 0%nat)))
       /\ contents (root w') = contents (root (after312 0%nat))
       /\ (forall k', exists v, get None k' (after312 0%nat) = Ok (v, after312 0%nat)
                                /\ get None k' w' = Ok (v, w')).
Proof.
  split.
  - split; [exact (Reachable_after312 nat 0%nat)|].
    split; [exact (entry_of_1_in_after312 nat 0%nat) | reflexivity].
  - exact (delete_refused_keeps_the_entries nat None (after312 0%nat) 1 refuse
             handleFields undefined handleRight (Reachable_after312 nat 0%nat)
             (entry_of_1_in_after312 nat 0%nat) eq_refl).
Defined.

Lemma delete_with_two_children_unlinks_the_successor_witness :
  (Reachable (sevenKeys tt)
   /\ getEntry 5 (sevenKeys tt)
      = Ok (node (fieldsOf five)
              (node (fieldsOf (left five)) (left (left five)) (right (left five)))
              (right five), sevenKeys tt)
   /\ getSmallestNode_from (right five)
      = node (fieldsOf (left (right five))) undefined undefined
   /\ fst (orDefault None
             (node (fieldsOf five)
                (node (fieldsOf (left five)) (left (left five)) (right (left five)))
                (right five)) (user (sevenKeys tt))) = true)
  /\ exists d w' fs' ls' rs',
       delete 5 None (sevenKeys tt) = Ok (d, w')
       /\ getEntry (key (fieldsOf (left (right five)))) w' = Ok (node fs' ls' rs', w')
       /\ itemOf fs' = itemOf (fieldsOf (left (right five)))
       /\ sortedMap fs' = None
       /\ (forall newValue,
             reValue (node fs' ls' rs') newValue w' = Ok ((false, node fs' ls' rs'), w'))
       /\ (forall newKey,
             reKey (node fs' ls' rs') newKey w' = Ok ((false, node fs' ls' rs'), w')).
Proof.
  split.
  - split; [exact (Reachable_sevenKeys unit tt)|].
    split; [exact entry_of_5_in_sevenKeys|].
    split; [exact successor_of_5_in_sevenKeys | reflexivity].
  - exact (delete_with_two_children_unlinks_the_successor unit (sevenKeys tt) 5 None
             (fieldsOf five) (fieldsOf (left five)) (left (left five)) (right (left five))
             (right five) (fieldsOf (left (right five))) undefined undefined
             (Reachable_sevenKeys unit tt) entry_of_5_in_sevenKeys
             successor_of_5_in_sevenKeys eq_refl).
Defined.



Lemma reValue_writes_through_the_handle_witness :
  (Reachable (after312 tt)
   /\ getEntry 1 (after312 tt) = Ok (node handleFields undefined handleRight, after312 tt)
   /\ sortedMap handleFields = Some (mapId (after312 tt)))
  /\ exists w',
       reValue (node handleFields undefined handleRight) (Some 5) (after312 tt)
       = Ok ((true, node (set_value handleFields (Some 5)) undefined handleRight), w')
       /\ get None 1 w' = Ok (Some 5, w').
Proof.
  split.
  - split; [exact (Reachable_after312 unit tt)|].
    split; [exact (entry_of_1_in_after312 unit tt) | reflexivity].
  - destruct (reValue_writes_through_the_handle unit None (after312 tt) 1
                handleFields undefined handleRight (Some 5) (Reachable_after312 unit tt)
                (entry_of_1_in_after312 unit tt) eq_refl) as (w' & E & Eg & _).
    exists w'. split; [exact E | exact Eg].
Defined.

Lemma reKey_writes_through_the_handle_witness :
  (Reachable (after312 tt)
   /\ getEntry 1 (after312 tt) = Ok (node handleFields undefined handleRight, after312 tt)
   /\ sortedMap handleFields = Some (mapId (after312 tt))
   /\ comparator (after312 tt) 1 (key handleFields) = Eq)
  /\ exists w',
       reKey (node handleFields undefined handleRight) 1 (after312 tt)
       = Ok ((true, node (set_key handleFields 1) undefined handleRight), w')
       /\ get None 1 w' = Ok (value handleFields, w').
Proof.
  split.
  - split; [exact (Reachable_after312 unit tt)|].
    split; [exact (entry_of_1_in_after312 unit tt)|]. split; reflexivity.
  - destruct (reKey_writes_through_the_handle unit None (after312 tt) 1
                handleFields undefined handleRight 1 (Reachable_after312 unit tt)
                (entry_of_1_in_after312 unit tt) eq_refl eq_refl) as (w' & E & Eg & _).
    exists w'. split; [exact E | exact Eg].
Defined.

Lemma reverse_turns_the_order_and_keeps_lookups_witness :
  Reachable (after312 tt)
  /\ exists w',
       reverse (after312 tt) = Ok (tt, w')
       /\ keysIn (root w') = rev (keysIn (root (after312 tt)))
       /\ contents (root w') = rev (contents (root (after312 tt)))
       /\ StronglySorted (fun a b => comparator w' a b = Lt) (keysIn (root w'))
       /\ (forall a b, comparator w' a b = CompOpp (comparator (after312 tt) a b))
       /\ (forall k, exists v, get None k (after312 tt) = Ok (v, after312 tt)
                               /\ get None k w' = Ok (v, w')).
Proof.
  split; [exact (Reachable_after312 unit tt)|].
  exact (reverse_turns_the_order_and_keeps_lookups unit None (after312 tt)
           (Reachable_after312 unit tt)).
Defined.

Lemma consistent_sevenKeys : consistentBalanceFactors (root (sevenKeys tt)).
Proof. vm_compute. repeat split. Qed.

Lemma reverse_twice_recomputes_balance_factors_witness :
  consistentBalanceFactors (root (sevenKeys tt))
  /\ exists w',
       (reverse ;;; reverse) (sevenKeys tt) = Ok (tt, w')
       /\ root w' = root (sevenKeys tt).
Proof.
  split; [exact consistent_sevenKeys|].
  destruct (reverse_twice_recomputes_balance_factors unit (sevenKeys tt))
    as (w' & E & _ & _ & _ & _ & _ & _ & _ & Hsame).
  exists w'. split; [exact E | exact (Hsame consistent_sevenKeys)].
Defined.

Lemma clear_empties_the_map_and_its_handles_witness :
  exists es w',
    clear (after312 tt) = Ok (es, w')
    /\ size w' = Ok (0, w')
    /\ In (emancipate (node handleFields undefined handleRight)) es
    /\ reValue (emancipate (node handleFields undefined handleRight)) (Some 5) w'
       = Ok ((false, emancipate (node handleFields undefined handleRight)), w').
Proof.
  destruct (clear_empties_the_map_and_its_handles unit None (after312 tt))
    as (es & w' & E & _ & Es & _ & _ & _ & Hh).
  assert (Hin : In (emancipate (node handleFields undefined handleRight)) es).
  { vm_compute in E. injection E as <- _. vm_compute. auto 10. }
  exists es, w'. split; [exact E|]. split; [exact Es|]. split; [exact Hin|].
  exact (proj2 (Hh _ 1 (Some 5) Hin)).
Defined.

Lemma getRange_yields_only_entries_in_range_witness :
  Reachable (sevenKeys tt)
  /\ exists es,
       getRange (FnBound notFive) (PairBound 8 (Some exclusive)) false (sevenKeys tt)
       = Ok (es, sevenKeys tt)
       /\ Forall (fun e => In e (_iterator (root (sevenKeys tt)))
                           /\ inRange (comparator (sevenKeys tt)) (FnBound notFive)
                                (PairBound 8 (Some exclusive)) e = true) es
       /\ StronglySorted (fun a b => comparator (sevenKeys tt) a b = Lt) (keysOf es).
Proof.
  split; [exact (Reachable_sevenKeys unit tt)|].
  destruct (getRange_yields_only_entries_in_range unit (sevenKeys tt) (FnBound notFive)
              (PairBound 8 (Some exclusive)) false (Reachable_sevenKeys unit tt))
    as (es & E & F & Hs & _).
  exists es. split; [exact E|]. split; [exact F | exact Hs].
Defined.

Lemma rotateLeft_of_five :
  exists n', rotateLeft five = Ok n'.
Proof. vm_compute. eexists. reflexivity. Qed.

Lemma rotations_keep_the_order_of_the_nodes_witness :
  (Lawful Z.compare /\ bst Z.compare five)
  /\ exists n',
       rotateLeft five = Ok n'
       /\ ownedItems n' = ownedItems five
       /\ bst Z.compare n'.
Proof.
  split; [split; [exact Zcompare_lawful | exact bst_sevenKeys]|].
  destruct rotateLeft_of_five as (n' & E).
  destruct (rotations_keep_the_order_of_the_nodes Z.compare five) as (_ & _ & Hl & _).
  destruct (Hl n' E) as (Ho & _ & Hb).
  exists n'. split; [exact E|]. split; [exact Ho | exact (Hb Zcompare_lawful bst_sevenKeys)].
Defined.
